(** * Word-search game: generator, lexicon index, solver, opponent scheduler

    A shallow embedding of the TypeScript sources

      - [src/lib/wordSearch.ts]           (WordSearchGenerator)
      - [src/lib/dsa/Trie.ts]             (Trie)
      - [src/lib/dsa/WordSearchSolver.ts] (WordSearchSolver)
      - [src/hooks/useComputerOpponent.ts]
      - the line helpers and the selection lookup of
        [components/WordSearchGame.tsx]

    Modelling conventions.

    - A JavaScript string is a Rocq [string]; the development covers ASCII
      text, for which UTF-16 code units, code points and [ascii] characters
      coincide and [toUpperCase] acts character by character.
    - Grid coordinates are [Z]: the generator's DIAGONAL_UP direction and the
      solver's neighbour offsets subtract from them.  Sizes and counters that
      the code only ever counts upwards from zero (rows, cols, attempts,
      budgets) are [nat].
    - An array read out of range is the JavaScript value [undefined], written
      [None]; reading a property of [undefined] throws a TypeError, which
      fallible functions report as [None] of their result.
    - [Math.random] is an explicit source: a tape [nat -> nat] of raw draws
      and the index of the next draw, threaded through the code. *)

From Stdlib Require Import ZArith String Ascii List Lia Bool.
From stdpp Require Import base option gmap sets list strings.

Set Warnings "-register-all,-clear-no-such-hyp".
Local Open Scope string_scope.
Local Open Scope list_scope.

(** ** JavaScript strings *)

Module Js.

Definition upperChar (c : ascii) : ascii :=
  let n := nat_of_ascii c in
  if (97 <=? n)%nat && (n <=? 122)%nat then ascii_of_nat (n - 32) else c.

(** [String.prototype.toUpperCase] on ASCII text. *)
Fixpoint toUpperCase (s : string) : string :=
  match s with
  | EmptyString => EmptyString
  | String c s' => String (upperChar c) (toUpperCase s')
  end.

(** [s[i]]: a one-character string, or [undefined] past the end. *)
Definition charAt (s : string) (i : nat) : option string :=
  match String.get i s with
  | Some c => Some (String c EmptyString)
  | None => None
  end.

(** [s + v] where [v] may be [undefined], which JavaScript renders as the
    text "undefined". *)
Definition concat (s : string) (v : option string) : string :=
  match v with
  | Some t => s +:+ t
  | None => s +:+ "undefined"
  end.

(** Truthiness of a [string | null] value: [null] and the empty string are
    falsy. *)
Definition truthy (v : option string) : bool :=
  match v with
  | Some EmptyString => false
  | Some _ => true
  | None => false
  end.

(** [Math.sign] on integers. *)
Definition sign (z : Z) : Z := Z.sgn z.

End Js.

(** ** The random source *)

Module Random.

(** The tape of raw draws of [Math.random]. *)
Definition Tape := nat -> nat.

(** [Math.floor(Math.random() * n)] at draw number [k]: a value below [n],
    and [0] when [n] is [0]. *)
Definition floorRandom (tape : Tape) (k : nat) (n : nat) : nat :=
  match n with
  | O => O
  | S _ => tape k mod n
  end.

End Random.

(** ** Trie.ts *)

Module Trie.

Inductive TrieNode : Type :=
  mkNode { children : gmap ascii TrieNode;
           isEndOfWord : bool;
           word : option string }.

Definition createNode : TrieNode :=
  {| children := ∅; isEndOfWord := false; word := None |}.

(** The constructor: a trie is its root node. *)
Definition empty : TrieNode := createNode.

(** The loop of [insert] over the characters still to be walked, from the
    node [current]; the in-place updates of the child nodes become the
    rebuilt path. *)
Fixpoint insertFrom (chars : string) (upperWord : string)
    (current : TrieNode) : TrieNode :=
  match chars with
  | EmptyString =>
      {| children := children current;
         isEndOfWord := true;
         word := Some upperWord |}
  | String char rest =>
      let child :=
        match children current !! char with
        | Some n => n
        | None => createNode
        end in
      {| children := <[char := insertFrom rest upperWord child]> (children current);
         isEndOfWord := isEndOfWord current;
         word := word current |}
  end.

Definition insert (w : string) (root : TrieNode) : TrieNode :=
  let upperWord := Js.toUpperCase w in
  insertFrom upperWord upperWord root.

Fixpoint traverseFrom (str : string) (current : TrieNode) : option TrieNode :=
  match str with
  | EmptyString => Some current
  | String char rest =>
      match children current !! char with
      | None => None
      | Some child => traverseFrom rest child
      end
  end.

Definition traverse (root : TrieNode) (str : string) : option TrieNode :=
  traverseFrom str root.

Definition search (root : TrieNode) (w : string) : bool :=
  match traverse root (Js.toUpperCase w) with
  | Some node => isEndOfWord node
  | None => false
  end.

Definition startsWith (root : TrieNode) (prefix : string) : bool :=
  match traverse root (Js.toUpperCase prefix) with
  | Some _ => true
  | None => false
  end.

Definition getNode (root : TrieNode) (prefix : string) : option TrieNode :=
  traverse root (Js.toUpperCase prefix).

(** [insertAll root ws]: the calls [insert w] for [w] in [ws], in order. *)
Definition insertAll (root : TrieNode) (ws : list string) : TrieNode :=
  fold_left (fun t w => insert w t) ws root.

Definition fromWords (ws : list string) : TrieNode := insertAll empty ws.

End Trie.

(** ** Shared geometry *)

(** [interface Point], declared alike in wordSearch.ts and
    WordSearchSolver.ts. *)
Record Point : Type := mkPoint { row : Z; col : Z }.

#[global] Instance Point_eq_dec : EqDecision Point.
Proof. solve_decision. Defined.

(** [string[][]]. *)
Abbreviation Grid := (list (list string)).

(** [a[i]] for an integer [i]: [undefined] out of range. *)
Definition index {A : Type} (a : list A) (i : Z) : option A :=
  if (i <? 0)%Z then None else a !! Z.to_nat i.

(** The value of [grid[r][c]] when [grid[r]] exists (the inner option), and
    the TypeError when it does not (the outer one). *)
Definition readCell (grid : Grid) (r c : Z) : option (option string) :=
  match index grid r with
  | None => None
  | Some line => Some (index line c)
  end.

(** [grid[r][c] = v].  Throws when [grid[r]] is [undefined]; a column outside
    the row would grow the array or add a property, which this model does not
    represent and reports as a failure as well. *)
Definition writeCell (grid : Grid) (r c : Z) (v : string) : option Grid :=
  match index grid r with
  | None => None
  | Some line =>
      if (0 <=? c)%Z && (c <? Z.of_nat (length line))%Z
      then Some (<[Z.to_nat r := <[Z.to_nat c := v]> line]> grid)
      else None
  end.

(** ** wordSearch.ts *)

Module Generator.

Inductive Direction : Type :=
  HORIZONTAL | VERTICAL | DIAGONAL_DOWN | DIAGONAL_UP.

#[global] Instance Direction_eq_dec : EqDecision Direction.
Proof. solve_decision. Defined.

Record WordLocation : Type :=
  mkWordLocation { word : string; start : Point; end_ : Point }.

Record GridState : Type :=
  mkGridState { grid : Grid; words : list WordLocation }.

Definition DIRECTIONS : list Direction :=
  [HORIZONTAL; VERTICAL; DIAGONAL_DOWN; DIAGONAL_UP].

(** The cell [i] steps from [(row, col)] along [direction]: the chain of
    [if (direction === ...)] updates that canPlaceWord and insertWord
    repeat (with [i = len - 1] for the end cell). *)
Definition offset (direction : Direction) (row col i : Z) : Z * Z :=
  match direction with
  | HORIZONTAL => (row, col + i)
  | VERTICAL => (row + i, col)
  | DIAGONAL_DOWN => (row + i, col + i)
  | DIAGONAL_UP => (row - i, col + i)
  end%Z.

(** The collision loop of canPlaceWord, at index [i] with [todo] iterations
    left. *)
Fixpoint checkCollisions (grid : Grid) (word : string) (row col : Z)
    (direction : Direction) (i todo : nat) : option bool :=
  match todo with
  | O => Some true
  | S todo' =>
      let '(r, c) := offset direction row col (Z.of_nat i) in
      cell ← readCell grid r c;
      if bool_decide (cell ≠ Some "") && bool_decide (cell ≠ Js.charAt word i)
      then Some false
      else checkCollisions grid word row col direction (S i) todo'
  end.

Definition canPlaceWord (rows cols : nat) (grid : Grid) (word : string)
    (row col : Z) (direction : Direction) : option bool :=
  let len := String.length word in
  let '(endRow, endCol) := offset direction row col (Z.of_nat len - 1) in
  if (endRow <? 0)%Z || (endRow >=? Z.of_nat rows)%Z
     || (endCol <? 0)%Z || (endCol >=? Z.of_nat cols)%Z
  then Some false
  else checkCollisions grid word row col direction 0 len.

(** The loop of insertWord; [endPoint] is the pair [endRow, endCol]. *)
Fixpoint writeLetters (grid : Grid) (word : string) (row col : Z)
    (direction : Direction) (i todo : nat) (endPoint : Point)
    : option (Grid * Point) :=
  match todo with
  | O => Some (grid, endPoint)
  | S todo' =>
      let '(r, c) := offset direction row col (Z.of_nat i) in
      letter ← Js.charAt word i;
      grid' ← writeCell grid r c letter;
      let endPoint' :=
        if (Z.of_nat i =? Z.of_nat (String.length word) - 1)%Z
        then mkPoint r c else endPoint in
      writeLetters grid' word row col direction (S i) todo' endPoint'
  end.

Definition insertWord (grid : Grid) (word : string) (row col : Z)
    (direction : Direction) : option (Grid * Point) :=
  writeLetters grid word row col direction 0 (String.length word)
    (mkPoint row col).

(** placeWord with [todo] of its 100 attempts left and [k] the next draw.
    The result carries the grid (mutated in place by the source), the
    location or [null], and the next draw. *)
Fixpoint placeAttempts (tape : Random.Tape) (rows cols : nat) (grid : Grid)
    (word : string) (todo : nat) (k : nat)
    : option (Grid * option WordLocation * nat) :=
  match todo with
  | O => Some (grid, None, k)
  | S todo' =>
      direction ← DIRECTIONS !! Random.floorRandom tape k (length DIRECTIONS);
      let startRow := Z.of_nat (Random.floorRandom tape (k + 1) rows) in
      let startCol := Z.of_nat (Random.floorRandom tape (k + 2) cols) in
      ok ← canPlaceWord rows cols grid word startRow startCol direction;
      if ok : bool then
        '(grid', endPoint) ← insertWord grid word startRow startCol direction;
        Some (grid',
              Some {| word := word;
                      start := mkPoint startRow startCol;
                      end_ := endPoint |},
              k + 3)
      else placeAttempts tape rows cols grid word todo' (k + 3)
  end.

Definition placeWord (tape : Random.Tape) (rows cols : nat) (grid : Grid)
    (word : string) (k : nat) : option (Grid * option WordLocation * nat) :=
  placeAttempts tape rows cols grid word 100 k.

Definition letters : string := "ABCDEFGHIJKLMNOPQRSTUVWXYZ".

(** The inner loop of fillEmptyCells over the columns of row [r]. *)
Fixpoint fillRow (tape : Random.Tape) (grid : Grid) (r : Z) (c todo : nat)
    (k : nat) : option (Grid * nat) :=
  match todo with
  | O => Some (grid, k)
  | S todo' =>
      cell ← readCell grid r (Z.of_nat c);
      if bool_decide (cell = Some "") then
        letter ← Js.charAt letters
                   (Random.floorRandom tape k (String.length letters));
        grid' ← writeCell grid r (Z.of_nat c) letter;
        fillRow tape grid' r (S c) todo' (k + 1)
      else fillRow tape grid r (S c) todo' k
  end.

(** The outer loop of fillEmptyCells. *)
Fixpoint fillRows (tape : Random.Tape) (cols : nat) (grid : Grid)
    (r todo : nat) (k : nat) : option (Grid * nat) :=
  match todo with
  | O => Some (grid, k)
  | S todo' =>
      '(grid', k') ← fillRow tape grid (Z.of_nat r) 0 cols k;
      fillRows tape cols grid' (S r) todo' k'
  end.

Definition fillEmptyCells (tape : Random.Tape) (rows cols : nat)
    (grid : Grid) (k : nat) : option (Grid * nat) :=
  fillRows tape cols grid 0 rows k.

(** [Array.from(new Set(words))]: the first occurrence of every string, in
    order; [seen] is the set built so far. *)
Fixpoint unique (seen : gset string) (ws : list string) : list string :=
  match ws with
  | [] => []
  | w :: rest =>
      if bool_decide (w ∈ seen) then unique seen rest
      else w :: unique ({[w]} ∪ seen) rest
  end.

(** [Array.prototype.sort] with the comparator [b.length - a.length] is a
    stable sort by decreasing length; its result is the one computed by
    this insertion sort. *)
Fixpoint insertByLength (w : string) (sorted : list string) : list string :=
  match sorted with
  | [] => [w]
  | v :: rest =>
      if (String.length v <=? String.length w)%nat then w :: v :: rest
      else v :: insertByLength w rest
  end.

Fixpoint sortByLength (ws : list string) : list string :=
  match ws with
  | [] => []
  | w :: rest => insertByLength w (sortByLength rest)
  end.

(** The placement loop of generate. *)
Fixpoint placeAll (tape : Random.Tape) (rows cols : nat) (grid : Grid)
    (placedWords : list WordLocation) (sortedWords : list string) (k : nat)
    : option (Grid * list WordLocation * nat) :=
  match sortedWords with
  | [] => Some (grid, placedWords, k)
  | w :: rest =>
      '(grid', placed, k') ←
        placeWord tape rows cols grid (Js.toUpperCase w) k;
      match placed with
      | Some location =>
          placeAll tape rows cols grid' (placedWords ++ [location]) rest k'
      | None => placeAll tape rows cols grid' placedWords rest k'
      end
  end.

Definition emptyGrid (rows cols : nat) : Grid :=
  replicate rows (replicate cols "").

(** [new WordSearchGenerator(rows, cols).generate(words)], from draw [k];
    the result comes with the index of the next draw. *)
Definition generate (tape : Random.Tape) (rows cols : nat)
    (words : list string) (k : nat) : option (GridState * nat) :=
  let grid := emptyGrid rows cols in
  let uniqueWords := unique ∅ words in
  let sortedWords := sortByLength uniqueWords in
  '(grid1, placedWords, k1) ← placeAll tape rows cols grid [] sortedWords k;
  '(grid2, k2) ← fillEmptyCells tape rows cols grid1 k1;
  Some ({| grid := grid2; words := placedWords |}, k2).

End Generator.

(** ** WordSearchSolver.ts *)

Module Solver.

Record FoundWord : Type :=
  mkFoundWord { word : string; start : Point; end_ : Point; path : list Point }.

(** The eight neighbour offsets [dr, dc]. *)
Definition DIRECTIONS : list (Z * Z) :=
  [(-1, -1); (-1, 0); (-1, 1);
   (0, -1); (0, 1);
   (1, -1); (1, 0); (1, 1)]%Z.

(** The fields set once by the constructor. *)
Record WordSearchSolver : Type :=
  mkSolver { grid : Grid; rows : nat; cols : nat; trie : Trie.TrieNode }.

(** The two mutable fields, [foundWords] and [solutions]. *)
Record SearchState : Type :=
  mkSearchState { foundWords : gset string; solutions : list FoundWord }.

(** [new WordSearchSolver(grid, words)]; [cols] is [grid[0]?.length || 0]. *)
Definition new (grid : Grid) (words : list string) : WordSearchSolver :=
  {| grid := grid;
     rows := length grid;
     cols := match grid with [] => 0 | line :: _ => length line end;
     trie := Trie.fromWords words |}.

Definition outOfBounds (s : WordSearchSolver) (row col : Z) : bool :=
  (row <? 0)%Z || (row >=? Z.of_nat (rows s))%Z
  || (col <? 0)%Z || (col >=? Z.of_nat (cols s))%Z.

(** A [for (const x of xs)] loop whose body updates a state and may fail. *)
Fixpoint forEach {A S : Type} (body : A -> S -> option S) (xs : list A)
    (st : S) : option S :=
  match xs with
  | [] => Some st
  | x :: rest => st' ← body x st; forEach body rest st'
  end.

(** A [for (const x of xs)] loop that returns [true] as soon as its body
    does, and [false] after the last element. *)
Fixpoint tryEach {A S : Type} (body : A -> S -> option (bool * S))
    (xs : list A) (st : S) : option (bool * S) :=
  match xs with
  | [] => Some (false, st)
  | x :: rest =>
      '(hit, st') ← body x st;
      if hit : bool then Some (true, st') else tryEach body rest st'
  end.

(** The word a trie node completes, when the three-part condition
    [isEndOfWord && word && !seen.has(word)] holds. *)
Definition completes (trieNode : Trie.TrieNode) (seen : gset string)
    : option string :=
  match Trie.word trieNode with
  | Some w =>
      if Trie.isEndOfWord trieNode && Js.truthy (Some w)
         && negb (bool_decide (w ∈ seen))
      then Some w else None
  | None => None
  end.

(** [path[0] || { row, col }]. *)
Definition startOf (path : list Point) (row col : Z) : Point :=
  match path with
  | p :: _ => p
  | [] => mkPoint row col
  end.

(** The method [dfs].  The set [visited] of keys ["row,col"] is a set of
    pairs.  The recursion is bounded by [fuel]; the result is [None] when
    the fuel runs out or [grid[row]] is [undefined]. *)
Fixpoint dfs (fuel : nat) (s : WordSearchSolver) (row col : Z)
    (currentWord : string) (path : list Point) (visited : gset (Z * Z))
    (st : SearchState) : option SearchState :=
  match fuel with
  | O => None
  | S fuel' =>
      if outOfBounds s row col then Some st
      else
        let key := (row, col) in
        if bool_decide (key ∈ visited) then Some st
        else
          char ← readCell (grid s) row col;
          let newWord := Js.concat currentWord char in
          match Trie.getNode (trie s) newWord with
          | None => Some st
          | Some trieNode =>
              let newPath := path ++ [mkPoint row col] in
              let newVisited := visited ∪ {[key]} in
              let st1 :=
                match completes trieNode (foundWords st) with
                | Some w =>
                    {| foundWords := foundWords st ∪ {[w]};
                       solutions :=
                         solutions st ++
                           [{| word := w;
                               start := startOf path row col;
                               end_ := mkPoint row col;
                               path := newPath |}] |}
                | None => st
                end in
              forEach
                (fun '(dr, dc) st' =>
                   dfs fuel' s (row + dr)%Z (col + dc)%Z
                     newWord newPath newVisited st')
                DIRECTIONS st1
          end
  end.

(** The cells in row-major order, as the nested loops over [row] and [col]
    enumerate them. *)
Definition allPositions (rows cols : nat) : list Point :=
  flat_map
    (fun r => map (fun c => mkPoint (Z.of_nat r) (Z.of_nat c)) (seq 0 cols))
    (seq 0 rows).

(** Fuel that no search exhausts: a path never repeats a cell. *)
Definition enoughFuel (s : WordSearchSolver) : nat := S (rows s * cols s).

Definition findAllWordsFuel (fuel : nat) (s : WordSearchSolver)
    : option (list FoundWord) :=
  st ← forEach
         (fun p st => dfs fuel s (row p) (col p) "" [] ∅ st)
         (allPositions (rows s) (cols s))
         {| foundWords := ∅; solutions := [] |};
  Some (solutions st).

Definition findAllWords (s : WordSearchSolver) : option (list FoundWord) :=
  findAllWordsFuel (enoughFuel s) s.

(** The result of searchFromCell, which is also the pair of local
    variables its inner [dfs] updates. *)
Record CellSearch : Type :=
  mkCellSearch { found : option FoundWord; attempts : nat }.

(** The closure [dfs] of searchFromCell. *)
Fixpoint searchDfs (fuel : nat) (s : WordSearchSolver)
    (excludeWords : gset string) (maxAttempts : nat) (row col : Z)
    (currentWord : string) (path : list Point) (visited : gset (Z * Z))
    (st : CellSearch) : option (bool * CellSearch) :=
  match fuel with
  | O => None
  | S fuel' =>
      if (maxAttempts <=? attempts st)%nat then Some (false, st)
      else
        let st := {| found := found st; attempts := S (attempts st) |} in
        if outOfBounds s row col then Some (false, st)
        else
          let key := (row, col) in
          if bool_decide (key ∈ visited) then Some (false, st)
          else
            char ← readCell (grid s) row col;
            let newWord := Js.concat currentWord char in
            match Trie.getNode (trie s) newWord with
            | None => Some (false, st)
            | Some trieNode =>
                let newPath := path ++ [mkPoint row col] in
                let newVisited := visited ∪ {[key]} in
                match completes trieNode excludeWords with
                | Some w =>
                    Some (true,
                          {| found :=
                               Some {| word := w;
                                       start := startOf path row col;
                                       end_ := mkPoint row col;
                                       path := newPath |};
                             attempts := attempts st |})
                | None =>
                    tryEach
                      (fun '(dr, dc) st' =>
                         searchDfs fuel' s excludeWords maxAttempts
                           (row + dr)%Z (col + dc)%Z
                           newWord newPath newVisited st')
                      DIRECTIONS st
                end
            end
  end.

Definition searchFromCell (fuel : nat) (s : WordSearchSolver)
    (startRow startCol : Z) (excludeWords : gset string)
    (maxAttempts : nat) : option CellSearch :=
  '(_, st) ← searchDfs fuel s excludeWords maxAttempts startRow startCol
               "" [] ∅ {| found := None; attempts := 0 |};
  Some st.

(** [[a[i], a[j]] = [a[j], a[i]]]. *)
Definition swap {A : Type} (a : list A) (i j : nat) : list A :=
  match a !! i, a !! j with
  | Some x, Some y => <[j := x]> (<[i := y]> a)
  | _, _ => a
  end.

(** The Fisher-Yates loop, at index [i], with [k] the next draw. *)
Fixpoint shuffle (tape : Random.Tape) (positions : list Point) (i : nat)
    (k : nat) : list Point * nat :=
  match i with
  | O => (positions, k)
  | S i' =>
      let j := Random.floorRandom tape k (i + 1) in
      shuffle tape (swap positions i j) i' (k + 1)
  end.

Definition getShuffledPositions (tape : Random.Tape) (s : WordSearchSolver)
    (k : nat) : list Point * nat :=
  let positions := allPositions (rows s) (cols s) in
  shuffle tape positions (length positions - 1) k.

(** The loop of findNextWord over the shuffled positions; the result pairs
    the returned value with the final value of the local [attempts]. *)
Fixpoint scanPositions (fuel : nat) (s : WordSearchSolver)
    (foundSet : gset string) (maxAttempts : nat) (positions : list Point)
    (attempts : nat) : option (option FoundWord * nat) :=
  match positions with
  | [] => Some (None, attempts)
  | p :: rest =>
      if (maxAttempts <=? attempts)%nat then Some (None, attempts)
      else
        result ← searchFromCell fuel s (row p) (col p) foundSet
                   (maxAttempts - attempts);
        let attempts' := attempts + Solver.attempts result in
        match found result with
        | Some f =>
            if negb (bool_decide (word f ∈ foundSet))
            then Some (Some f, attempts')
            else scanPositions fuel s foundSet maxAttempts rest attempts'
        | None => scanPositions fuel s foundSet maxAttempts rest attempts'
        end
  end.

(** findNextWord from draw [k]: the returned word or [null], the number of
    attempts spent, and the next draw. *)
Definition findNextWordFuel (fuel : nat) (tape : Random.Tape)
    (s : WordSearchSolver) (alreadyFound : list string) (maxAttempts : nat)
    (k : nat) : option (option FoundWord * nat * nat) :=
  let foundSet : gset string := list_to_set alreadyFound in
  let '(positions, k') := getShuffledPositions tape s k in
  '(result, attempts) ← scanPositions fuel s foundSet maxAttempts positions 0;
  Some (result, attempts, k').

Definition findNextWord (tape : Random.Tape) (s : WordSearchSolver)
    (alreadyFound : list string) (maxAttempts : nat) (k : nat)
    : option (option FoundWord * nat * nat) :=
  findNextWordFuel (enoughFuel s) tape s alreadyFound maxAttempts k.

(** *** The budgeted search with its calls logged *)

(** The closure [dfs] of searchFromCell once more, line by line, with one
    ghost variable: the second component of the state is a log that
    receives the cell of every call that gets past the budget check,
    whatever the call does next (leave the grid, meet a visited cell, be
    pruned, find a word or recurse).  The source has no such variable, and
    nothing reads it: it is there to count the search nodes visited
    independently of the counter [attempts]. *)
Fixpoint searchDfsLogged (fuel : nat) (s : WordSearchSolver)
    (excludeWords : gset string) (maxAttempts : nat) (row col : Z)
    (currentWord : string) (path : list Point) (visited : gset (Z * Z))
    (st : CellSearch * list Point)
    : option (bool * (CellSearch * list Point)) :=
  match fuel with
  | O => None
  | S fuel' =>
      if (maxAttempts <=? attempts st.1)%nat then Some (false, st)
      else
        let log := st.2 ++ [mkPoint row col] in
        let st := {| found := found st.1; attempts := S (attempts st.1) |} in
        if outOfBounds s row col then Some (false, (st, log))
        else
          let key := (row, col) in
          if bool_decide (key ∈ visited) then Some (false, (st, log))
          else
            char ← readCell (grid s) row col;
            let newWord := Js.concat currentWord char in
            match Trie.getNode (trie s) newWord with
            | None => Some (false, (st, log))
            | Some trieNode =>
                let newPath := path ++ [mkPoint row col] in
                let newVisited := visited ∪ {[key]} in
                match completes trieNode excludeWords with
                | Some w =>
                    Some (true,
                          ({| found :=
                                Some {| word := w;
                                        start := startOf path row col;
                                        end_ := mkPoint row col;
                                        path := newPath |};
                              attempts := attempts st |},
                           log))
                | None =>
                    tryEach
                      (fun '(dr, dc) st' =>
                         searchDfsLogged fuel' s excludeWords maxAttempts
                           (row + dr)%Z (col + dc)%Z
                           newWord newPath newVisited st')
                      DIRECTIONS (st, log)
                end
            end
  end.

(** searchFromCell, with the log of its calls. *)
Definition searchFromCellLogged (fuel : nat) (s : WordSearchSolver)
    (startRow startCol : Z) (excludeWords : gset string)
    (maxAttempts : nat) : option (CellSearch * list Point) :=
  '(_, st) ← searchDfsLogged fuel s excludeWords maxAttempts startRow startCol
               "" [] ∅ ({| found := None; attempts := 0 |}, []);
  Some st.

(** The loop of findNextWord, with the logs of its searches put end to
    end. *)
Fixpoint scanPositionsLogged (fuel : nat) (s : WordSearchSolver)
    (foundSet : gset string) (maxAttempts : nat) (positions : list Point)
    (attempts : nat) (log : list Point)
    : option (option FoundWord * nat * list Point) :=
  match positions with
  | [] => Some (None, attempts, log)
  | p :: rest =>
      if (maxAttempts <=? attempts)%nat then Some (None, attempts, log)
      else
        result ← searchFromCellLogged fuel s (row p) (col p) foundSet
                   (maxAttempts - attempts);
        let attempts' := attempts + Solver.attempts result.1 in
        let log' := log ++ result.2 in
        match found result.1 with
        | Some f =>
            if negb (bool_decide (word f ∈ foundSet))
            then Some (Some f, attempts', log')
            else scanPositionsLogged fuel s foundSet maxAttempts rest
                   attempts' log'
        | None =>
            scanPositionsLogged fuel s foundSet maxAttempts rest attempts' log'
        end
  end.

(** findNextWord, with the cells of all the search nodes it visited, in
    order. *)
Definition findNextWordLogged (tape : Random.Tape) (s : WordSearchSolver)
    (alreadyFound : list string) (maxAttempts : nat) (k : nat)
    : option (option FoundWord * nat * nat * list Point) :=
  let foundSet : gset string := list_to_set alreadyFound in
  let '(positions, k') := getShuffledPositions tape s k in
  '(result, attempts, log) ←
    scanPositionsLogged (enoughFuel s) s foundSet maxAttempts positions 0 [];
  Some (result, attempts, k', log).

End Solver.

(** ** The line helpers of WordSearchGame.tsx *)

Module Game.

(** The [while (true)] loop of getPointsOnLine with [todo] pushes left; the
    safety break leaves it after the 101st push. *)
Fixpoint walk (endPoint : Point) (dRow dCol currRow currCol : Z)
    (todo : nat) : list Point :=
  match todo with
  | O => []
  | S todo' =>
      mkPoint currRow currCol ::
        (if (currRow =? row endPoint)%Z && (currCol =? col endPoint)%Z
         then []
         else walk endPoint dRow dCol
                (currRow + dRow)%Z (currCol + dCol)%Z todo')
  end.

(** getPointsOnLine; [None] is its [null]. *)
Definition getPointsOnLine (start endPoint : Point) : option (list Point) :=
  let dRow := Js.sign (row endPoint - row start) in
  let dCol := Js.sign (col endPoint - col start) in
  if (dRow =? 0)%Z && (dCol =? 0)%Z then Some [start]
  else if negb (dRow =? 0)%Z && negb (dCol =? 0)%Z
          && negb (Z.abs (row endPoint - row start)
                   =? Z.abs (col endPoint - col start))%Z
  then None
  else Some (walk endPoint dRow dCol (row start) (col start) 101).

(** [cells.join('')], where an [undefined] element contributes nothing. *)
Fixpoint join (cells : list (option string)) : string :=
  match cells with
  | [] => ""
  | Some t :: rest => t +:+ join rest
  | None :: rest => join rest
  end.

(** getSelectedWord; the outer [None] is the TypeError of reading a row
    that does not exist, the inner one the [null] result. *)
Definition getSelectedWord (grid : Grid) (start endPoint : Point)
    : option (option string) :=
  match getPointsOnLine start endPoint with
  | None => Some None
  | Some points =>
      cells ← mapM (fun p => readCell grid (row p) (col p)) points;
      Some (Some (join cells))
  end.

(** isSameLine: the same two end points, in the same or the opposite
    order. *)
Definition isSameLine (start1 end1 start2 end2 : Point) : bool :=
  let forward :=
    (row start1 =? row start2)%Z && (col start1 =? col start2)%Z
    && (row end1 =? row end2)%Z && (col end1 =? col end2)%Z in
  let reverse :=
    (row start1 =? row end2)%Z && (col start1 =? col end2)%Z
    && (row end1 =? row start2)%Z && (col end1 =? col start2)%Z in
  forward || reverse.

(** The lookup that handleMouseUp performs once its guards have passed:
    [selectedWord], then, when it is truthy, the [find] over the placed
    words.  The inner [None] is the absence of a match ([undefined], or no
    lookup at all); the outer one is the TypeError of getSelectedWord. *)
Definition findMatch (gameState : Generator.GridState)
    (selectionStart selectionEnd : Point)
    : option (option Generator.WordLocation) :=
  selectedWord ← getSelectedWord (Generator.grid gameState)
                   selectionStart selectionEnd;
  if Js.truthy selectedWord then
    Some (List.find
            (fun w =>
               bool_decide (Some (Generator.word w) = selectedWord)
               && isSameLine (Generator.start w) (Generator.end_ w)
                    selectionStart selectionEnd)
            (Generator.words gameState))
  else Some None.

End Game.

(** ** useComputerOpponent.ts *)

(** The hook is run by two schedulers that are not part of the repository:
    React, which after a render re-runs an effect whose dependencies changed,
    calling the cleanup of its previous run first, and the timer queue of
    [setTimeout] and [clearTimeout].  Both are modelled as a transition
    system whose events are renders, timer expiries and the unmount; the
    effect bodies, the cleanup and the timer callback are the source's.  A
    render event is the commit of a render together with the effects it
    runs, taken as one step: no timeout expires between the two.  The length
    of the thinking delay only decides when the expiry event happens, so the
    delay itself is not represented. *)

Module Opponent.

(** The props other than the callback [onCpuFoundWord], whose invocations
    the state records in [calls]. *)
Record Props : Type :=
  mkProps { grid : option Grid;
            words : list string;
            playerFoundWords : list string;
            cpuFoundWords : list string;
            isCpuTurn : bool;
            gameActive : bool }.

(** What the timer callback captures from the render that armed it. *)
Record Closure : Type :=
  mkClosure { capturedPlayer : list string; capturedCpu : list string }.

Record State : Type :=
  mkState { solverRef : option Solver.WordSearchSolver;
            turnTimeoutRef : option nat;
            timers : gmap nat Closure;   (* pending timeouts, by handle *)
            nextTimer : nat;             (* the next fresh handle *)
            hasCleanup : bool;           (* the last turn effect returned one *)
            rendered : option Props;     (* the props of the last render *)
            draw : nat;                  (* the next draw of the tape *)
            calls : list Generator.WordLocation }.

Definition initial (k : nat) : State :=
  {| solverRef := None; turnTimeoutRef := None; timers := ∅;
     nextTimer := 1; hasCleanup := false; rendered := None;
     draw := k; calls := [] |}.

(** [clearTimeout(ref.current)] guarded by [if (ref.current)]; handles are
    positive, hence truthy. *)
Definition clearPending (st : State) : gmap nat Closure :=
  match turnTimeoutRef st with
  | Some id => delete id (timers st)
  | None => timers st
  end.

(** The first effect: build the solver. *)
Definition initSolver (props : Props) (st : State) : State :=
  match grid props with
  | Some g =>
      if (0 <? length (words props))%nat
      then {| solverRef := Some (Solver.new g (words props));
              turnTimeoutRef := turnTimeoutRef st; timers := timers st;
              nextTimer := nextTimer st; hasCleanup := hasCleanup st;
              rendered := rendered st; draw := draw st; calls := calls st |}
      else st
  | None => st
  end.

(** The cleanup returned by the second effect, when it returned one. *)
Definition runCleanup (st : State) : State :=
  if hasCleanup st
  then {| solverRef := solverRef st; turnTimeoutRef := turnTimeoutRef st;
          timers := clearPending st;
          nextTimer := nextTimer st; hasCleanup := false;
          rendered := rendered st; draw := draw st; calls := calls st |}
  else st.

(** The second effect: the turn logic. *)
Definition turnEffect (props : Props) (st : State) : State :=
  if negb (isCpuTurn props) || negb (gameActive props)
  then {| solverRef := solverRef st;
          turnTimeoutRef := None;
          timers := clearPending st;
          nextTimer := nextTimer st; hasCleanup := false;
          rendered := rendered st; draw := draw st; calls := calls st |}
  else
    match solverRef st with
    | None =>
        {| solverRef := solverRef st; turnTimeoutRef := turnTimeoutRef st;
           timers := timers st; nextTimer := nextTimer st;
           hasCleanup := false;
           rendered := rendered st; draw := draw st; calls := calls st |}
    | Some _ =>
        (* one draw for thinkingTime, then setTimeout *)
        let id := nextTimer st in
        {| solverRef := solverRef st;
           turnTimeoutRef := Some id;
           timers := <[id := {| capturedPlayer := playerFoundWords props;
                                capturedCpu := cpuFoundWords props |}]>
                       (timers st);
           nextTimer := S id; hasCleanup := true;
           rendered := rendered st; draw := S (draw st); calls := calls st |}
    end.

Definition setRendered (props : Props) (st : State) : State :=
  {| solverRef := solverRef st; turnTimeoutRef := turnTimeoutRef st;
     timers := timers st; nextTimer := nextTimer st;
     hasCleanup := hasCleanup st; rendered := Some props;
     draw := draw st; calls := calls st |}.

(** Whether the dependencies [grid, words] of the first effect changed.
    Arrays are compared by reference: [fresh] says that a reference
    changed although the contents did not. *)
Definition solverDepsChanged (fresh : bool) (props : Props) (st : State)
    : bool :=
  match rendered st with
  | None => true
  | Some old =>
      fresh || bool_decide (grid old ≠ grid props)
      || bool_decide (words old ≠ words props)
  end.

(** Whether the dependencies [isCpuTurn, gameActive, playerFoundWords,
    cpuFoundWords, onCpuFoundWord] of the second effect changed. *)
Definition turnDepsChanged (fresh : bool) (props : Props) (st : State)
    : bool :=
  match rendered st with
  | None => true
  | Some old =>
      fresh || negb (eqb (isCpuTurn old) (isCpuTurn props))
      || negb (eqb (gameActive old) (gameActive props))
      || bool_decide (playerFoundWords old ≠ playerFoundWords props)
      || bool_decide (cpuFoundWords old ≠ cpuFoundWords props)
  end.

(** A render: cleanups of the effects that re-run, then their bodies in
    source order. *)
Definition render (props : Props) (fresh1 fresh2 : bool) (st : State)
    : State :=
  let run1 := solverDepsChanged fresh1 props st in
  let run2 := turnDepsChanged fresh2 props st in
  let st1 := if run2 then runCleanup st else st in
  let st2 := if run1 then initSolver props st1 else st1 in
  let st3 := if run2 then turnEffect props st2 else st2 in
  setRendered props st3.

Definition toLocation (f : Solver.FoundWord) : Generator.WordLocation :=
  {| Generator.word := Solver.word f;
     Generator.start := Solver.start f;
     Generator.end_ := Solver.end_ f |}.

(** The expiry of the timeout [id]: nothing when it was cleared; otherwise
    the timer callback runs.  A findNextWord that throws ends the callback
    without a call. *)
Definition fire (tape : Random.Tape) (id : nat) (st : State) : State :=
  match timers st !! id with
  | None => st
  | Some closure =>
      let pending := delete id (timers st) in
      let allFoundWords := capturedPlayer closure ++ capturedCpu closure in
      let outcome :=
        match solverRef st with
        | Some solver =>
            match Solver.findNextWord tape solver allFoundWords 500 (draw st) with
            | Some (result, _, k') => (result, k')
            | None => (None, draw st)
            end
        | None => (None, draw st)
        end in
      {| solverRef := solverRef st; turnTimeoutRef := turnTimeoutRef st;
         timers := pending; nextTimer := nextTimer st;
         hasCleanup := hasCleanup st; rendered := rendered st;
         draw := snd outcome;
         calls := match fst outcome with
                  | Some result => calls st ++ [toLocation result]
                  | None => calls st
                  end |}
  end.

Inductive Event : Type :=
| Render (props : Props) (fresh1 fresh2 : bool)
| Expire (id : nat)
| Unmount.

Definition step (tape : Random.Tape) (ev : Event) (st : State) : State :=
  match ev with
  | Render props fresh1 fresh2 => render props fresh1 fresh2 st
  | Expire id => fire tape id st
  | Unmount => runCleanup st
  end.

Definition run (tape : Random.Tape) (evs : list Event) (st : State) : State :=
  fold_left (fun st ev => step tape ev st) evs st.

(** Events during which the opponent does not hold an active turn. *)
Definition offTurn (ev : Event) : bool :=
  match ev with
  | Render props _ _ => negb (isCpuTurn props) || negb (gameActive props)
  | Expire _ => true
  | Unmount => true
  end.

End Opponent.

(** * Properties *)

(** ** Strings *)

Module JsFacts.

(** [p] is a prefix of [s]. *)
Definition isPrefix (p s : string) : Prop := exists t, s = p +:+ t.

(** Text of the ASCII range.  There a UTF-16 code unit, a code point and a
    character of this development are the same thing, and [toUpperCase]
    changes the letters a to z only, one for one. *)
Definition isAscii (s : string) : bool :=
  forallb (fun ch => (nat_of_ascii ch <? 128)%nat) (list_ascii_of_string s).

Lemma upperChar_idem c : Js.upperChar (Js.upperChar c) = Js.upperChar c.
Proof. destruct c as [[] [] [] [] [] [] [] []]; reflexivity. Qed.

Lemma toUpperCase_idem s : Js.toUpperCase (Js.toUpperCase s) = Js.toUpperCase s.
Proof. induction s as [|c s IH]; simpl; [done|]. by rewrite upperChar_idem, IH. Qed.

Lemma toUpperCase_length s : String.length (Js.toUpperCase s) = String.length s.
Proof. induction s; simpl; congruence. Qed.

Lemma append_nil_l t : "" +:+ t = t.
Proof. reflexivity. Qed.

Lemma append_cons c s t : String c s +:+ t = String c (s +:+ t).
Proof. reflexivity. Qed.

Lemma toUpperCase_app s t :
  Js.toUpperCase (s +:+ t) = Js.toUpperCase s +:+ Js.toUpperCase t.
Proof.
  induction s as [|c s IH]; [done|].
  rewrite append_cons. simpl. by rewrite IH.
Qed.

Lemma append_nil_r s : s +:+ "" = s.
Proof. induction s as [|c s IH]; [done|]. by rewrite append_cons, IH. Qed.

Lemma append_assoc s t u : (s +:+ t) +:+ u = s +:+ (t +:+ u).
Proof. induction s as [|c s IH]; [done|]. by rewrite !append_cons, IH. Qed.

Lemma append_length s t :
  String.length (s +:+ t) = String.length s + String.length t.
Proof.
  induction s as [|c s IH]; [done|]. rewrite append_cons. simpl. by rewrite IH.
Qed.

Lemma append_snoc s c t : (s +:+ String c "") +:+ t = s +:+ String c t.
Proof. by rewrite append_assoc. Qed.

Lemma isPrefix_nil s : isPrefix "" s.
Proof. by exists s. Qed.

Lemma isPrefix_cons c p d s :
  isPrefix (String c p) (String d s) <-> c = d /\ isPrefix p s.
Proof.
  split.
  - intros [t Ht]. rewrite append_cons in Ht. injection Ht as -> ->.
    split; [done|by exists t].
  - intros [-> [t ->]]. by exists t.
Qed.

Lemma isPrefix_of_nil p : isPrefix p "" <-> p = "".
Proof.
  split; [|intros ->; apply isPrefix_nil].
  intros [t Ht]. by destruct p.
Qed.

Lemma isPrefix_refl s : isPrefix s s.
Proof. exists "". by rewrite append_nil_r. Qed.

Lemma isPrefix_app p t : isPrefix p (p +:+ t).
Proof. by exists t. Qed.

End JsFacts.

(** ** The trie *)

Module TrieFacts.
Import Trie JsFacts.

Lemma traverseFrom_createNode s n :
  traverseFrom s createNode = Some n -> s = "" /\ n = createNode.
Proof. destruct s; simpl; [by intros [= <-]|]. by rewrite lookup_empty. Qed.

Lemma traverseFrom_app s t n :
  traverseFrom (s +:+ t) n = traverseFrom s n ≫= traverseFrom t.
Proof.
  revert n. induction s as [|c s IH]; intros n; [done|].
  rewrite append_cons. simpl.
  destruct (children n !! c); simpl; [apply IH|done].
Qed.

(** Which prefixes a trie holds after an insertion. *)
Lemma traverseFrom_insertFrom_is_Some chars u n s :
  is_Some (traverseFrom s (insertFrom chars u n))
  <-> is_Some (traverseFrom s n) \/ isPrefix s chars.
Proof.
  revert n s. induction chars as [|c chars IH]; intros n s.
  - destruct s as [|d s]; simpl.
    + split; [intros _; left; eauto|eauto].
    + split; [tauto|]. intros [H|H]; [done|].
      apply isPrefix_of_nil in H. done.
  - destruct s as [|d s]; simpl.
    + split; [intros _; left; eauto|eauto].
    + destruct (decide (c = d)) as [->|Hne].
      * rewrite lookup_insert_eq, IH, isPrefix_cons.
        destruct (children n !! d) as [child|]; [naive_solver|].
        split; [|naive_solver].
        intros [[m Hm]|H]; [|naive_solver].
        apply traverseFrom_createNode in Hm as [-> _].
        right. split; [done|apply isPrefix_nil].
      * rewrite lookup_insert_ne by done. rewrite isPrefix_cons. naive_solver.
Qed.

Lemma insertAll_snoc root ws w :
  insertAll root (ws ++ [w]) = insert w (insertAll root ws).
Proof. unfold insertAll. by rewrite fold_left_app. Qed.

(** The prefixes held after a sequence of insertions into the empty trie. *)
Lemma traverse_fromWords_is_Some ws s :
  is_Some (traverse (fromWords ws) s)
  <-> s = "" \/ exists w, In w ws /\ isPrefix s (Js.toUpperCase w).
Proof.
  unfold fromWords. induction ws as [|w ws IH] using rev_ind.
  - simpl. unfold traverse, empty. split.
    + intros [n Hn]. apply traverseFrom_createNode in Hn. tauto.
    + intros [->|(w & [] & _)]. simpl. eauto.
  - rewrite insertAll_snoc. unfold traverse, insert in *.
    rewrite traverseFrom_insertFrom_is_Some, IH.
    setoid_rewrite in_app_iff. simpl. naive_solver.
Qed.

(** A stored word is the path to its node, and one of the words [U]. *)
Definition stored (pre : string) (n : TrieNode) (U : string -> Prop) : Prop :=
  forall s n' u, traverseFrom s n = Some n' -> word n' = Some u ->
    u = pre +:+ s /\ U u.

Lemma stored_createNode pre U : stored pre createNode U.
Proof. intros s n' u Hs Hu. apply traverseFrom_createNode in Hs as [_ ->]. done. Qed.

Lemma stored_child pre n U c child :
  stored pre n U -> children n !! c = Some child ->
  stored (pre +:+ String c "") child U.
Proof.
  intros Hn Hc s n' u Hs Hu. rewrite append_snoc.
  apply (Hn (String c s) n' u); [|done]. simpl. by rewrite Hc.
Qed.

Lemma stored_insertFrom chars pre n (U : string -> Prop) :
  stored pre n U -> U (pre +:+ chars) ->
  stored pre (insertFrom chars (pre +:+ chars) n) U.
Proof.
  revert pre n. induction chars as [|c chars IH]; intros pre n Hn HU s n' u.
  - destruct s as [|d s]; simpl.
    + intros [= <-]. simpl. intros [= <-]. done.
    + intros Hs. by apply (Hn (String d s)).
  - destruct s as [|d s]; simpl.
    + intros [= <-]. simpl. by apply (Hn "").
    + destruct (decide (c = d)) as [->|Hne].
      * rewrite lookup_insert_eq. rewrite <- (append_snoc pre d chars).
        intros Hs Hu. rewrite <- append_snoc.
        eapply IH; [| |exact Hs|exact Hu].
        -- destruct (children n !! d) eqn:Hd;
             [by eapply stored_child|apply stored_createNode].
        -- by rewrite append_snoc.
      * rewrite lookup_insert_ne by done. intros Hs. apply (Hn (String d s)).
        done.
Qed.

Lemma stored_mono pre n (U V : string -> Prop) :
  (forall u, U u -> V u) -> stored pre n U -> stored pre n V.
Proof. intros HUV Hn s n' u Hs Hu. destruct (Hn s n' u Hs Hu). auto. Qed.

(** Every word stored in a trie built from [ws] labels the path to its
    node and is the uppercase form of a member of [ws]. *)
Lemma fromWords_stored ws :
  stored "" (fromWords ws) (fun u => exists w, In w ws /\ u = Js.toUpperCase w).
Proof.
  unfold fromWords. induction ws as [|w ws IH] using rev_ind.
  - apply stored_createNode.
  - rewrite insertAll_snoc. unfold insert.
    apply (stored_insertFrom (Js.toUpperCase w) "").
    + eapply stored_mono; [|exact IH]. intros u (v & Hv & ->).
      exists v. rewrite in_app_iff. auto.
    + exists w. rewrite in_app_iff. simpl. auto.
Qed.

(** The node that ends an inserted word. *)
Definition terminal (n : TrieNode) (u : string) : Prop :=
  isEndOfWord n = true /\ word n = Some u.

Lemma traverseFrom_insertFrom_self chars u n :
  exists n', traverseFrom chars (insertFrom chars u n) = Some n' /\ terminal n' u.
Proof.
  revert n. induction chars as [|c chars IH]; intros n; simpl.
  - eexists. split; [done|]. by split.
  - rewrite lookup_insert_eq. apply IH.
Qed.

Lemma traverseFrom_insertFrom_keeps chars pre n s n0 :
  traverseFrom s n = Some n0 -> terminal n0 (pre +:+ s) ->
  exists n1, traverseFrom s (insertFrom chars (pre +:+ chars) n) = Some n1
             /\ terminal n1 (pre +:+ s).
Proof.
  revert pre n s. induction chars as [|c chars IH]; intros pre n s.
  - destruct s as [|d s]; simpl.
    + intros [= <-] _. eexists. split; [done|]. by split.
    + intros Hs Ht. eauto.
  - destruct s as [|d s]; simpl.
    + intros [= <-] Ht. eexists. split; [done|]. exact Ht.
    + destruct (children n !! d) as [child|] eqn:Hd; [|done].
      intros Hs Ht. destruct (decide (c = d)) as [->|Hne].
      * rewrite lookup_insert_eq, Hd.
        rewrite <- (append_snoc pre d chars), <- (append_snoc pre d s).
        apply IH; [done|]. by rewrite append_snoc.
      * rewrite lookup_insert_ne, Hd by done. eauto.
Qed.

(** Every inserted word ends at a terminal node that stores it. *)
Lemma fromWords_terminal ws w :
  In w ws ->
  exists n, traverse (fromWords ws) (Js.toUpperCase w) = Some n
            /\ terminal n (Js.toUpperCase w).
Proof.
  unfold fromWords, traverse. induction ws as [|v ws IH] using rev_ind; [done|].
  rewrite insertAll_snoc, in_app_iff. unfold insert. simpl.
  intros [Hw|[->|[]]].
  - destruct (IH Hw) as (n & Hn & Ht).
    apply (traverseFrom_insertFrom_keeps (Js.toUpperCase v) "" _ _ n); done.
  - apply traverseFrom_insertFrom_self.
Qed.

End TrieFacts.

Module TrieClaims.

(** What [startsWith] computes after any sequence of [insert] calls: it is
    true exactly when [p] is empty (the root always exists) or some inserted
    word, uppercased, has the uppercase form of [p] as a prefix, [p] itself
    being a full inserted word included. *)
Lemma startsWith_iff_prefix (ws : list string) (p : string) :
  Trie.startsWith (Trie.fromWords ws) p = true
  <-> p = "" \/ exists w, In w ws /\
        JsFacts.isPrefix (Js.toUpperCase p) (Js.toUpperCase w).
Proof.
  unfold Trie.startsWith.
  pose proof (TrieFacts.traverse_fromWords_is_Some ws (Js.toUpperCase p)) as H.
  assert (Js.toUpperCase p = "" <-> p = "") as Hp by (by destruct p).
  destruct (Trie.traverse (Trie.fromWords ws) (Js.toUpperCase p)) as [n|].
  - split; [intros _|done]. rewrite <- Hp. apply H. eauto.
  - split; [done|]. intros Hr. rewrite <- Hp in Hr.
    apply H in Hr as [n Hn]. done.
Qed.

(** C5, the code at the failing input.  On the trie without insertions
    [startsWith ""] answers [true], although no word was inserted that could
    start with the empty prefix: the method's docstring, "Check if any word
    in the Trie starts with the given prefix", and C5 both ask for [false]
    there.  With at least one word inserted, or a non-empty prefix, the
    answer for ASCII words and prefixes is the one C5 states. *)
Theorem startsWith_without_words :
  Trie.startsWith (Trie.fromWords []) "" = true
  /\ (~ exists w, In w [] /\
         JsFacts.isPrefix (Js.toUpperCase "") (Js.toUpperCase w))
  /\ (forall ws p,
        (forall w, In w ws -> JsFacts.isAscii w = true) ->
        JsFacts.isAscii p = true ->
        ws <> [] \/ p <> "" ->
        (Trie.startsWith (Trie.fromWords ws) p = true
         <-> exists w, In w ws /\
               JsFacts.isPrefix (Js.toUpperCase p) (Js.toUpperCase w))).
Proof.
  split; [reflexivity|]. split; [by intros (w & [] & _)|].
  intros ws p _ _ Hsome. rewrite startsWith_iff_prefix. split; [|by right].
  intros [->|?]; [|done]. destruct Hsome as [Hws|?]; [|done].
  destruct ws as [|w ws]; [done|]. exists w. split; [by left|].
  apply JsFacts.isPrefix_nil.
Qed.

End TrieClaims.

(** ** Grids *)

Module GridFacts.

(** The cell at [(r, c)], when both the row and the column exist. *)
Definition lookupCell (g : Grid) (r c : Z) : option string :=
  index g r ≫= fun line => index line c.

Definition inRange (rows cols : nat) (r c : Z) : Prop :=
  (0 <= r < Z.of_nat rows)%Z /\ (0 <= c < Z.of_nat cols)%Z.

(** A [rows] by [cols] matrix. *)
Definition wellShaped (rows cols : nat) (g : Grid) : Prop :=
  length g = rows /\ Forall (fun line => length line = cols) g.

(** [g'] keeps every letter of [g]: only empty cells may differ. *)
Definition extends (g g' : Grid) : Prop :=
  forall r c v, lookupCell g r c = Some v -> v <> "" -> lookupCell g' r c = Some v.

Lemma index_Some {A} (a : list A) i x :
  index a i = Some x <-> (0 <= i)%Z /\ a !! Z.to_nat i = Some x.
Proof.
  unfold index. destruct (Z.ltb_spec i 0).
  - split; [done|]. intros [? _]. lia.
  - split; [intros; split; [lia|done]|by intros [_ ?]].
Qed.

Lemma index_is_Some {A} (a : list A) i :
  (0 <= i < Z.of_nat (length a))%Z -> is_Some (index a i).
Proof.
  intros Hi. unfold index. destruct (Z.ltb_spec i 0); [lia|].
  apply lookup_lt_is_Some. lia.
Qed.

Lemma index_lt {A} (a : list A) i x :
  index a i = Some x -> (0 <= i < Z.of_nat (length a))%Z.
Proof.
  rewrite index_Some. intros [H0 Hx]. apply lookup_lt_Some in Hx. lia.
Qed.

Lemma wellShaped_row rows cols g r line :
  wellShaped rows cols g -> index g r = Some line -> length line = cols.
Proof.
  intros [_ Hall] Hr. apply index_Some in Hr as [_ Hr].
  rewrite Forall_forall in Hall. apply Hall.
  apply list_elem_of_lookup. eauto.
Qed.

Lemma readCell_is_Some rows cols g r c :
  wellShaped rows cols g -> (0 <= r < Z.of_nat rows)%Z ->
  exists cell, readCell g r c = Some cell /\ lookupCell g r c = cell.
Proof.
  intros [Hlen _] Hr. unfold readCell, lookupCell.
  destruct (index_is_Some g r) as [line Hline]; [lia|].
  rewrite Hline. simpl. eauto.
Qed.

Lemma readCell_lookupCell g r c cell :
  readCell g r c = Some cell -> lookupCell g r c = cell.
Proof.
  unfold readCell, lookupCell. destruct (index g r); simpl; congruence.
Qed.

Lemma lookupCell_inRange rows cols g r c v :
  wellShaped rows cols g -> lookupCell g r c = Some v -> inRange rows cols r c.
Proof.
  intros Hg. unfold lookupCell. destruct (index g r) as [line|] eqn:Hr; [|done].
  simpl. intros Hc. pose proof (wellShaped_row _ _ _ _ _ Hg Hr).
  apply index_lt in Hr, Hc. destruct Hg as [Hlen _]. unfold inRange. lia.
Qed.

Lemma lookupCell_is_Some rows cols g r c :
  wellShaped rows cols g -> inRange rows cols r c -> is_Some (lookupCell g r c).
Proof.
  intros Hg [Hr Hc]. unfold lookupCell.
  destruct (index_is_Some g r) as [line Hline]; [destruct Hg; lia|].
  rewrite Hline. simpl. apply index_is_Some.
  rewrite (wellShaped_row _ _ _ _ _ Hg Hline). lia.
Qed.

(** A write inside the grid succeeds and changes the one cell. *)
Lemma writeCell_spec rows cols g r c v :
  wellShaped rows cols g -> inRange rows cols r c ->
  exists g', writeCell g r c v = Some g'
    /\ wellShaped rows cols g'
    /\ lookupCell g' r c = Some v
    /\ forall r' c', (r', c') <> (r, c) -> lookupCell g' r' c' = lookupCell g r' c'.
Proof.
  intros Hg [Hr Hc]. unfold writeCell.
  destruct (index_is_Some g r) as [line Hline]; [destruct Hg; lia|].
  pose proof (wellShaped_row _ _ _ _ _ Hg Hline) as Hlen.
  rewrite Hline.
  destruct (Z.leb_spec 0 c); [|lia].
  destruct (Z.ltb_spec c (Z.of_nat (length line))); [|lia]. simpl.
  eexists. split; [done|]. destruct Hg as [Hrows Hall].
  split; [|split].
  - split; [by rewrite length_insert|].
    apply Forall_insert; [done|]. by rewrite length_insert.
  - unfold lookupCell, index.
    destruct (Z.ltb_spec r 0); [lia|].
    rewrite list_lookup_insert_eq by lia. simpl.
    destruct (Z.ltb_spec c 0); [lia|].
    apply list_lookup_insert_eq. lia.
  - intros r' c' Hne. unfold lookupCell, index.
    destruct (Z.ltb_spec r' 0); [done|].
    destruct (decide (r' = r)) as [->|Hr'].
    + rewrite list_lookup_insert_eq by lia. simpl.
      apply index_Some in Hline as [_ ->]. simpl.
      destruct (Z.ltb_spec c' 0); [done|].
      apply list_lookup_insert_ne. intros Heq. apply Hne. f_equal. lia.
    + rewrite list_lookup_insert_ne by lia. done.
Qed.

Lemma extends_refl g : extends g g.
Proof. by intros r c v. Qed.

Lemma extends_trans g1 g2 g3 : extends g1 g2 -> extends g2 g3 -> extends g1 g3.
Proof. intros H12 H23 r c v Hv Hne. eauto. Qed.

End GridFacts.

(** ** The generator *)

Module GeneratorFacts.
Import Generator GridFacts.

Lemma floorRandom_lt tape k n : 0 < n -> Random.floorRandom tape k n < n.
Proof.
  destruct n as [|n]; [lia|]. intros _. unfold Random.floorRandom.
  apply Nat.mod_upper_bound. lia.
Qed.

Lemma floorRandom_0 tape k : Random.floorRandom tape k 0 = 0.
Proof. reflexivity. Qed.

Lemma get_is_Some s i : i < String.length s -> is_Some (String.get i s).
Proof.
  revert i. induction s as [|c s IH]; intros i Hi; simpl in *; [lia|].
  destruct i as [|i]; [eauto|]. apply IH. lia.
Qed.

Lemma get_lt s i ch : String.get i s = Some ch -> i < String.length s.
Proof.
  revert i. induction s as [|c s IH]; intros i; simpl; [done|].
  destruct i as [|i]; [lia|]. intros H. apply IH in H. lia.
Qed.

Lemma charAt_Some s i v :
  Js.charAt s i = Some v <-> exists ch, String.get i s = Some ch /\ v = String ch "".
Proof.
  unfold Js.charAt. destruct (String.get i s) as [ch|]; [|naive_solver].
  split; [intros [= <-]; eauto|]. by intros (ch' & [= <-] & ->).
Qed.

Lemma charAt_is_Some s i : i < String.length s -> is_Some (Js.charAt s i).
Proof.
  intros Hi. destruct (get_is_Some s i Hi) as [ch Hch].
  unfold Js.charAt. rewrite Hch. eauto.
Qed.

Lemma charAt_nonempty s i : Js.charAt s i <> Some "".
Proof. unfold Js.charAt. by destruct (String.get i s). Qed.

(** The cell of index [j] on the line from [p] along [d]. *)
Definition cellOn (d : Direction) (p : Point) (j : Z) : Z * Z :=
  offset d (row p) (col p) j.

Definition pointOf (rc : Z * Z) : Point := mkPoint rc.1 rc.2.

Definition inRangeP (rows cols : nat) (rc : Z * Z) : Prop :=
  inRange rows cols rc.1 rc.2.

Definition lookupCellP (g : Grid) (rc : Z * Z) : option string :=
  lookupCell g rc.1 rc.2.

Lemma offset_inj d r c i j : offset d r c i = offset d r c j -> i = j.
Proof. destruct d; simpl; intros [=]; lia. Qed.

Lemma offset_between rows cols d r c n i :
  inRange rows cols r c -> inRangeP rows cols (offset d r c n) ->
  (0 <= i <= n)%Z -> inRangeP rows cols (offset d r c i).
Proof. unfold inRangeP, inRange. destruct d; simpl; lia. Qed.

(** Only the cells of [w] may differ between [g] and [g']. *)
Definition changes (g g' : Grid) (w : string) : Prop :=
  forall r c, lookupCell g' r c = lookupCell g r c
    \/ exists j, j < String.length w /\ lookupCell g' r c = Js.charAt w j.

(** The collision loop answers [true] only when every cell it reads is free
    or holds the letter wanted there. *)
Lemma checkCollisions_true g w r c d todo : forall i,
  checkCollisions g w r c d i todo = Some true ->
  forall j, i <= j < i + todo ->
    lookupCellP g (offset d r c (Z.of_nat j)) = Some ""
    \/ lookupCellP g (offset d r c (Z.of_nat j)) = Js.charAt w j.
Proof.
  induction todo as [|todo IH]; intros i Hc j Hj; [lia|].
  simpl in Hc. destruct (offset d r c (Z.of_nat i)) as [r' c'] eqn:Hoff.
  destruct (readCell g r' c') as [cell|] eqn:Hcell; [|done]. simpl in Hc.
  apply readCell_lookupCell in Hcell.
  destruct (decide (j = i)) as [->|Hne].
  - unfold lookupCellP. rewrite Hoff. simpl. rewrite Hcell.
    destruct (bool_decide_reflect (cell <> Some "")) as [H1|H1];
      [|left; by destruct (decide (cell = Some ""))].
    destruct (bool_decide_reflect (cell <> Js.charAt w i)) as [H2|H2];
      [done|right; by destruct (decide (cell = Js.charAt w i))].
  - destruct (bool_decide (cell <> Some "") && bool_decide (cell <> Js.charAt w i));
      [done|]. apply (IH (S i)); [done|lia].
Qed.

Lemma checkCollisions_is_Some rows cols g w r c d todo : forall i,
  wellShaped rows cols g ->
  (forall j, i <= j < i + todo ->
     (0 <= (offset d r c (Z.of_nat j)).1 < Z.of_nat rows)%Z) ->
  is_Some (checkCollisions g w r c d i todo).
Proof.
  induction todo as [|todo IH]; intros i Hg Hrows; simpl; [eauto|].
  specialize (Hrows i) as Hi.
  destruct (offset d r c (Z.of_nat i)) as [r' c'] eqn:Hoff. simpl in Hi.
  destruct (readCell_is_Some rows cols g r' c' Hg) as (cell & -> & _); [lia|].
  simpl. destruct (_ && _); [eauto|]. apply IH; [done|].
  intros j Hj. apply Hrows. lia.
Qed.

Lemma canPlaceWord_true rows cols g w r c d :
  canPlaceWord rows cols g w r c d = Some true ->
  inRangeP rows cols (offset d r c (Z.of_nat (String.length w) - 1))
  /\ forall j, j < String.length w ->
       lookupCellP g (offset d r c (Z.of_nat j)) = Some ""
       \/ lookupCellP g (offset d r c (Z.of_nat j)) = Js.charAt w j.
Proof.
  unfold canPlaceWord.
  destruct (offset d r c (Z.of_nat (String.length w) - 1)) as [er ec] eqn:Hoff.
  destruct (Z.ltb_spec er 0); [done|].
  destruct (Z.geb_spec er (Z.of_nat rows)); [done|].
  destruct (Z.ltb_spec ec 0); [done|].
  destruct (Z.geb_spec ec (Z.of_nat cols)); [done|]. simpl.
  intros Hc. split; [unfold inRangeP, inRange; simpl; lia|].
  intros j Hj. eapply checkCollisions_true; [done|lia].
Qed.

(** The start cells that placeWord draws. *)
Definition drawn (n : nat) (z : Z) : Prop :=
  (0 <= z)%Z /\ (n = 0 \/ (z < Z.of_nat n)%Z).

Lemma drawn_floorRandom tape k n : drawn n (Z.of_nat (Random.floorRandom tape k n)).
Proof.
  split; [lia|]. destruct n as [|n]; [by left|right].
  pose proof (floorRandom_lt tape k (S n)). lia.
Qed.

(** canPlaceWord never reads a row that does not exist. *)
Lemma canPlaceWord_is_Some rows cols g w r c d :
  wellShaped rows cols g -> drawn rows r -> drawn cols c ->
  is_Some (canPlaceWord rows cols g w r c d).
Proof.
  intros Hg [Hr0 Hr] [Hc0 Hc]. unfold canPlaceWord.
  destruct (offset d r c (Z.of_nat (String.length w) - 1)) as [er ec] eqn:Hoff.
  destruct (Z.ltb_spec er 0); [eauto|].
  destruct (Z.geb_spec er (Z.of_nat rows)); [eauto|].
  destruct (Z.ltb_spec ec 0); [eauto|].
  destruct (Z.geb_spec ec (Z.of_nat cols)); [eauto|]. simpl.
  eapply checkCollisions_is_Some; [done|]. intros j Hj.
  assert (inRangeP rows cols (offset d r c (Z.of_nat j))) as [Hin _]; [|done].
  eapply (offset_between rows cols d r c (Z.of_nat (String.length w) - 1)).
  - unfold inRange. lia.
  - rewrite Hoff. unfold inRangeP, inRange. simpl. lia.
  - lia.
Qed.

(** insertWord along a line inside the grid writes the letters of the word
    on the line and nothing else. *)
Lemma writeLetters_spec rows cols w r c d todo : forall i g endPoint,
  wellShaped rows cols g -> i + todo = String.length w ->
  (forall j, i <= j < String.length w ->
     inRangeP rows cols (offset d r c (Z.of_nat j))) ->
  exists g' endPoint',
    writeLetters g w r c d i todo endPoint = Some (g', endPoint')
    /\ wellShaped rows cols g'
    /\ (forall j, i <= j < String.length w ->
          lookupCellP g' (offset d r c (Z.of_nat j)) = Js.charAt w j)
    /\ (forall r' c',
          (forall j, i <= j < String.length w ->
             offset d r c (Z.of_nat j) <> (r', c')) ->
          lookupCell g' r' c' = lookupCell g r' c')
    /\ endPoint' =
         (if (todo =? 0)%nat then endPoint
          else pointOf (offset d r c (Z.of_nat (String.length w) - 1))).
Proof.
  induction todo as [|todo IH]; intros i g endPoint Hg Hlen Hin; simpl.
  - exists g, endPoint. split; [done|]. split; [done|].
    split; [intros j Hj; lia|]. by split.
  - destruct (offset d r c (Z.of_nat i)) as [r1 c1] eqn:Hoff.
    destruct (charAt_is_Some w i) as [letter Hletter]; [lia|].
    rewrite Hletter. simpl.
    destruct (writeCell_spec rows cols g r1 c1 letter Hg)
      as (g1 & -> & Hg1 & Hnew & Hold).
    { specialize (Hin i). rewrite Hoff in Hin. apply Hin. lia. }
    simpl.
    edestruct (IH (S i) g1) as (g' & endPoint' & -> & Hg' & Hline & Hrest & Hend);
      [done|lia|intros j Hj; apply Hin; lia|].
    exists g', endPoint'. split; [done|]. split; [done|]. split; [|split].
    + intros j Hj. destruct (decide (j = i)) as [->|Hne]; [|apply Hline; lia].
      unfold lookupCellP. rewrite Hoff. simpl. rewrite Hrest, Hnew; [done|].
      intros j Hj' Heq. rewrite <- Hoff in Heq. apply offset_inj in Heq. lia.
    + intros r' c' Hoffline. rewrite Hrest by (intros j Hj; apply Hoffline; lia).
      apply Hold. rewrite <- Hoff. intros Heq. by apply (Hoffline i); [lia|].
    + rewrite Hend. destruct todo as [|todo]; simpl; [|done].
      destruct (Z.eqb_spec (Z.of_nat i) (Z.of_nat (String.length w) - 1)); [|lia].
      unfold pointOf. replace (Z.of_nat (String.length w) - 1)%Z with (Z.of_nat i) by lia.
      by rewrite Hoff.
Qed.


(** [L] lies on the line of direction [d] in [g]: its cells are inside the
    grid and hold the letters of its word, and its end is the last cell (the
    start itself for the empty word). *)
Definition placedAt (rows cols : nat) (g : Grid) (L : WordLocation)
    (d : Direction) : Prop :=
  let len := String.length (word L) in
  inRange rows cols (row (start L)) (col (start L))
  /\ inRangeP rows cols (cellOn d (start L) (Z.of_nat len - 1))
  /\ (forall j, j < len ->
        inRangeP rows cols (cellOn d (start L) (Z.of_nat j))
        /\ lookupCellP g (cellOn d (start L) (Z.of_nat j)) = Js.charAt (word L) j)
  /\ end_ L = (if (len =? 0)%nat then start L
               else pointOf (cellOn d (start L) (Z.of_nat len - 1))).

Lemma placedAt_extends rows cols g g' L d :
  placedAt rows cols g L d -> extends g g' -> placedAt rows cols g' L d.
Proof.
  intros (Hs & He & Hcells & Hend) Hext. split; [done|]. split; [done|].
  split; [|done]. intros j Hj. destruct (Hcells j Hj) as [Hin Hcell].
  split; [done|]. destruct (charAt_is_Some (word L) j Hj) as [v Hv].
  rewrite Hv in *. apply Hext; [done|]. intros ->.
  by apply (charAt_nonempty (word L) j).
Qed.

Lemma changes_refl g w : changes g g w.
Proof. intros r c. by left. Qed.

(** One call of placeWord: the grid keeps its shape and its letters, and a
    returned location lies on a line of the new grid. *)
Lemma placeAttempts_spec tape rows cols w todo : forall g k,
  wellShaped rows cols g ->
  exists g' placed k',
    placeAttempts tape rows cols g w todo k = Some (g', placed, k')
    /\ wellShaped rows cols g' /\ extends g g' /\ changes g g' w
    /\ match placed with
       | Some L => word L = w /\ exists d, In d DIRECTIONS /\ placedAt rows cols g' L d
       | None => g' = g
       end.
Proof.
  induction todo as [|todo IH]; intros g k Hg; cbn [placeAttempts].
  - exists g, None, k. split; [done|]. split; [done|].
    split; [apply extends_refl|]. split; [apply changes_refl|done].
  - assert (Random.floorRandom tape k 4 < 4) as Hd by (apply floorRandom_lt; lia).
    destruct (lookup_lt_is_Some_2 DIRECTIONS (Random.floorRandom tape k 4))
      as [d Hdir]; [done|].
    change (length DIRECTIONS) with 4. rewrite Hdir. simpl.
    set (r := Z.of_nat (Random.floorRandom tape (k + 1) rows)).
    set (c := Z.of_nat (Random.floorRandom tape (k + 2) cols)).
    pose proof (drawn_floorRandom tape (k + 1) rows) as Hr.
    pose proof (drawn_floorRandom tape (k + 2) cols) as Hc.
    fold r in Hr. fold c in Hc.
    destruct (canPlaceWord_is_Some rows cols g w r c d Hg Hr Hc) as [ok Hok].
    rewrite Hok. simpl. destruct ok; [|apply IH; done].
    apply canPlaceWord_true in Hok as [Hend Hfree].
    assert (inRange rows cols r c) as Hstart.
    { destruct Hend as [He1 He2], Hr as [? [->|?]], Hc as [? [->|?]];
        unfold inRange; simpl in *; lia. }
    assert (forall j, j < String.length w ->
              inRangeP rows cols (offset d r c (Z.of_nat j))) as Hin.
    { intros j Hj.
      apply (offset_between rows cols d r c (Z.of_nat (String.length w) - 1));
        [done|done|lia]. }
    unfold insertWord.
    destruct (writeLetters_spec rows cols w r c d (String.length w) 0 g
                (mkPoint r c) Hg)
      as (g' & endPoint & -> & Hg' & Hline & Hrest & Hendp);
      [done|intros j Hj; apply Hin; lia|].
    simpl. eexists g', _, _. split; [done|]. split; [done|].
    assert (forall r' c',
              (exists j, j < String.length w /\ offset d r c (Z.of_nat j) = (r', c'))
              \/ lookupCell g' r' c' = lookupCell g r' c') as Hcases.
    { intros r' c'.
      destruct (decide (Exists (fun j => offset d r c (Z.of_nat j) = (r', c'))
                          (seq 0 (String.length w)))) as [Hex|Hnex].
      - left. apply Exists_exists in Hex as (j & Hj & Hoff).
        apply elem_of_seq in Hj. exists j. split; [lia|done].
      - right. apply Hrest. intros j Hj Hoff. apply Hnex, Exists_exists.
        exists j. split; [apply elem_of_seq; lia|done]. }
    split; [|split; [|split]].
    + intros r' c' v Hv Hne. destruct (Hcases r' c') as [(j & Hj & Hoff)|Hsame];
        [|by rewrite Hsame].
      specialize (Hline j ltac:(lia)). specialize (Hfree j Hj).
      unfold lookupCellP in *. rewrite Hoff in *. simpl in *.
      rewrite Hline. destruct Hfree as [Hf|Hf]; congruence.
    + intros r' c'. destruct (Hcases r' c') as [(j & Hj & Hoff)|Hsame];
        [|by left].
      right. exists j. split; [done|]. specialize (Hline j ltac:(lia)).
      unfold lookupCellP in Hline. by rewrite Hoff in Hline.
    + done.
    + exists d. split; [destruct d; simpl; tauto|].
      unfold placedAt, cellOn. simpl. split; [done|]. split; [done|].
      split; [intros j Hj; split; [by apply Hin|apply Hline; lia]|].
      rewrite Hendp. done.
Qed.


(** A location that lies on a line of one of the four directions. *)
Definition placedIn (rows cols : nat) (g : Grid) (L : WordLocation) : Prop :=
  exists d, In d DIRECTIONS /\ placedAt rows cols g L d.

(** Every cell satisfies [P]. *)
Definition cellsIn (P : string -> Prop) (g : Grid) : Prop :=
  forall r c v, lookupCell g r c = Some v -> P v.

Lemma cellsIn_changes (P : string -> Prop) g g' w :
  cellsIn P g -> changes g g' w ->
  (forall j v, Js.charAt w j = Some v -> P v) -> cellsIn P g'.
Proof.
  intros Hg Hch Hw r c v Hv. destruct (Hch r c) as [Hsame|(j & _ & Hj)].
  - apply (Hg r c). congruence.
  - apply (Hw j). congruence.
Qed.

(** The placement loop of generate. *)
Lemma placeAll_spec tape rows cols sortedWords : forall g placedWords k,
  wellShaped rows cols g ->
  exists g' placed' k',
    placeAll tape rows cols g placedWords sortedWords k = Some (g', placed', k')
    /\ wellShaped rows cols g' /\ extends g g'
    /\ (forall P : string -> Prop, cellsIn P g ->
          (forall w j v, In w sortedWords ->
             Js.charAt (Js.toUpperCase w) j = Some v -> P v) ->
          cellsIn P g')
    /\ (Forall (placedIn rows cols g) placedWords ->
        Forall (placedIn rows cols g') placed')
    /\ exists sub, sublist sub sortedWords
         /\ map word placed' = map word placedWords ++ map Js.toUpperCase sub.
Proof.
  induction sortedWords as [|w rest IH]; intros g placedWords k Hg;
    cbn [placeAll].
  - exists g, placedWords, k. split; [done|]. split; [done|].
    split; [apply extends_refl|]. split; [done|]. split; [done|].
    exists []. split; [done|]. simpl. by rewrite app_nil_r.
  - unfold placeWord.
    destruct (placeAttempts_spec tape rows cols (Js.toUpperCase w) 100 g k Hg)
      as (g1 & placed & k1 & -> & Hg1 & Hext1 & Hch1 & Hplaced).
    simpl.
    assert (forall P : string -> Prop, cellsIn P g ->
              (forall w' j v, In w' (w :: rest) ->
                 Js.charAt (Js.toUpperCase w') j = Some v -> P v) ->
              cellsIn P g1) as Hcells1.
    { intros P HP Hw. eapply cellsIn_changes; [done|done|].
      intros j v. apply Hw. by left. }
    destruct placed as [L|].
    + destruct Hplaced as [HwL HL].
      destruct (IH g1 (placedWords ++ [L]) k1 Hg1)
        as (g' & placed' & k' & -> & Hg' & Hext & Hcells & Hall & sub & Hsub & Hmap).
      exists g', placed', k'. split; [done|]. split; [done|].
      split; [by eapply extends_trans|]. split; [|split].
      * intros P HP Hw. apply Hcells; [by apply Hcells1|].
        intros w' j v Hin. apply Hw. by right.
      * intros Hold. apply Hall. apply Forall_app. split.
        -- eapply Forall_impl; [exact Hold|]. intros L' (d & Hd & HL').
           exists d. split; [done|]. by eapply placedAt_extends.
        -- by apply Forall_singleton.
      * exists (w :: sub). split; [by apply sublist_skip|].
        rewrite Hmap, map_app. simpl. rewrite HwL. by rewrite <- app_assoc.
    + subst g1.
      destruct (IH g placedWords k1 Hg)
        as (g' & placed' & k' & -> & Hg' & Hext & Hcells & Hall & sub & Hsub & Hmap).
      exists g', placed', k'. split; [done|]. split; [done|]. split; [done|].
      split; [|split; [done|]].
      * intros P HP Hw. apply Hcells; [done|].
        intros w' j v Hin. apply Hw. by right.
      * exists sub. split; [by apply sublist_cons|done].
Qed.

Definition upperLetter (ch : ascii) : Prop :=
  65 <= nat_of_ascii ch <= 90.

Lemma letters_charAt i :
  i < 26 -> exists ch, Js.charAt letters i = Some (String ch "") /\ upperLetter ch.
Proof.
  intros Hi. unfold upperLetter.
  do 26 (destruct i as [|i]; [eexists; split; [reflexivity|vm_compute; lia]|]). lia.
Qed.

(** [g'] is [g] with some empty cells replaced by noise letters. *)
Definition fills (g g' : Grid) : Prop :=
  forall r c, lookupCell g' r c = lookupCell g r c
    \/ (lookupCell g r c = Some ""
        /\ exists ch, upperLetter ch /\ lookupCell g' r c = Some (String ch "")).

Lemma fills_refl g : fills g g.
Proof. intros r c. by left. Qed.

Lemma fills_trans g1 g2 g3 : fills g1 g2 -> fills g2 g3 -> fills g1 g3.
Proof.
  intros H12 H23 r c. destruct (H23 r c) as [H|(He & ch & Hch & H)].
  - rewrite H. apply H12.
  - destruct (H12 r c) as [H'|(_ & ch' & _ & H')]; [|congruence].
    right. split; [congruence|eauto].
Qed.

Lemma fills_nonempty g g' r c :
  fills g g' -> lookupCell g r c <> Some "" -> lookupCell g' r c <> Some "".
Proof. intros H Hne. destruct (H r c) as [->|(_ & ch & _ & ->)]; done. Qed.

Lemma fillRow_spec tape rows cols r todo : forall c g k,
  wellShaped rows cols g -> (0 <= r < Z.of_nat rows)%Z -> c + todo = cols ->
  exists g' k',
    fillRow tape g r c todo k = Some (g', k')
    /\ wellShaped rows cols g' /\ fills g g'
    /\ forall c', c <= c' < cols -> lookupCell g' r (Z.of_nat c') <> Some "".
Proof.
  induction todo as [|todo IH]; intros c g k Hg Hr Hc; cbn [fillRow].
  - exists g, k. split; [done|]. split; [done|]. split; [apply fills_refl|].
    intros c' Hc'. lia.
  - destruct (readCell_is_Some rows cols g r (Z.of_nat c) Hg Hr)
      as (cell & -> & Hcell).
    cbn [mbind option_bind]. destruct (bool_decide_reflect (cell = Some "")) as [->|Hne].
    + destruct (letters_charAt (Random.floorRandom tape k (String.length letters)))
        as (ch & -> & Hch); [apply floorRandom_lt; simpl; lia|].
      cbn [mbind option_bind].
      destruct (writeCell_spec rows cols g r (Z.of_nat c) (String ch "") Hg)
        as (g1 & -> & Hg1 & Hnew & Hold); [unfold inRange; lia|].
      cbn [mbind option_bind].
      destruct (IH (S c) g1 (k + 1) Hg1 Hr) as (g' & k' & -> & Hg' & Hf & Hrow);
        [lia|].
      assert (fills g g1) as Hf1.
      { intros r' c'. destruct (decide ((r', c') = (r, Z.of_nat c))) as [[= -> ->]|Hne].
        - right. split; [done|eauto].
        - left. by apply Hold. }
      exists g', k'. split; [done|]. split; [done|].
      split; [by eapply fills_trans|].
      intros c' Hc'. destruct (decide (c' = c)) as [->|Hne]; [|apply Hrow; lia].
      eapply fills_nonempty; [done|]. by rewrite Hnew.
    + destruct (IH (S c) g k Hg Hr) as (g' & k' & -> & Hg' & Hf & Hrow); [lia|].
      exists g', k'. split; [done|]. split; [done|]. split; [done|].
      intros c' Hc'. destruct (decide (c' = c)) as [->|Hne']; [|apply Hrow; lia].
      eapply fills_nonempty; [done|]. by rewrite Hcell.
Qed.

Lemma fillRows_spec tape rows cols todo : forall r g k,
  wellShaped rows cols g -> r + todo = rows ->
  exists g' k',
    fillRows tape cols g r todo k = Some (g', k')
    /\ wellShaped rows cols g' /\ fills g g'
    /\ forall r' c', r <= r' < rows -> c' < cols ->
         lookupCell g' (Z.of_nat r') (Z.of_nat c') <> Some "".
Proof.
  induction todo as [|todo IH]; intros r g k Hg Hr; cbn [fillRows].
  - exists g, k. split; [done|]. split; [done|]. split; [apply fills_refl|].
    intros r' c' Hr'. lia.
  - destruct (fillRow_spec tape rows cols (Z.of_nat r) cols 0 g k Hg)
      as (g1 & k1 & -> & Hg1 & Hf1 & Hrow); [lia|lia|].
    simpl.
    destruct (IH (S r) g1 k1 Hg1) as (g' & k' & -> & Hg' & Hf & Hrows); [lia|].
    exists g', k'. split; [done|]. split; [done|].
    split; [by eapply fills_trans|].
    intros r' c' Hr' Hc'. destruct (decide (r' = r)) as [->|Hne];
      [|apply Hrows; lia].
    eapply fills_nonempty; [done|]. apply Hrow. lia.
Qed.


Lemma fills_extends g g' : fills g g' -> extends g g'.
Proof.
  intros Hf r c v Hv Hne. destruct (Hf r c) as [->|[He _]]; [done|congruence].
Qed.

Lemma unique_elem ws : forall seen w,
  w ∈ unique seen ws <-> w ∈ ws /\ w ∉ seen.
Proof.
  induction ws as [|v ws IH]; intros seen w; simpl.
  - rewrite !elem_of_nil. tauto.
  - destruct (bool_decide_reflect (v ∈ seen)) as [Hv|Hv].
    + rewrite IH, elem_of_cons. destruct (decide (w = v)) as [->|]; naive_solver.
    + rewrite !elem_of_cons, IH, not_elem_of_union, not_elem_of_singleton.
      destruct (decide (w = v)) as [->|]; naive_solver.
Qed.

Lemma unique_NoDup ws : forall seen, NoDup (unique seen ws).
Proof.
  induction ws as [|v ws IH]; intros seen; simpl; [constructor|].
  destruct (bool_decide (v ∈ seen)); [apply IH|].
  constructor; [|apply IH]. rewrite unique_elem. set_solver.
Qed.

Lemma insertByLength_Permutation w l : insertByLength w l ≡ₚ w :: l.
Proof.
  induction l as [|v l IH]; simpl; [done|].
  destruct (String.length v <=? String.length w)%nat; [done|].
  rewrite IH. apply Permutation_swap.
Qed.

Lemma sortByLength_Permutation l : sortByLength l ≡ₚ l.
Proof.
  induction l as [|w l IH]; simpl; [done|].
  by rewrite insertByLength_Permutation, IH.
Qed.

(** The words attempted are the distinct input strings. *)
Lemma attempted_NoDup ws : NoDup (sortByLength (unique ∅ ws)).
Proof. rewrite sortByLength_Permutation. apply unique_NoDup. Qed.

Lemma attempted_In ws w : In w (sortByLength (unique ∅ ws)) <-> In w ws.
Proof.
  rewrite <- !list_elem_of_In, sortByLength_Permutation, unique_elem. set_solver.
Qed.

Lemma emptyGrid_wellShaped rows cols : wellShaped rows cols (emptyGrid rows cols).
Proof.
  unfold emptyGrid. split; [apply length_replicate|].
  apply Forall_replicate, length_replicate.
Qed.

Lemma emptyGrid_lookupCell rows cols r c v :
  lookupCell (emptyGrid rows cols) r c = Some v -> v = "".
Proof.
  unfold lookupCell, emptyGrid.
  destruct (index (replicate rows (replicate cols "")) r) as [line|] eqn:Hr;
    [|done].
  apply index_Some in Hr as [_ Hr]. apply lookup_replicate in Hr as [-> _].
  simpl. intros Hc. apply index_Some in Hc as [_ Hc].
  by apply lookup_replicate in Hc as [-> _].
Qed.

(** What generate returns, for every tape, size and word list. *)
Lemma generate_spec tape rows cols ws k :
  exists gs k',
    generate tape rows cols ws k = Some (gs, k')
    /\ wellShaped rows cols (grid gs)
    /\ Forall (placedIn rows cols (grid gs)) (words gs)
    /\ (exists sub, sublist sub (sortByLength (unique ∅ ws))
          /\ map word (words gs) = map Js.toUpperCase sub)
    /\ (forall r c, inRange rows cols r c ->
          exists ch, lookupCell (grid gs) r c = Some (String ch "")
            /\ (upperLetter ch
                \/ exists w j, In w ws
                     /\ String.get j (Js.toUpperCase w) = Some ch)).
Proof.
  unfold generate.
  destruct (placeAll_spec tape rows cols (sortByLength (unique ∅ ws))
              (emptyGrid rows cols) [] k (emptyGrid_wellShaped rows cols))
    as (g1 & placed & k1 & -> & Hg1 & _ & Hcells & Hall & sub & Hsub & Hmap).
  cbn [mbind option_bind]. unfold fillEmptyCells.
  destruct (fillRows_spec tape rows cols rows 0 g1 k1 Hg1)
    as (g2 & k2 & -> & Hg2 & Hf & Hfull); [lia|].
  cbn [mbind option_bind]. eexists _, _. split; [done|]. simpl.
  split; [done|]. split; [|split].
  - eapply Forall_impl; [by apply Hall|]. intros L (d & Hd & HL).
    exists d. split; [done|]. eapply placedAt_extends; [done|].
    by apply fills_extends.
  - exists sub. done.
  - intros r c Hin.
    destruct (lookupCell_is_Some rows cols g2 r c Hg2 Hin) as [v Hv].
    assert (v <> "") as Hne.
    { intros ->. destruct Hin as [Hr Hc].
      apply (Hfull (Z.to_nat r) (Z.to_nat c)); [lia|lia|].
      by rewrite !Z2Nat.id by lia. }
    destruct (Hf r c) as [Hsame|(_ & ch & Hch & Hnew)];
      [|exists ch; split; [done|by left]].
    rewrite Hv in Hsame. symmetry in Hsame.
    pose (P := fun v => v = "" \/ exists w j,
                 In w ws /\ Js.charAt (Js.toUpperCase w) j = Some v).
    assert (P v) as [->|(w & j & Hw & Hj)]; [|done|].
    { apply (Hcells P) with r c; [| |done].
      - intros r' c' v' Hv'. left. by eapply emptyGrid_lookupCell.
      - intros w j v' Hw Hj. right. exists w, j. split; [|done].
        by apply attempted_In. }
    apply charAt_Some in Hj as (ch & Hch & ->).
    exists ch. split; [done|]. right. eauto.
Qed.



End GeneratorFacts.

Module LineFacts.
Import Generator GridFacts GeneratorFacts.
(** *** Reading a placed word back with the game's line helper *)

Lemma lookupCell_readCell g r c v :
  lookupCell g r c = Some v -> readCell g r c = Some (Some v).
Proof.
  unfold lookupCell, readCell. destruct (index g r); simpl; [|done].
  by intros ->.
Qed.

Lemma mapM_map {A B} (f : A -> option B) (h : A -> B) (l : list A) :
  (forall x, In x l -> f x = Some (h x)) -> mapM f l = Some (map h l).
Proof.
  induction l as [|x l IH]; intros Hf; [done|].
  cbn [mapM map]. rewrite (Hf x) by (by left). cbn [mbind option_bind].
  rewrite IH by (intros y Hy; apply Hf; by right). done.
Qed.

Lemma charAt_cons_0 c s : Js.charAt (String c s) 0 = Some (String c "").
Proof. reflexivity. Qed.

Lemma charAt_cons_S c s j : Js.charAt (String c s) (S j) = Js.charAt s j.
Proof. reflexivity. Qed.

Lemma join_charAt w :
  Game.join (map (Js.charAt w) (seq 0 (String.length w))) = w.
Proof.
  induction w as [|c w IH]; [done|].
  cbn [String.length seq map]. rewrite charAt_cons_0. cbn [Game.join].
  rewrite <- seq_shift, map_map.
  rewrite (map_ext _ (Js.charAt w)) by (intros j; apply charAt_cons_S).
  by rewrite IH.
Qed.

Lemma offset_step d r c i :
  ((offset d r c i).1 + (offset d r c 1).1 - r,
   (offset d r c i).2 + (offset d r c 1).2 - c)%Z = offset d r c (i + 1).
Proof. destruct d; simpl; f_equal; lia. Qed.

(** The loop of getPointsOnLine walks the cells of a line in order. *)
Lemma walk_offset d r c n m : forall i todo,
  i + m = n -> m < todo ->
  Game.walk (pointOf (offset d r c (Z.of_nat n)))
    ((offset d r c 1).1 - r)%Z ((offset d r c 1).2 - c)%Z
    (offset d r c (Z.of_nat i)).1 (offset d r c (Z.of_nat i)).2 todo
  = map (fun j => pointOf (offset d r c (Z.of_nat j))) (seq i (S m)).
Proof.
  induction m as [|m IH]; intros i todo Hi Hm;
    (destruct todo as [|todo]; [lia|]); cbn [Game.walk].
  - replace i with n by lia. unfold pointOf at 2. cbn [row col seq map].
    by rewrite !Z.eqb_refl.
  - change (seq i (S (S m))) with (i :: seq (S i) (S m)). rewrite map_cons.
    f_equal. destruct (_ && _) eqn:Heq.
    + apply andb_true_iff in Heq as [H1 H2].
      apply Z.eqb_eq in H1, H2. simpl in H1, H2.
      assert (offset d r c (Z.of_nat i) = offset d r c (Z.of_nat n)) as Hoff
        by (by apply injective_projections).
      apply offset_inj in Hoff. lia.
    + specialize (IH (S i) todo ltac:(lia) ltac:(lia)).
      rewrite <- IH. replace (Z.of_nat (S i)) with (Z.of_nat i + 1)%Z by lia.
      rewrite <- offset_step. simpl. f_equal; lia.
Qed.

Lemma offset_0 d r c : offset d r c 0 = (r, c).
Proof. destruct d; simpl; f_equal; lia. Qed.

Lemma offset_sign d r c n :
  (1 <= n)%Z ->
  Z.sgn ((offset d r c n).1 - r) = ((offset d r c 1).1 - r)%Z
  /\ Z.sgn ((offset d r c n).2 - c) = ((offset d r c 1).2 - c)%Z
  /\ ((offset d r c 1).1 - r <> 0 \/ (offset d r c 1).2 - c <> 0)%Z
  /\ ((offset d r c 1).1 - r <> 0 -> (offset d r c 1).2 - c <> 0 ->
      Z.abs ((offset d r c n).1 - r) = Z.abs ((offset d r c n).2 - c))%Z.
Proof. intros Hn. destruct d; simpl; lia. Qed.

Lemma getPointsOnLine_offset d r c len :
  1 <= len <= 101 ->
  Game.getPointsOnLine (mkPoint r c) (pointOf (offset d r c (Z.of_nat len - 1)))
  = Some (map (fun j => pointOf (offset d r c (Z.of_nat j))) (seq 0 len)).
Proof.
  intros Hlen. unfold Game.getPointsOnLine, Js.sign.
  destruct (decide (len = 1)) as [->|Hne].
  - change (Z.of_nat 1 - 1)%Z with 0%Z. rewrite offset_0.
    unfold pointOf. cbn [row col fst snd]. rewrite !Z.sub_diag.
    cbn [seq map]. change (Z.of_nat 0) with 0%Z. rewrite offset_0.
    change (Z.sgn 0) with 0%Z. rewrite Z.eqb_refl. reflexivity.
  - pose proof (walk_offset d r c (len - 1) (len - 1) 0 101 ltac:(lia) ltac:(lia))
      as Hwalk.
    replace (S (len - 1)) with len in Hwalk by lia.
    replace (Z.of_nat (len - 1)) with (Z.of_nat len - 1)%Z in Hwalk by lia.
    change (Z.of_nat 0) with 0%Z in Hwalk. rewrite offset_0 in Hwalk.
    cbn [fst snd] in Hwalk. rewrite <- Hwalk. clear Hwalk.
    destruct (offset_sign d r c (Z.of_nat len - 1) ltac:(lia))
      as (Hs1 & Hs2 & Hnz & Habs).
    unfold pointOf. cbn [row col]. rewrite !Hs1, !Hs2.
    set (dr := ((offset d r c 1).1 - r)%Z) in *.
    set (dc := ((offset d r c 1).2 - c)%Z) in *.
    destruct (Z.eqb_spec dr 0) as [Hdr|Hdr], (Z.eqb_spec dc 0) as [Hdc|Hdc];
      cbn [andb negb]; [lia|reflexivity|reflexivity|].
    rewrite (proj2 (Z.eqb_eq _ _) (Habs Hdr Hdc)). reflexivity.
Qed.

(** A placed word of at most 101 letters is what getSelectedWord reads
    between its start and its end. *)
Lemma getSelectedWord_placedAt rows cols g L d :
  placedAt rows cols g L d -> 1 <= String.length (word L) <= 101 ->
  Game.getSelectedWord g (start L) (end_ L) = Some (Some (word L)).
Proof.
  intros (_ & _ & Hcells & Hend) Hlen. unfold Game.getSelectedWord.
  rewrite Hend. destruct (Nat.eqb_spec (String.length (word L)) 0); [lia|].
  destruct (start L) as [r c] eqn:Hstart. unfold cellOn in *. cbn [row col] in *.
  rewrite getPointsOnLine_offset by done.
  rewrite (mapM_map _ (fun p => Some (default "" (lookupCell g (row p) (col p))))).
  - cbn [mbind option_bind]. rewrite map_map. do 2 f_equal.
    rewrite <- (join_charAt (word L)) at 2. f_equal.
    apply map_ext_in. intros j Hj. apply in_seq in Hj.
    destruct (Hcells j ltac:(lia)) as [_ Hcell]. unfold lookupCellP in Hcell.
    unfold pointOf. cbn [row col]. rewrite Hcell.
    destruct (charAt_is_Some (word L) j ltac:(lia)) as [v ->]. done.
  - intros p Hp. apply in_map_iff in Hp as (j & <- & Hj). apply in_seq in Hj.
    destruct (Hcells j ltac:(lia)) as [_ Hcell]. unfold lookupCellP in Hcell.
    unfold pointOf. cbn [row col].
    destruct (charAt_is_Some (word L) j ltac:(lia)) as [v Hv].
    rewrite Hv in Hcell. rewrite Hcell. simpl. by apply lookupCell_readCell.
Qed.


End LineFacts.

(** ** Claims about the generator *)

Module GeneratorClaims.
Import Generator GridFacts GeneratorFacts.

(** The word of [L] is written in [g] on the line from its start to its end,
    along [d]. *)
Definition onLine (rows cols : nat) (g : Grid) (L : WordLocation)
    (d : Direction) : Prop :=
  (forall j, j < String.length (word L) ->
     inRangeP rows cols (cellOn d (start L) (Z.of_nat j))
     /\ lookupCellP g (cellOn d (start L) (Z.of_nat j)) = Js.charAt (word L) j)
  /\ end_ L = pointOf (cellOn d (start L) (Z.of_nat (String.length (word L)) - 1)).

Lemma placedAt_onLine rows cols g L d :
  placedAt rows cols g L d -> word L <> "" -> onLine rows cols g L d.
Proof.
  intros (_ & _ & Hcells & Hend) Hne. split; [done|]. rewrite Hend.
  destruct (word L); [done|]. done.
Qed.

(** A tape of zeros: every draw picks HORIZONTAL, row 0, column 0 and the
    letter A. *)
Definition zeroTape : Random.Tape := fun _ => 0.

(** A tape whose third draw is 1: the first attempt is HORIZONTAL at row 0,
    column 1. *)
Definition columnOneTape : Random.Tape :=
  fun k => match k with 2 => 1 | _ => 0 end.

(** C1 (as amended).  In the state returned by generate, every location with
    a non-empty word lies on a straight line of one of the four directions
    whose cells, read from start to end, hold the letters of the word; up to
    the 101 cells the game's line reader walks, getSelectedWord reads exactly
    the word.  Hence a cell shared by two such words holds the letter both
    need there. *)
Theorem placement_sound tape rows cols ws k gs k' :
  generate tape rows cols ws k = Some (gs, k') ->
  (forall L, In L (words gs) -> word L <> "" ->
     (exists w, In w ws /\ word L = Js.toUpperCase w)
     /\ (exists d, In d DIRECTIONS /\ onLine rows cols (grid gs) L d)
     /\ (String.length (word L) <= 101 ->
         Game.getSelectedWord (grid gs) (start L) (end_ L) = Some (Some (word L))))
  /\ (forall L1 L2 d1 d2 i j,
        In L1 (words gs) -> In L2 (words gs) ->
        onLine rows cols (grid gs) L1 d1 -> onLine rows cols (grid gs) L2 d2 ->
        i < String.length (word L1) -> j < String.length (word L2) ->
        cellOn d1 (start L1) (Z.of_nat i) = cellOn d2 (start L2) (Z.of_nat j) ->
        Js.charAt (word L1) i = Js.charAt (word L2) j).
Proof.
  intros Hgen.
  destruct (generate_spec tape rows cols ws k)
    as (gs0 & k0 & Hgen0 & _ & Hall & (sub & Hsub & Hmap) & _).
  rewrite Hgen in Hgen0. injection Hgen0 as <- <-. split.
  - intros L HL Hne. rewrite Forall_forall in Hall.
    destruct (Hall L) as (d & Hd & Hplaced); [by apply list_elem_of_In|].
    split; [|split].
    + assert (In (word L) (map Js.toUpperCase sub)) as Hin
        by (rewrite <- Hmap; by apply in_map).
      apply in_map_iff in Hin as (w & HwL & Hw). exists w. split; [|done].
      apply attempted_In, list_elem_of_In.
      eapply elem_of_sublist; [|exact Hsub]. by apply list_elem_of_In.
    + exists d. split; [done|]. by apply placedAt_onLine.
    + intros Hlen. eapply LineFacts.getSelectedWord_placedAt; [done|].
      destruct (word L); [done|]. simpl in *. lia.
  - intros L1 L2 d1 d2 i j _ _ [H1 _] [H2 _] Hi Hj Hcell.
    destruct (H1 i Hi) as [_ <-], (H2 j Hj) as [_ <-]. by rewrite Hcell.
Qed.

Lemma placement_sound_witness :
  exists d, In d DIRECTIONS
    /\ onLine 3 3 [["C"; "A"; "T"]; ["A"; "A"; "A"]; ["A"; "A"; "A"]]
         {| word := "CAT"; start := mkPoint 0 0; end_ := mkPoint 0 2 |} d.
Proof.
  refine (proj1 (proj2 (proj1 (placement_sound zeroTape 3 3 ["cat"] 0
                   {| grid := [["C"; "A"; "T"]; ["A"; "A"; "A"]; ["A"; "A"; "A"]];
                      words := [{| word := "CAT"; start := mkPoint 0 0;
                                   end_ := mkPoint 0 2 |}] |} 9 _)
                 {| word := "CAT"; start := mkPoint 0 0; end_ := mkPoint 0 2 |}
                 _ _))).
  - vm_compute. reflexivity.
  - simpl. left. reflexivity.
  - simpl. discriminate.
Defined.

(** C1 as stated fails for the empty word: generate can return a location
    for it, with the end equal to the start, and the line from start to end
    then reads one letter, not the empty word. *)
Lemma placement_empty_word_counterexample :
  exists gs k' L,
    generate columnOneTape 2 2 [""] 0 = Some (gs, k')
    /\ In L (words gs)
    /\ Game.getSelectedWord (grid gs) (start L) (end_ L) = Some (Some "A")
    /\ word L = "".
Proof.
  eexists _, _, _. split; [vm_compute; reflexivity|].
  split; [left; reflexivity|]. split; reflexivity.
Qed.

(** What the de-duplication of generate does: it removes repeated strings
    by exact identity only, so two entries of the returned list carry the
    same word only when they come from two different input strings with the
    same uppercase form. *)
Lemma dedup_exact tape rows cols ws k gs k' :
  generate tape rows cols ws k = Some (gs, k') ->
  forall i j Li Lj,
    i <> j -> words gs !! i = Some Li -> words gs !! j = Some Lj ->
    word Li = word Lj ->
    exists w1 w2, In w1 ws /\ In w2 ws /\ w1 <> w2
      /\ Js.toUpperCase w1 = word Li /\ Js.toUpperCase w2 = word Lj.
Proof.
  intros Hgen i j Li Lj Hij Hi Hj Heq.
  destruct (generate_spec tape rows cols ws k)
    as (gs0 & k0 & Hgen0 & _ & _ & (sub & Hsub & Hmap) & _).
  rewrite Hgen in Hgen0. injection Hgen0 as <- <-.
  assert (map word (words gs) !! i = Some (word Li)) as Hwi
    by (by rewrite list_lookup_fmap, Hi).
  assert (map word (words gs) !! j = Some (word Lj)) as Hwj
    by (by rewrite list_lookup_fmap, Hj).
  rewrite Hmap in Hwi, Hwj.
  rewrite list_lookup_fmap in Hwi, Hwj.
  destruct (sub !! i) as [w1|] eqn:H1; [|inversion Hwi].
  destruct (sub !! j) as [w2|] eqn:H2; [|inversion Hwj].
  simpl in Hwi, Hwj. injection Hwi as Hwi. injection Hwj as Hwj.
  assert (NoDup sub) as Hnd
    by (exact (sublist_NoDup _ _ (attempted_NoDup ws) Hsub)).
  assert (forall w, w ∈ sub -> In w ws) as Hin.
  { intros w Hw. apply attempted_In, list_elem_of_In.
    by apply (elem_of_sublist sub _ w Hw). }
  exists w1, w2. split; [apply Hin; by eapply list_elem_of_lookup_2|].
  split; [apply Hin; by eapply list_elem_of_lookup_2|].
  split; [|done]. intros ->. apply Hij. by eapply NoDup_lookup.
Qed.

Lemma dedup_exact_witness :
  exists w1 w2, In w1 ["cat"; "CAT"] /\ In w2 ["cat"; "CAT"] /\ w1 <> w2
    /\ Js.toUpperCase w1 = "CAT" /\ Js.toUpperCase w2 = "CAT".
Proof.
  refine (dedup_exact zeroTape 3 3 ["cat"; "CAT"] 0
            {| grid := [["C"; "A"; "T"]; ["A"; "A"; "A"]; ["A"; "A"; "A"]];
               words := [{| word := "CAT"; start := mkPoint 0 0;
                            end_ := mkPoint 0 2 |};
                         {| word := "CAT"; start := mkPoint 0 0;
                            end_ := mkPoint 0 2 |}] |} 12 _
            0 1 {| word := "CAT"; start := mkPoint 0 0; end_ := mkPoint 0 2 |}
            {| word := "CAT"; start := mkPoint 0 0; end_ := mkPoint 0 2 |}
            _ _ _ _).
  - vm_compute. reflexivity.
  - lia.
  - reflexivity.
  - reflexivity.
  - reflexivity.
Defined.

(** C4, the code at the failing input.  The comment of generate says
    "Filter out duplicates", and every word is placed in upper case; but
    [new Set(words)] compares the raw strings, before [toUpperCase] is
    applied.  So "cat" and "CAT" are both attempted and both placed: the
    returned list has two locations of the word CAT, where C4 allows one.
    The same string given twice is placed once. *)
Theorem dedup_misses_case_variants :
  (exists gs k',
     generate zeroTape 3 3 ["cat"; "CAT"] 0 = Some (gs, k')
     /\ map word (words gs) = ["CAT"; "CAT"])
  /\ (exists gs k',
        generate zeroTape 3 3 ["CAT"; "CAT"] 0 = Some (gs, k')
        /\ map word (words gs) = ["CAT"]).
Proof.
  split; eexists _, _; (split; [vm_compute; reflexivity|reflexivity]).
Qed.







Lemma placedAt_fits rows cols g L d :
  placedAt rows cols g L d ->
  0 < rows /\ 0 < cols
  /\ (String.length (word L) <= rows \/ String.length (word L) <= cols).
Proof.
  intros ([Hr Hc] & [Her Hec] & _). unfold cellOn in *.
  destruct d; simpl in *; lia.
Qed.

(** C8.  generate returns a state for every input, and a word longer than
    both dimensions of the grid, or any non-empty word when the grid has no
    rows or no columns, is not in the returned list, neither as given nor
    in uppercase. *)
Theorem long_words_dropped tape rows cols ws k :
  exists gs k',
    generate tape rows cols ws k = Some (gs, k')
    /\ forall w,
         (rows < String.length w /\ cols < String.length w)
         \/ (w <> "" /\ (rows = 0 \/ cols = 0)) ->
         forall L, In L (words gs) ->
           word L <> Js.toUpperCase w /\ word L <> w.
Proof.
  destruct (generate_spec tape rows cols ws k)
    as (gs & k' & Hgen & _ & Hall & _).
  exists gs, k'. split; [done|]. intros w Hw L HL.
  rewrite Forall_forall in Hall.
  destruct (Hall L) as (d & _ & Hplaced); [by apply list_elem_of_In|].
  apply placedAt_fits in Hplaced.
  split; intros Heq; rewrite Heq in Hplaced;
    rewrite ?JsFacts.toUpperCase_length in Hplaced; lia.
Qed.

End GeneratorClaims.

(** ** The solver *)

Module SolverFacts.
Import Solver GridFacts.

(** *** The two loops *)

Section Loops.
Context {A S : Type}.

Lemma forEach_is_Some (body : A -> S -> option S) xs :
  (forall x st, In x xs -> is_Some (body x st)) ->
  forall st, is_Some (forEach body xs st).
Proof.
  induction xs as [|x xs IH]; intros Hbody st; simpl; [eauto|].
  destruct (Hbody x st) as [st' ->]; [by left|]. simpl.
  apply IH. intros y st'' Hy. apply Hbody. by right.
Qed.

Lemma tryEach_is_Some (body : A -> S -> option (bool * S)) xs :
  (forall x st, In x xs -> is_Some (body x st)) ->
  forall st, is_Some (tryEach body xs st).
Proof.
  induction xs as [|x xs IH]; intros Hbody st; simpl; [eauto|].
  destruct (Hbody x st) as [[hit st'] ->]; [by left|]. simpl.
  destruct hit; [eauto|]. apply IH. intros y st'' Hy. apply Hbody. by right.
Qed.

(** A loop invariant for [forEach]. *)
Lemma forEach_invariant (body : A -> S -> option S) (I : S -> Prop) xs :
  (forall x st st', In x xs -> body x st = Some st' -> I st -> I st') ->
  forall st st', forEach body xs st = Some st' -> I st -> I st'.
Proof.
  induction xs as [|x xs IH]; intros Hbody st st'; simpl.
  - by intros [= <-].
  - destruct (body x st) as [st1|] eqn:H1; [|done]. simpl. intros Hrest Hst.
    eapply IH; [|exact Hrest|].
    + intros y sa sb Hy. apply Hbody. by right.
    + eapply Hbody; [by left|exact H1|done].
Qed.

(** The same for [tryEach]. *)
Lemma tryEach_invariant (body : A -> S -> option (bool * S))
    (I : S -> Prop) xs :
  (forall x st hit st', In x xs -> body x st = Some (hit, st') -> I st -> I st') ->
  forall st hit st', tryEach body xs st = Some (hit, st') -> I st -> I st'.
Proof.
  induction xs as [|x xs IH]; intros Hbody st hit st'; simpl.
  - by intros [= <- <-].
  - destruct (body x st) as [[hit1 st1]|] eqn:H1; [|done]. simpl.
    destruct hit1.
    + intros [= <- <-] Hst. eapply Hbody; [by left|exact H1|done].
    + intros Hrest Hst. eapply IH; [|exact Hrest|].
      * intros y sa h sb Hy. apply Hbody. by right.
      * eapply Hbody; [by left|exact H1|done].
Qed.

(** What one iteration establishes survives the rest of the loop. *)
Lemma forEach_reaches (body : A -> S -> option S) (Q : S -> Prop) xs x :
  In x xs ->
  (forall st st', body x st = Some st' -> Q st') ->
  (forall y st st', In y xs -> body y st = Some st' -> Q st -> Q st') ->
  forall st st', forEach body xs st = Some st' -> Q st'.
Proof.
  induction xs as [|y xs IH]; intros Hx Hreach Hkeep st st'; [done|].
  simpl. destruct (body y st) as [st1|] eqn:H1; [|done]. simpl. intros Hrest.
  destruct Hx as [->|Hx].
  - eapply (forEach_invariant body Q xs); [|exact Hrest|by eapply Hreach].
    intros z sa sb Hz. apply Hkeep. by right.
  - eapply IH; [done|done| |exact Hrest].
    intros z sa sb Hz. apply Hkeep. by right.
Qed.

(** A loop whose body returns gives the same result with any body that
    returns the same. *)
Lemma forEach_agree (body body' : A -> S -> option S) xs :
  (forall x st st', body x st = Some st' -> body' x st = Some st') ->
  forall st st', forEach body xs st = Some st' -> forEach body' xs st = Some st'.
Proof.
  intros Hbody. induction xs as [|x xs IH]; intros st st'; simpl; [done|].
  destruct (body x st) as [st1|] eqn:H1; [|done]. simpl.
  rewrite (Hbody _ _ _ H1). simpl. apply IH.
Qed.

Lemma tryEach_agree (body body' : A -> S -> option (bool * S)) xs :
  (forall x st r, body x st = Some r -> body' x st = Some r) ->
  forall st r, tryEach body xs st = Some r -> tryEach body' xs st = Some r.
Proof.
  intros Hbody. induction xs as [|x xs IH]; intros st r; simpl; [done|].
  destruct (body x st) as [[hit st1]|] eqn:H1; [|done]. simpl.
  rewrite (Hbody _ _ _ H1). simpl. destruct hit; [done|apply IH].
Qed.

End Loops.

(** *** The cells of the grid *)

Definition inBounds (s : WordSearchSolver) (r c : Z) : Prop :=
  (0 <= r < Z.of_nat (rows s))%Z /\ (0 <= c < Z.of_nat (cols s))%Z.

(** What the constructor guarantees about the fields. *)
Definition constructed (s : WordSearchSolver) : Prop :=
  rows s = length (grid s).

Lemma new_constructed g ws : constructed (new g ws).
Proof. reflexivity. Qed.

Lemma outOfBounds_false s r c : outOfBounds s r c = false <-> inBounds s r c.
Proof.
  unfold outOfBounds, inBounds.
  destruct (Z.ltb_spec r 0), (Z.geb_spec r (Z.of_nat (rows s))),
    (Z.ltb_spec c 0), (Z.geb_spec c (Z.of_nat (cols s))); simpl; split;
    (done || lia).
Qed.

Lemma in_allPositions rows cols p :
  In p (allPositions rows cols)
  <-> (0 <= row p < Z.of_nat rows)%Z /\ (0 <= col p < Z.of_nat cols)%Z.
Proof.
  unfold allPositions. rewrite in_flat_map. split.
  - intros (r & Hr & Hp). apply in_map_iff in Hp as (c & <- & Hc).
    apply in_seq in Hr, Hc. simpl. lia.
  - intros [Hr Hc]. exists (Z.to_nat (row p)). split; [apply in_seq; lia|].
    apply in_map_iff. exists (Z.to_nat (col p)). split; [|apply in_seq; lia].
    destruct p as [r c]. simpl in *. f_equal; lia.
Qed.

Lemma length_allPositions rows cols :
  length (allPositions rows cols) = rows * cols.
Proof.
  unfold allPositions. generalize 0 at 2. induction rows as [|rows IH]; intros r; [done|].
  simpl. rewrite length_app, length_map, length_seq, IH. done.
Qed.

Definition key (p : Point) : Z * Z := (row p, col p).

(** The keys of all cells. *)
Definition cellSet (s : WordSearchSolver) : gset (Z * Z) :=
  list_to_set (map key (allPositions (rows s) (cols s))).

Lemma elem_of_cellSet s r c : (r, c) ∈ cellSet s <-> inBounds s r c.
Proof.
  unfold cellSet, inBounds. rewrite elem_of_list_to_set, list_elem_of_In, in_map_iff.
  split.
  - intros (p & [= <- <-] & Hp). by apply in_allPositions.
  - intros H. exists (mkPoint r c). split; [done|]. by apply in_allPositions.
Qed.

Lemma size_list_to_set_le (l : list (Z * Z)) :
  size (list_to_set l : gset (Z * Z)) <= length l.
Proof.
  induction l as [|x l IH]; [by rewrite list_to_set_nil, size_empty|].
  rewrite list_to_set_cons, size_union_alt, size_singleton. cbn [length].
  pose proof (subseteq_size (list_to_set l ∖ {[x]}) (list_to_set l : gset (Z * Z))
                ltac:(set_solver)). lia.
Qed.

Lemma size_cellSet s : size (cellSet s) <= rows s * cols s.
Proof.
  unfold cellSet. etransitivity; [apply size_list_to_set_le|].
  by rewrite length_map, length_allPositions.
Qed.

Lemma size_unvisited s visited r c :
  inBounds s r c -> (r, c) ∉ visited ->
  size (cellSet s ∖ (visited ∪ {[(r, c)]})) < size (cellSet s ∖ visited).
Proof.
  intros Hin Hnot. apply subset_size. apply elem_of_cellSet in Hin. set_solver.
Qed.

(** *** What the searches record *)

Definition adjacent (p q : Point) : Prop :=
  In ((row q - row p)%Z, (col q - col p)%Z) DIRECTIONS.

(** The value the solver reads at a cell inside the bounds. *)
Definition cellText (g : Grid) (p : Point) : option string :=
  lookupCell g (row p) (col p).

(** The string accumulated from [cur] along [cells]. *)
Definition extend (g : Grid) (cur : string) (cells : list Point) : string :=
  fold_left (fun acc p => Js.concat acc (cellText g p)) cells cur.

Definition spell (g : Grid) (path : list Point) : string := extend g "" path.

(** A path inside the grid that never repeats a cell and moves to one of
    the eight neighbours at every step. *)
Record simplePath (s : WordSearchSolver) (path : list Point) : Prop :=
  { sp_inBounds : forall p, In p path -> inBounds s (row p) (col p);
    sp_NoDup : NoDup path;
    sp_adjacent : forall i p q,
      path !! i = Some p -> path !! S i = Some q -> adjacent p q }.

(** A recorded word: its start and end are the ends of its path, the path is
    simple, and the path spells a prefix whose trie node stores the word. *)
Definition wellFormed (s : WordSearchSolver) (F : FoundWord) : Prop :=
  head (path F) = Some (start F)
  /\ last (path F) = Some (end_ F)
  /\ simplePath s (path F)
  /\ word F <> ""
  /\ exists n, Trie.getNode (trie s) (spell (grid s) (path F)) = Some n
       /\ Trie.isEndOfWord n = true /\ Trie.word n = Some (word F).

(** The arguments of a call of [dfs] during a search. *)
Definition inSearch (s : WordSearchSolver) (r c : Z) (cur : string)
    (path : list Point) (visited : gset (Z * Z)) : Prop :=
  cur = spell (grid s) path
  /\ (forall p, key p ∈ visited <-> In p path)
  /\ simplePath s path
  /\ (forall p, last path = Some p -> adjacent p (mkPoint r c)).

Lemma extend_snoc g cur cells p :
  extend g cur (cells ++ [p]) = Js.concat (extend g cur cells) (cellText g p).
Proof. unfold extend. by rewrite fold_left_app. Qed.

Lemma completes_Some n seen w :
  completes n seen = Some w
  <-> Trie.word n = Some w /\ Trie.isEndOfWord n = true /\ w <> "" /\ w ∉ seen.
Proof.
  unfold completes. destruct (Trie.word n) as [u|]; [|naive_solver].
  destruct (Trie.isEndOfWord n); simpl; [|naive_solver].
  destruct u as [|ch u]; simpl; [naive_solver|].
  destruct (bool_decide_reflect (String ch u ∈ seen)); simpl; naive_solver.
Qed.

(** The set [foundWords] holds the words of [solutions]. *)
Definition linked (st : SearchState) : Prop :=
  forall w, w ∈ foundWords st <-> exists F, In F (solutions st) /\ word F = w.

(** The text of a cell as [Js.concat] appends it. *)
Definition textOf (v : option string) : string :=
  match v with Some t => t | None => "undefined" end.

Lemma concat_textOf cur v : Js.concat cur v = cur +:+ textOf v.
Proof. by destruct v. Qed.

Lemma extend_append g cur cells : extend g cur cells = cur +:+ spell g cells.
Proof.
  unfold spell. revert cur. induction cells as [|p cells IH] using rev_ind;
    intros cur.
  - simpl. by rewrite JsFacts.append_nil_r.
  - rewrite !extend_snoc, !concat_textOf, IH.
    by rewrite JsFacts.append_assoc.
Qed.

Lemma extend_cons g cur p cells :
  extend g cur (p :: cells) = extend g (Js.concat cur (cellText g p)) cells.
Proof. reflexivity. Qed.

(** A node for a string gives a node for each of its prefixes. *)
Lemma getNode_prefix t a b n :
  Trie.getNode t (a +:+ b) = Some n -> is_Some (Trie.getNode t a).
Proof.
  unfold Trie.getNode, Trie.traverse.
  rewrite JsFacts.toUpperCase_app, TrieFacts.traverseFrom_app.
  destruct (Trie.traverseFrom (Js.toUpperCase a) t); [eauto|done].
Qed.

(** *** The searches of a constructed solver *)

Section Searches.
Context (s : WordSearchSolver) (Hs : constructed s).

(** Inside the bounds the row exists, and the read yields the cell or
    [undefined]. *)
Lemma readCell_inBounds r c :
  inBounds s r c -> readCell (grid s) r c = Some (lookupCell (grid s) r c).
Proof.
  intros [Hr _]. unfold readCell, lookupCell.
  destruct (index_is_Some (grid s) r) as [line ->]; [|done].
  rewrite <- Hs. lia.
Qed.

(** The guards a search passes before it accepts a cell: the cell is inside
    the bounds and not yet on the path, and the trie has a node for the
    extended prefix.  Leaves the goals of the three early returns and, last,
    the goal of the accepted cell. *)
Ltac search_guards Hb Hv n Hn :=
  destruct (outOfBounds s _ _) eqn:Hb;
    [|apply outOfBounds_false in Hb;
      match goal with
      | |- context [bool_decide (?k ∈ ?visited)] =>
          destruct (bool_decide_reflect (k ∈ visited)) as [Hv|Hv]
      end;
        [|rewrite (readCell_inBounds _ _ Hb); cbn [mbind option_bind];
          destruct (Trie.getNode _ _) as [n|] eqn:Hn]].

(** **** Termination: the fuel is never exhausted *)

Lemma dfs_is_Some fuel : forall r c cur path visited st,
  size (cellSet s ∖ visited) < fuel ->
  is_Some (dfs fuel s r c cur path visited st).
Proof.
  induction fuel as [|fuel IH]; intros r c cur path visited st Hfuel; [lia|].
  cbn [dfs]. search_guards Hb Hv n Hn; [eauto|eauto| |eauto].
  apply forEach_is_Some. intros [dr dc] st' _. apply IH.
  pose proof (size_unvisited s visited r c Hb Hv). lia.
Qed.

Lemma searchDfs_is_Some excl budget fuel : forall r c cur path visited st,
  size (cellSet s ∖ visited) < fuel ->
  is_Some (searchDfs fuel s excl budget r c cur path visited st).
Proof.
  induction fuel as [|fuel IH]; intros r c cur path visited st Hfuel; [lia|].
  cbn [searchDfs]. destruct (budget <=? attempts st)%nat; [eauto|].
  search_guards Hb Hv n Hn; [eauto|eauto| |eauto].
  destruct (completes _ _); [eauto|].
  apply tryEach_is_Some. intros [dr dc] st' _. apply IH.
  pose proof (size_unvisited s visited r c Hb Hv). lia.
Qed.

Lemma enoughFuel_enough visited :
  size (cellSet s ∖ visited) < enoughFuel s.
Proof.
  unfold enoughFuel. pose proof (size_cellSet s).
  pose proof (subseteq_size (cellSet s ∖ visited) (cellSet s) ltac:(set_solver)).
  lia.
Qed.

(** A search that returns with some fuel returns the same with more. *)
Lemma dfs_fuel_mono fuel : forall fuel' r c cur path visited st st',
  fuel <= fuel' ->
  dfs fuel s r c cur path visited st = Some st' ->
  dfs fuel' s r c cur path visited st = Some st'.
Proof.
  induction fuel as [|fuel IH]; intros fuel' r c cur path visited st st' Hle;
    [done|].
  destruct fuel' as [|fuel']; [lia|]. cbn [dfs].
  search_guards Hb Hv n Hn; [done|done| |done].
  apply forEach_agree. intros [dr dc] sa sb. apply IH. lia.
Qed.

Lemma searchDfs_fuel_mono excl budget fuel :
  forall fuel' r c cur path visited st result,
    fuel <= fuel' ->
    searchDfs fuel s excl budget r c cur path visited st = Some result ->
    searchDfs fuel' s excl budget r c cur path visited st = Some result.
Proof.
  induction fuel as [|fuel IH];
    intros fuel' r c cur path visited st result Hle; [done|].
  destruct fuel' as [|fuel']; [lia|]. cbn [searchDfs].
  destruct (budget <=? attempts st)%nat; [done|].
  search_guards Hb Hv n Hn; [done|done| |done].
  destruct (completes _ _); [done|].
  apply tryEach_agree. intros [dr dc] sa sb. apply IH. lia.
Qed.

(** **** What the searches record *)

Lemma inSearch_start r c : inSearch s r c "" [] ∅.
Proof.
  split; [done|]. split; [intros p; set_solver|]. split; [|done].
  split; [done|constructor|]. intros i p q Hp. by rewrite lookup_nil in Hp.
Qed.

Lemma simplePath_snoc path p :
  simplePath s path -> inBounds s (row p) (col p) -> ~ In p path ->
  (forall q, last path = Some q -> adjacent q p) ->
  simplePath s (path ++ [p]).
Proof.
  intros [Hin Hnd Hadj] Hp Hfresh Hlast. split.
  - intros q Hq. apply in_app_iff in Hq as [Hq|[<-|[]]]; auto.
  - apply NoDup_app. split; [done|]. split; [|apply NoDup_singleton].
    intros q Hq Hq'. apply list_elem_of_In in Hq.
    apply list_elem_of_singleton in Hq' as ->. done.
  - intros i a b Ha Hb.
    destruct (decide (S i < length path)) as [Hlt|Hge].
    + rewrite lookup_app_l in Ha, Hb by lia. eauto.
    + assert (S i = length path) as Hi.
      { apply lookup_lt_Some in Hb. rewrite length_app in Hb. simpl in Hb. lia. }
      rewrite lookup_app_l in Ha by lia.
      rewrite lookup_app_r, Hi, Nat.sub_diag in Hb by lia.
      injection Hb as <-. apply Hlast.
      rewrite last_lookup. rewrite <- Hi. simpl. done.
Qed.

(** The context of the recursive calls made from an accepted cell. *)
Lemma inSearch_step r c cur path visited dr dc :
  inSearch s r c cur path visited ->
  inBounds s r c -> (r, c) ∉ visited -> In (dr, dc) DIRECTIONS ->
  inSearch s (r + dr) (c + dc)
    (Js.concat cur (lookupCell (grid s) r c))
    (path ++ [mkPoint r c]) (visited ∪ {[(r, c)]}).
Proof.
  intros (Hcur & Hvis & Hpath & Hlast) Hb Hv Hd.
  split; [|split; [|split]].
  - unfold spell. rewrite extend_snoc. by rewrite Hcur.
  - intros p. rewrite elem_of_union, Hvis, in_app_iff, elem_of_singleton.
    simpl. destruct p as [pr pc]. unfold key. simpl. naive_solver.
  - apply simplePath_snoc; [done|done| |done].
    intros Hin. apply Hvis in Hin. done.
  - intros p. rewrite last_snoc. intros [= <-]. unfold adjacent. simpl.
    by replace (r + dr - r)%Z with dr by lia;
       replace (c + dc - c)%Z with dc by lia.
Qed.

Lemma wellFormed_new r c cur path visited n w :
  inSearch s r c cur path visited -> inBounds s r c -> (r, c) ∉ visited ->
  Trie.getNode (trie s) (Js.concat cur (lookupCell (grid s) r c)) = Some n ->
  Trie.word n = Some w -> Trie.isEndOfWord n = true -> w <> "" ->
  wellFormed s {| word := w; start := startOf path r c;
                  end_ := mkPoint r c; path := path ++ [mkPoint r c] |}.
Proof.
  intros (Hcur & Hvis & Hpath & Hlast) Hb Hv Hn Hw He Hne.
  split; [by destruct path|]. split; [apply last_snoc|]. simpl.
  split; [|split; [done|]].
  - apply simplePath_snoc; [done|done| |done].
    intros Hin. apply Hvis in Hin. done.
  - exists n. unfold spell. rewrite extend_snoc. fold (spell (grid s) path).
    by rewrite <- Hcur.
Qed.

(** Every word recorded by [dfs] is well formed. *)
Lemma dfs_wellFormed fuel : forall r c cur path visited st st',
  inSearch s r c cur path visited ->
  dfs fuel s r c cur path visited st = Some st' ->
  Forall (wellFormed s) (solutions st) ->
  Forall (wellFormed s) (solutions st').
Proof.
  induction fuel as [|fuel IH]; intros r c cur path visited st st' Hctx; [done|].
  cbn [dfs].
  search_guards Hb Hv n Hn;
    [by intros [= <-]|by intros [= <-]| |by intros [= <-]].
  intros Hloop Hst.
  eapply (forEach_invariant _ (fun st => Forall (wellFormed s) (solutions st)));
    [|exact Hloop|].
  - intros [dr dc] sa sb Hd Hbody. eapply IH; [|exact Hbody].
    by apply inSearch_step.
  - destruct (completes n (foundWords st)) as [w|] eqn:Hw; [|done].
    apply completes_Some in Hw as (Hw & He & Hne & _). simpl.
    apply Forall_app. split; [done|]. apply Forall_singleton.
    by eapply wellFormed_new.
Qed.

(** The same for the budgeted search. *)
Lemma searchDfs_wellFormed excl budget fuel :
  forall r c cur path visited st hit st',
    inSearch s r c cur path visited ->
    searchDfs fuel s excl budget r c cur path visited st = Some (hit, st') ->
    (forall F, found st = Some F -> wellFormed s F) ->
    forall F, found st' = Some F -> wellFormed s F.
Proof.
  induction fuel as [|fuel IH];
    intros r c cur path visited st hit st' Hctx; [done|].
  cbn [searchDfs]. destruct (budget <=? attempts st)%nat; [by intros [= <- <-]|].
  search_guards Hb Hv n Hn;
    [by intros [= <- <-]|by intros [= <- <-]| |by intros [= <- <-]].
  destruct (completes n excl) as [w|] eqn:Hw.
  - apply completes_Some in Hw as (Hw & He & Hne & _).
    intros [= <- <-] _ F [= <-]. by eapply wellFormed_new.
  - intros Hloop Hst.
    eapply (tryEach_invariant _ (fun st => forall F, found st = Some F -> wellFormed s F));
      [|exact Hloop|exact Hst].
    intros [dr dc] sa hit' sb Hd Hbody. eapply IH; [|exact Hbody].
    by apply inSearch_step.
Qed.

(** **** Recall *)

Lemma dfs_linked fuel : forall r c cur path visited st st',
  dfs fuel s r c cur path visited st = Some st' -> linked st -> linked st'.
Proof.
  induction fuel as [|fuel IH]; intros r c cur path visited st st'; [done|].
  cbn [dfs].
  search_guards Hb Hv n Hn;
    [by intros [= <-]|by intros [= <-]| |by intros [= <-]].
  intros Hloop Hst.
  eapply (forEach_invariant _ linked); [|exact Hloop|].
  - intros [dr dc] sa sb _ Hbody. eapply IH. exact Hbody.
  - destruct (completes n (foundWords st)) as [w|]; [|done].
    intros u. simpl. rewrite elem_of_union, elem_of_singleton, (Hst u).
    setoid_rewrite in_app_iff. simpl. naive_solver.
Qed.

(** A search only adds words. *)
Lemma dfs_mono w fuel : forall r c cur path visited st st',
  dfs fuel s r c cur path visited st = Some st' ->
  w ∈ foundWords st -> w ∈ foundWords st'.
Proof.
  induction fuel as [|fuel IH]; intros r c cur path visited st st'; [done|].
  cbn [dfs].
  search_guards Hb Hv n Hn;
    [by intros [= <-]|by intros [= <-]| |by intros [= <-]].
  intros Hloop Hst.
  eapply (forEach_invariant _ (fun st => w ∈ foundWords st)); [|exact Hloop|].
  - intros [dr dc] sa sb _ Hbody. eapply IH. exact Hbody.
  - destruct (completes n (foundWords st)); [|done]. simpl. set_solver.
Qed.

(** If the cells [(r, c) :: rest] continue the current path to a stored
    word, the search from [(r, c)] has the word when it returns. *)
Lemma dfs_recall w rest : forall fuel r c cur path visited st st',
    dfs fuel s r c cur path visited st = Some st' ->
    NoDup (mkPoint r c :: rest) ->
    (forall p, In p (mkPoint r c :: rest) ->
       inBounds s (row p) (col p) /\ key p ∉ visited) ->
    (forall i p q, (mkPoint r c :: rest) !! i = Some p ->
       (mkPoint r c :: rest) !! S i = Some q -> adjacent p q) ->
    (exists n, Trie.getNode (trie s) (extend (grid s) cur (mkPoint r c :: rest)) = Some n
       /\ Trie.isEndOfWord n = true /\ Trie.word n = Some w) ->
    w <> "" ->
    w ∈ foundWords st'.
Proof.
  induction rest as [|q rest IH];
    intros fuel r c cur path visited st st' Hdfs Hnd Hcells Hadj (n & Hn & He & Hw) Hne;
    (destruct fuel as [|fuel]; [done|]); cbn [dfs] in Hdfs;
    destruct (Hcells (mkPoint r c)) as [Hb Hv]; try (by left);
    cbn [row col key] in Hb, Hv;
    rewrite (proj2 (outOfBounds_false s r c) Hb) in Hdfs;
    rewrite (bool_decide_eq_false_2 _ Hv) in Hdfs;
    rewrite (readCell_inBounds _ _ Hb) in Hdfs;
    cbn [mbind option_bind] in Hdfs; rewrite extend_cons in Hn;
    unfold cellText in Hn; cbn [row col] in Hn.
  - cbn [extend fold_left] in Hn. rewrite Hn in Hdfs.
    eapply (forEach_invariant _ (fun st => w ∈ foundWords st)); [|exact Hdfs|].
    + intros [dr dc] sa sb _ Hbody. eapply dfs_mono. exact Hbody.
    + destruct (completes n (foundWords st)) as [u|] eqn:Hu.
      * apply completes_Some in Hu as (Hu & _). simpl. set_solver.
      * destruct (decide (w ∈ foundWords st)) as [Hin|Hout]; [done|].
        assert (completes n (foundWords st) = Some w) as Hsome
          by (by apply completes_Some). congruence.
  - rewrite extend_append in Hn.
    destruct (getNode_prefix _ _ _ _ Hn) as [n0 Hn0]. rewrite Hn0 in Hdfs.
    pose proof (Hadj 0 (mkPoint r c) q eq_refl eq_refl) as Hq.
    unfold adjacent in Hq. cbn [row col] in Hq.
    eapply (forEach_reaches _ (fun st => w ∈ foundWords st) _ _ Hq);
      [| |exact Hdfs].
    + intros sa sb Hbody. cbn beta iota in Hbody.
      replace (r + (row q - r))%Z with (row q) in Hbody by lia.
      replace (c + (col q - c))%Z with (col q) in Hbody by lia.
      destruct q as [qr qc]. cbn [row col] in *.
      eapply (IH _ _ _ _ _ _ _ _ Hbody); [by inversion Hnd| | | |done].
      * intros p Hp. destruct (Hcells p) as [Hpb Hpv]; [by right|].
        split; [done|]. rewrite not_elem_of_union, not_elem_of_singleton.
        split; [done|]. intros Hkey. inversion Hnd as [|? ? Hfresh _]; subst.
        apply Hfresh. apply list_elem_of_In.
        destruct p as [pr pc]. unfold key in Hkey. simpl in Hkey.
        by injection Hkey as -> ->.
      * intros i p p' Hp Hp'. by apply (Hadj (S i)).
      * exists n. rewrite extend_append. done.
    + intros [dr dc] sa sb _ Hbody. eapply dfs_mono. exact Hbody.
Qed.


(** **** findAllWords *)

(** findAllWords returns, *)
Lemma findAllWords_is_Some : is_Some (findAllWords s).
Proof.
  unfold findAllWords, findAllWordsFuel.
  destruct (forEach_is_Some
              (fun p st => dfs (enoughFuel s) s (row p) (col p) "" [] ∅ st)
              (allPositions (rows s) (cols s))) with
    (st := {| foundWords := ∅; solutions := [] |}) as [st ->]; [|simpl; eauto].
  intros p st _. apply dfs_is_Some, enoughFuel_enough.
Qed.

(** and with more fuel it returns the same. *)
Lemma findAllWordsFuel_enough fuel :
  enoughFuel s <= fuel -> findAllWordsFuel fuel s = findAllWords s.
Proof.
  intros Hfuel. destruct findAllWords_is_Some as [res Hres]. rewrite Hres.
  revert Hres. unfold findAllWords, findAllWordsFuel.
  destruct (forEach _ _ _) as [st|] eqn:Hloop; [|done]. simpl. intros [= <-].
  erewrite forEach_agree; [done| |exact Hloop].
  intros p sa sb. by apply dfs_fuel_mono.
Qed.

Lemma findAllWords_wellFormed res :
  findAllWords s = Some res -> Forall (wellFormed s) res.
Proof.
  unfold findAllWords, findAllWordsFuel.
  destruct (forEach _ _ _) as [st|] eqn:Hloop; [|done]. simpl. intros [= <-].
  eapply (forEach_invariant _ (fun st => Forall (wellFormed s) (solutions st)));
    [|exact Hloop|by constructor].
  intros p sa sb _ Hbody. eapply dfs_wellFormed; [|exact Hbody].
  apply inSearch_start.
Qed.

(** A stored word spelled by a simple path of the grid is in the result. *)
Lemma findAllWords_recall res w p rest :
  findAllWords s = Some res ->
  NoDup (p :: rest) ->
  (forall q, In q (p :: rest) -> inBounds s (row q) (col q)) ->
  (forall i a b, (p :: rest) !! i = Some a -> (p :: rest) !! S i = Some b ->
     adjacent a b) ->
  (exists n, Trie.getNode (trie s) (spell (grid s) (p :: rest)) = Some n
     /\ Trie.isEndOfWord n = true /\ Trie.word n = Some w) ->
  w <> "" ->
  exists F, In F res /\ word F = w.
Proof.
  unfold findAllWords, findAllWordsFuel.
  destruct (forEach _ _ _) as [st|] eqn:Hloop; [|done]. simpl. intros [= <-].
  intros Hnd Hin Hadj Hn Hne.
  assert (linked st) as Hlinked.
  { eapply (forEach_invariant _ linked); [|exact Hloop|].
    - intros q sa sb _ Hbody. eapply dfs_linked. exact Hbody.
    - intros u. simpl. split; [set_solver|]. by intros (F & [] & _). }
  apply Hlinked.
  eapply (forEach_reaches _ (fun st => w ∈ foundWords st) _ p); [| | |exact Hloop].
  - apply in_allPositions. apply (Hin p). by left.
  - intros sa sb Hbody. destruct p as [r c]. cbn [row col] in Hbody.
    eapply (dfs_recall w rest); [exact Hbody|done| |done|done|done].
    intros q Hq. split; [by apply Hin|set_solver].
  - intros q sa sb _ Hbody. eapply dfs_mono. exact Hbody.
Qed.

(** **** findNextWord *)

(** The budgeted search never counts past its budget. *)
Lemma searchDfs_attempts excl budget fuel :
  forall r c cur path visited st hit st',
    searchDfs fuel s excl budget r c cur path visited st = Some (hit, st') ->
    attempts st <= budget -> attempts st' <= budget.
Proof.
  induction fuel as [|fuel IH]; intros r c cur path visited st hit st'; [done|].
  cbn [searchDfs]. destruct (Nat.leb_spec budget (attempts st));
    [by intros [= <- <-]|].
  search_guards Hb Hv n Hn;
    [intros [= <- <-] _; simpl; lia|intros [= <- <-] _; simpl; lia|
    |intros [= <- <-] _; simpl; lia].
  destruct (completes n excl); [intros [= <- <-] _; simpl; lia|].
  intros Hloop _.
  eapply (tryEach_invariant _ (fun st => attempts st <= budget));
    [|exact Hloop|simpl; lia].
  intros [dr dc] sa hit' sb _ Hbody. eapply IH. exact Hbody.
Qed.

Lemma searchFromCell_attempts fuel r c excl budget result :
  searchFromCell fuel s r c excl budget = Some result ->
  attempts result <= budget.
Proof.
  unfold searchFromCell.
  destruct (searchDfs _ _ _ _ _ _ _ _ _ _) as [[hit st]|] eqn:Hdfs; [|done].
  simpl. intros [= <-]. eapply searchDfs_attempts; [exact Hdfs|simpl; lia].
Qed.

Lemma searchFromCell_wellFormed fuel r c excl budget result F :
  searchFromCell fuel s r c excl budget = Some result ->
  found result = Some F -> wellFormed s F.
Proof.
  unfold searchFromCell.
  destruct (searchDfs _ _ _ _ _ _ _ _ _ _) as [[hit st]|] eqn:Hdfs; [|done].
  simpl. intros [= <-]. eapply searchDfs_wellFormed;
    [apply inSearch_start|exact Hdfs|done].
Qed.

Lemma searchFromCell_is_Some r c excl budget :
  is_Some (searchFromCell (enoughFuel s) s r c excl budget).
Proof.
  unfold searchFromCell.
  destruct (searchDfs_is_Some excl budget (enoughFuel s) r c "" [] ∅
              {| found := None; attempts := 0 |}) as [[hit st] ->];
    [apply enoughFuel_enough|]. simpl. eauto.
Qed.

Lemma searchFromCell_fuel_mono fuel fuel' r c excl budget result :
  fuel <= fuel' ->
  searchFromCell fuel s r c excl budget = Some result ->
  searchFromCell fuel' s r c excl budget = Some result.
Proof.
  intros Hle. unfold searchFromCell.
  destruct (searchDfs fuel _ _ _ _ _ _ _ _ _) as [[hit st]|] eqn:Hdfs; [|done].
  by rewrite (searchDfs_fuel_mono _ _ _ _ _ _ _ _ _ _ _ Hle Hdfs).
Qed.

Lemma scanPositions_is_Some foundSet budget positions : forall attempts,
  is_Some (scanPositions (enoughFuel s) s foundSet budget positions attempts).
Proof.
  induction positions as [|p positions IH]; intros a; simpl; [eauto|].
  destruct (budget <=? a)%nat; [eauto|].
  destruct (searchFromCell_is_Some (row p) (col p) foundSet (budget - a))
    as [result ->]. simpl.
  destruct (found result); [|apply IH].
  destruct (negb _); [eauto|apply IH].
Qed.

Lemma scanPositions_fuel_mono fuel fuel' foundSet budget positions :
  fuel <= fuel' ->
  forall a result,
    scanPositions fuel s foundSet budget positions a = Some result ->
    scanPositions fuel' s foundSet budget positions a = Some result.
Proof.
  intros Hle. induction positions as [|p positions IH]; intros a result; simpl;
    [done|].
  destruct (budget <=? a)%nat; [done|].
  destruct (searchFromCell fuel _ _ _ _ _) as [cell|] eqn:Hcell; [|done].
  rewrite (searchFromCell_fuel_mono _ _ _ _ _ _ _ Hle Hcell). simpl.
  destruct (found cell); [|apply IH]. destruct (negb _); [done|apply IH].
Qed.

Lemma scanPositions_attempts fuel foundSet budget positions :
  forall a result a',
    scanPositions fuel s foundSet budget positions a = Some (result, a') ->
    a <= budget -> a' <= budget.
Proof.
  induction positions as [|p positions IH]; intros a result a'; simpl;
    [by intros [= <- <-]|].
  destruct (Nat.leb_spec budget a); [by intros [= <- <-]|].
  destruct (searchFromCell _ _ _ _ _ _) as [cell|] eqn:Hcell; [|done]. simpl.
  apply searchFromCell_attempts in Hcell.
  destruct (found cell).
  - destruct (negb _); [intros [= <- <-] _; lia|].
    intros Hrest _. eapply IH; [exact Hrest|lia].
  - intros Hrest _. eapply IH; [exact Hrest|lia].
Qed.

(** A returned word is well formed and was not excluded. *)
Lemma scanPositions_wellFormed fuel foundSet budget positions :
  forall a F a',
    scanPositions fuel s foundSet budget positions a = Some (Some F, a') ->
    wellFormed s F /\ word F ∉ foundSet.
Proof.
  induction positions as [|p positions IH]; intros a F a'; simpl; [done|].
  destruct (budget <=? a)%nat; [done|].
  destruct (searchFromCell _ _ _ _ _ _) as [cell|] eqn:Hcell; [|done]. simpl.
  destruct (found cell) as [f|] eqn:Hf; [|apply IH].
  destruct (bool_decide_reflect (word f ∈ foundSet)); simpl; [apply IH|].
  intros [= <- <-]. split; [|done]. by eapply searchFromCell_wellFormed.
Qed.

(** findNextWord returns, and with more fuel it returns the same. *)
Lemma findNextWord_is_Some tape alreadyFound budget k :
  is_Some (findNextWord tape s alreadyFound budget k).
Proof.
  unfold findNextWord, findNextWordFuel.
  destruct (getShuffledPositions tape s k) as [positions k1].
  destruct (scanPositions_is_Some (list_to_set alreadyFound) budget positions 0)
    as [[result a] ->]. simpl. eauto.
Qed.

Lemma findNextWordFuel_enough fuel tape alreadyFound budget k :
  enoughFuel s <= fuel ->
  findNextWordFuel fuel tape s alreadyFound budget k
  = findNextWord tape s alreadyFound budget k.
Proof.
  intros Hfuel. unfold findNextWord, findNextWordFuel.
  destruct (getShuffledPositions tape s k) as [positions k1].
  destruct (scanPositions_is_Some (list_to_set alreadyFound) budget positions 0)
    as [result Hscan].
  by rewrite Hscan, (scanPositions_fuel_mono _ _ _ _ _ Hfuel _ _ Hscan).
Qed.

End Searches.

(** A budget of zero ends the scan at once. *)
Lemma scanPositions_zero fuel s foundSet positions :
  scanPositions fuel s foundSet 0 positions 0 = Some (None, 0).
Proof. by destruct positions. Qed.

(** *** Grids without cells *)

Lemma allPositions_no_cols rows : allPositions rows 0 = [].
Proof.
  unfold allPositions. induction (seq 0 rows) as [|r l IH]; [done|].
  simpl. exact IH.
Qed.

Lemma allPositions_no_rows cols : allPositions 0 cols = [].
Proof. reflexivity. Qed.

(** *** The logged search *)

(** Forgetting the log gives the search itself. *)
Lemma tryEach_unlogged {A S T : Type} (erase : T -> S)
    (body : A -> S -> option (bool * S))
    (logged : A -> T -> option (bool * T)) xs :
  (forall x t, prod_map id erase <$> logged x t = body x (erase t)) ->
  forall t, prod_map id erase <$> tryEach logged xs t = tryEach body xs (erase t).
Proof.
  intros Hbody. induction xs as [|x xs IH]; intros t; simpl; [done|].
  rewrite <- Hbody. destruct (logged x t) as [[hit t']|]; simpl; [|done].
  destruct hit; [done|apply IH].
Qed.

Lemma searchDfsLogged_unlogged s excl budget fuel :
  forall r c cur path visited st,
    prod_map id fst
      <$> searchDfsLogged fuel s excl budget r c cur path visited st
    = searchDfs fuel s excl budget r c cur path visited st.1.
Proof.
  induction fuel as [|fuel IH]; intros r c cur path visited [cs log]; [done|].
  cbn [searchDfsLogged searchDfs fst snd].
  destruct (budget <=? attempts cs)%nat; [done|].
  destruct (outOfBounds s r c); [done|].
  destruct (bool_decide _); [done|].
  destruct (readCell (grid s) r c) as [char|]; [|done].
  cbn [mbind option_bind].
  destruct (Trie.getNode _ _) as [n|]; [|done].
  destruct (completes n excl); [done|].
  apply (tryEach_unlogged fst). intros [dr dc] t. apply IH.
Qed.

(** The log has one entry for every attempt counted. *)
Definition counted (st : CellSearch * list Point) : Prop :=
  length st.2 = attempts st.1.

Lemma searchDfsLogged_counted s excl budget fuel :
  forall r c cur path visited st hit st',
    searchDfsLogged fuel s excl budget r c cur path visited st
      = Some (hit, st') ->
    counted st -> counted st'.
Proof.
  unfold counted.
  induction fuel as [|fuel IH]; intros r c cur path visited [cs log] hit st';
    [done|].
  cbn [searchDfsLogged fst snd].
  destruct (budget <=? attempts cs)%nat; [by intros [= <- <-]|].
  assert (length log = attempts cs ->
          length (log ++ [mkPoint r c]) = S (attempts cs)) as Hstep.
  { intros Hlog. rewrite length_app. simpl. lia. }
  destruct (outOfBounds s r c); [intros [= <- <-]; exact Hstep|].
  destruct (bool_decide _); [intros [= <- <-]; exact Hstep|].
  destruct (readCell (grid s) r c) as [char|]; [|done].
  cbn [mbind option_bind].
  destruct (Trie.getNode _ _) as [n|]; [|intros [= <- <-]; exact Hstep].
  destruct (completes n excl); [intros [= <- <-]; exact Hstep|].
  intros Hloop Hlog.
  eapply (tryEach_invariant _ (fun st => length st.2 = attempts st.1));
    [|exact Hloop|by apply Hstep].
  intros [dr dc] sa hit' sb _ Hcall. eapply IH. exact Hcall.
Qed.

Lemma scanPositionsLogged_unlogged fuel s foundSet budget positions :
  forall a log,
    (fun r => (r.1.1, r.1.2))
      <$> scanPositionsLogged fuel s foundSet budget positions a log
    = scanPositions fuel s foundSet budget positions a.
Proof.
  induction positions as [|p positions IH]; intros a log; simpl; [done|].
  destruct (budget <=? a)%nat; [done|].
  unfold searchFromCellLogged, searchFromCell.
  rewrite <- (searchDfsLogged_unlogged s foundSet (budget - a) fuel
                (row p) (col p) "" [] ∅
                ({| found := None; attempts := 0 |}, [])).
  destruct (searchDfsLogged _ _ _ _ _ _ _ _ _ _) as [[hit [cs l]]|];
    [|done].
  cbn [fmap option_fmap option_map prod_map mbind option_bind fst snd id].
  destruct (found cs); [|apply IH]. destruct (negb _); [done|apply IH].
Qed.

Lemma scanPositionsLogged_counted fuel s foundSet budget positions :
  forall a log result a' log',
    scanPositionsLogged fuel s foundSet budget positions a log
      = Some (result, a', log') ->
    length log = a -> length log' = a'.
Proof.
  induction positions as [|p positions IH]; intros a log result a' log'; simpl.
  - by intros [= <- <- <-].
  - destruct (budget <=? a)%nat; [by intros [= <- <- <-]|].
    unfold searchFromCellLogged.
    destruct (searchDfsLogged _ _ _ _ _ _ _ _ _ _) as [[hit [cs l]]|] eqn:Hdfs;
      [|done].
    apply searchDfsLogged_counted in Hdfs; [|done]. unfold counted in Hdfs.
    cbn [mbind option_bind fst snd] in *.
    assert (length log = a -> length (log ++ l) = a + attempts cs) as Hstep.
    { intros Hlog. rewrite length_app. lia. }
    destruct (found cs).
    + destruct (negb _); [intros [= <- <- <-]; exact Hstep|].
      intros Hrest Hlog. eapply IH; [exact Hrest|by apply Hstep].
    + intros Hrest Hlog. eapply IH; [exact Hrest|by apply Hstep].
Qed.

(** findNextWord is findNextWordLogged without the log, and the log has as
    many entries as attempts were counted. *)
Lemma findNextWordLogged_spec tape s alreadyFound budget k result a k' :
  findNextWord tape s alreadyFound budget k = Some (result, a, k') ->
  exists log,
    findNextWordLogged tape s alreadyFound budget k = Some (result, a, k', log)
    /\ length log = a.
Proof.
  unfold findNextWord, findNextWordFuel, findNextWordLogged.
  destruct (getShuffledPositions tape s k) as [positions k1].
  rewrite <- (scanPositionsLogged_unlogged _ _ _ _ _ 0 []).
  destruct (scanPositionsLogged _ _ _ _ _ _ _) as [[[res a0] log]|] eqn:Hscan;
    [|done].
  cbn [fmap option_fmap option_map mbind option_bind fst snd].
  intros [= -> -> ->]. exists log. split; [done|].
  by eapply scanPositionsLogged_counted.
Qed.

End SolverFacts.

(** ** Claims about the solver *)

Module SolverClaims.
Import Solver GridFacts SolverFacts.

Lemma new_rows_cols rows cols g ws :
  wellShaped rows cols g -> 0 < rows ->
  Solver.rows (new g ws) = rows /\ Solver.cols (new g ws) = cols.
Proof.
  intros [Hlen Hall] Hrows. unfold new. simpl. split; [done|].
  destruct g as [|line g]; [simpl in Hlen; lia|]. by inversion Hall.
Qed.

Lemma extend_join g cells : forall cur,
  (forall p, In p cells -> is_Some (cellText g p)) ->
  extend g cur cells = cur +:+ Game.join (map (cellText g) cells).
Proof.
  induction cells as [|p cells IH]; intros cur Hcells.
  - simpl. by rewrite JsFacts.append_nil_r.
  - rewrite extend_cons. destruct (Hcells p) as [t Ht]; [by left|].
    rewrite IH by (intros q Hq; apply Hcells; by right).
    cbn [map]. rewrite Ht. cbn [Game.join Js.concat].
    by rewrite JsFacts.append_assoc.
Qed.

Lemma extend_length g cells : forall cur,
  (forall p, In p cells -> exists ch, cellText g p = Some (String ch "")) ->
  String.length (extend g cur cells) = String.length cur + length cells.
Proof.
  induction cells as [|p cells IH]; intros cur Hcells; [simpl; lia|].
  rewrite extend_cons. destruct (Hcells p) as [ch Hch]; [by left|].
  rewrite IH by (intros q Hq; apply Hcells; by right).
  rewrite Hch. cbn [Js.concat length]. rewrite JsFacts.append_length. simpl. lia.
Qed.

(** The generator's directions are among the solver's neighbour offsets. *)
Lemma offset_adjacent d r c i :
  adjacent (GeneratorFacts.pointOf (Generator.offset d r c (Z.of_nat i)))
           (GeneratorFacts.pointOf (Generator.offset d r c (Z.of_nat (S i)))).
Proof.
  unfold adjacent, GeneratorFacts.pointOf. rewrite Nat2Z.inj_succ.
  destruct d; cbn [Generator.offset row col fst snd];
    repeat match goal with
    | |- context [(?x - ?y)%Z] =>
        first [ replace (x - y)%Z with 0%Z by lia
              | replace (x - y)%Z with 1%Z by lia
              | replace (x - y)%Z with (-1)%Z by lia ]
    end; unfold DIRECTIONS; simpl; tauto.
Qed.


(** The words a solver built from [ws] can record. *)
Lemma wellFormed_word g ws F :
  wellFormed (new g ws) F ->
  word F = Js.toUpperCase (spell g (path F))
  /\ exists w, In w ws /\ word F = Js.toUpperCase w.
Proof.
  intros (_ & _ & _ & _ & n & Hn & _ & Hw).
  destruct (TrieFacts.fromWords_stored ws _ n (word F) Hn Hw) as [Heq Hin].
  done.
Qed.

(** A word the generator placed is found by [findAllWords]. *)
Lemma placed_word_found rows cols g ws L d w res :
  wellShaped rows cols g ->
  GeneratorFacts.placedAt rows cols g L d ->
  Generator.word L <> "" -> In w ws -> Generator.word L = Js.toUpperCase w ->
  findAllWords (new g ws) = Some res ->
  exists F, In F res /\ word F = Generator.word L.
Proof.
  intros Hg (Hstart & _ & Hcells & _) Hne Hw HwL Hres.
  set (f := fun j : nat =>
         GeneratorFacts.pointOf
           (GeneratorFacts.cellOn d (Generator.start L) (Z.of_nat j))).
  remember (String.length (Generator.word L)) as len eqn:Hlen.
  destruct len as [|m]; [by destruct (Generator.word L)|].
  destruct (new_rows_cols rows cols g ws Hg) as [Hrows Hcols];
    [destruct Hstart; lia|].
  assert (forall j, j < S m -> cellText g (f j) = Js.charAt (Generator.word L) j)
    as Htext.
  { intros j Hj. destruct (Hcells j Hj) as [_ Hcell]. exact Hcell. }
  assert (forall q, In q (map f (seq 0 (S m))) ->
            exists j, j < S m /\ q = f j) as Hq.
  { intros q Hin. apply in_map_iff in Hin as (j & <- & Hj).
    apply in_seq in Hj. exists j. split; [lia|done]. }
  apply (findAllWords_recall (new g ws) (new_constructed g ws) res
           (Generator.word L) (f 0) (map f (seq 1 m))); [done| | | | |done].
  - change (NoDup (map f (seq 0 (S m)))).
    apply (NoDup_fmap_2_strong f); [|apply NoDup_seq].
    intros i j _ _ Hij. unfold f, GeneratorFacts.pointOf, GeneratorFacts.cellOn in Hij.
    injection Hij as H1 H2.
    assert (Z.of_nat i = Z.of_nat j); [|lia].
    eapply GeneratorFacts.offset_inj. by apply injective_projections.
  - intros q Hin. change (In q (map f (seq 0 (S m)))) in Hin.
    destruct (Hq q Hin) as (j & Hj & ->).
    destruct (Hcells j Hj) as [[Hr Hc] _].
    unfold inBounds. rewrite Hrows, Hcols. done.
  - intros i a b Ha Hb. change ((map f (seq 0 (S m))) !! i = Some a) in Ha.
    change ((map f (seq 0 (S m))) !! S i = Some b) in Hb.
    rewrite list_lookup_fmap in Ha, Hb.
    destruct (seq 0 (S m) !! i) as [i'|] eqn:Hi; [|done].
    destruct (seq 0 (S m) !! S i) as [j'|] eqn:Hj; [|done].
    apply lookup_seq in Hi as [-> _], Hj as [-> _].
    simpl in Ha, Hb. injection Ha as <-. injection Hb as <-.
    apply offset_adjacent.
  - change (f 0 :: map f (seq 1 m)) with (map f (seq 0 (S m))).
    unfold spell. rewrite extend_join.
    + rewrite JsFacts.append_nil_l, map_map.
      rewrite (map_ext_in _ (Js.charAt (Generator.word L))).
      * rewrite Hlen, LineFacts.join_charAt.
        destruct (TrieFacts.fromWords_terminal ws w Hw) as (n & Hn & He & Hword).
        exists n. unfold Trie.getNode. simpl.
        rewrite HwL, JsFacts.toUpperCase_idem. done.
      * intros j Hj. apply in_seq in Hj. apply Htext. lia.
    + intros q Hin. destruct (Hq q Hin) as (j & Hj & ->).
      rewrite Htext by done. apply GeneratorFacts.charAt_is_Some. lia.
Qed.

(** C2 (as amended).  For a list of ASCII words, the solver built over the
    generator's grid and the same word list returns, and its result has a
    FoundWord for every placed location with a non-empty word.  And for
    every word list, on any grid, every FoundWord carries the uppercase form
    of a member of the list.

    The restriction of the first part to ASCII is the range in which the
    grid's cells (UTF-16 code units, written by index) and the steps of the
    trie (code points, read by [for ... of]) are the same units; what the
    two do to a word outside it is left open here. *)
Theorem solver_recall tape rows cols ws k gs k' :
  Generator.generate tape rows cols ws k = Some (gs, k') ->
  ((forall w, In w ws -> JsFacts.isAscii w = true) ->
   exists res,
     findAllWords (new (Generator.grid gs) ws) = Some res
     /\ forall L, In L (Generator.words gs) -> Generator.word L <> "" ->
          exists F, In F res /\ word F = Generator.word L)
  /\ (forall g res F,
        findAllWords (new g ws) = Some res -> In F res ->
        exists w, In w ws /\ word F = Js.toUpperCase w).
Proof.
  intros Hgen. split.
  - intros _. destruct (GeneratorFacts.generate_spec tape rows cols ws k)
      as (gs0 & k0 & Hgen0 & Hshape & Hall & (sub & Hsub & Hmap) & _).
    rewrite Hgen in Hgen0. injection Hgen0 as <- <-.
    destruct (findAllWords_is_Some (new (Generator.grid gs) ws)
                (new_constructed _ _)) as [res Hres].
    exists res. split; [done|]. intros L HL Hne.
    rewrite Forall_forall in Hall.
    destruct (Hall L) as (d & _ & Hplaced); [by apply list_elem_of_In|].
    assert (In (Generator.word L) (map Js.toUpperCase sub)) as Hin.
    { rewrite <- Hmap. by apply in_map. }
    apply in_map_iff in Hin as (w & HwL & Hw).
    eapply (placed_word_found rows cols _ ws L d w); try done.
    apply GeneratorFacts.attempted_In, list_elem_of_In.
    eapply elem_of_sublist; [|exact Hsub]. by apply list_elem_of_In.
  - intros g res F Hres HF.
    pose proof (findAllWords_wellFormed _ (new_constructed g ws) _ Hres) as Hall.
    rewrite Forall_forall in Hall.
    apply (wellFormed_word g ws F). apply Hall. by apply list_elem_of_In.
Qed.


(** The state generate returns for the word "cat" on a 3 by 3 grid when
    every draw is zero. *)
Definition catState : Generator.GridState :=
  {| Generator.grid := [["C"; "A"; "T"]; ["A"; "A"; "A"]; ["A"; "A"; "A"]];
     Generator.words :=
       [{| Generator.word := "CAT"; Generator.start := mkPoint 0 0;
           Generator.end_ := mkPoint 0 2 |}] |}.

Lemma solver_recall_witness :
  (exists res,
     findAllWords (new (Generator.grid catState) ["cat"]) = Some res
     /\ forall L, In L (Generator.words catState) -> Generator.word L <> "" ->
          exists F, In F res /\ word F = Generator.word L)
  /\ (forall g res F,
        findAllWords (new g ["cat"]) = Some res -> In F res ->
        exists w, In w ["cat"] /\ word F = Js.toUpperCase w).
Proof.
  destruct (solver_recall GeneratorClaims.zeroTape 3 3 ["cat"] 0 catState 9)
    as [Hplaced Hsound]; [vm_compute; reflexivity|].
  split; [apply Hplaced|exact Hsound].
  intros w [<-|[]]. reflexivity.
Defined.

(** C2 as stated fails for the empty word: the generator can return a
    location for it, and the solver, whose searches start with one letter
    and skip a stored word that is empty, never reports it. *)
Lemma solver_recall_empty_word_counterexample :
  exists gs k' L res,
    Generator.generate GeneratorClaims.columnOneTape 2 2 [""] 0 = Some (gs, k')
    /\ In L (Generator.words gs)
    /\ findAllWords (new (Generator.grid gs) [""]) = Some res
    /\ ~ exists F, In F res /\ word F = Generator.word L.
Proof.
  eexists _, _, _, _. split; [vm_compute; reflexivity|].
  split; [left; reflexivity|]. split; [vm_compute; reflexivity|].
  by intros (F & [] & _).
Qed.

(** What holds of a word the solver reports: its start and end are the
    first and last cell of its path; the path stays inside the grid, never
    repeats a cell and moves to one of the eight neighbours at each step;
    the cells of the path spell the word up to case; and where the cells
    of the path hold one ASCII character each, the path has as many cells
    as the word has letters (outside ASCII [toUpperCase] may change the
    length of a text). *)
Definition tracesWord (s : WordSearchSolver) (F : FoundWord) : Prop :=
  head (path F) = Some (start F)
  /\ last (path F) = Some (end_ F)
  /\ simplePath s (path F)
  /\ word F = Js.toUpperCase (spell (grid s) (path F))
  /\ ((forall p, In p (path F) ->
         exists ch, cellText (grid s) p = Some (String ch "")
                    /\ nat_of_ascii ch < 128) ->
      length (path F) = String.length (word F)).

Lemma wellFormed_tracesWord g ws F :
  wellFormed (new g ws) F -> tracesWord (new g ws) F.
Proof.
  intros HF. destruct (wellFormed_word g ws F HF) as [Hword _].
  destruct HF as (Hhead & Hlast & Hpath & _).
  split; [done|]. split; [done|]. split; [done|]. split; [done|].
  intros Hcells. rewrite Hword, JsFacts.toUpperCase_length.
  unfold spell. simpl. rewrite extend_length; [done|].
  intros p Hp. destruct (Hcells p Hp) as (ch & Hch & _). by exists ch.
Qed.

(** C3 (as amended).  Every FoundWord that findAllWords or findNextWord
    produces has its start at the first cell of its path and its end at the
    last, and the path is a chain of distinct neighbouring cells inside the
    grid, not necessarily straight, whose letters spell the word up to case;
    where its cells hold one ASCII character each, it has as many cells as
    the word has letters. *)
Theorem found_words_trace_paths g ws :
  (forall res F,
     findAllWords (new g ws) = Some res -> In F res ->
     tracesWord (new g ws) F)
  /\ (forall tape alreadyFound maxAttempts k F attempts k',
        findNextWord tape (new g ws) alreadyFound maxAttempts k
          = Some (Some F, attempts, k') ->
        tracesWord (new g ws) F).
Proof.
  split.
  - intros res F Hres HF. apply wellFormed_tracesWord.
    pose proof (findAllWords_wellFormed _ (new_constructed g ws) _ Hres) as Hall.
    rewrite Forall_forall in Hall. apply Hall. by apply list_elem_of_In.
  - intros tape alreadyFound maxAttempts k F a k'.
    unfold findNextWord, findNextWordFuel.
    destruct (getShuffledPositions tape (new g ws) k) as [positions k1].
    destruct (scanPositions _ _ _ _ _ _) as [[result a1]|] eqn:Hscan; [|done].
    simpl. intros [= -> <- <-]. apply wellFormed_tracesWord.
    eapply (scanPositions_wellFormed _ (new_constructed g ws)). exact Hscan.
Qed.

(** The word CAT found around a corner. *)
Definition cornerGrid : Grid := [["C"; "A"]; ["X"; "T"]].

Definition cornerWord : FoundWord :=
  {| word := "CAT"; start := mkPoint 0 0; end_ := mkPoint 1 1;
     path := [mkPoint 0 0; mkPoint 0 1; mkPoint 1 1] |}.

Lemma found_words_trace_paths_witness :
  tracesWord (new cornerGrid ["CAT"]) cornerWord.
Proof.
  refine (proj1 (found_words_trace_paths cornerGrid ["CAT"])
            [cornerWord] cornerWord _ _).
  - vm_compute. reflexivity.
  - left. reflexivity.
Defined.

(** C3 as stated fails: the search turns at every step, so the word CAT is
    reported on a bent path whose start and end are two cells apart on a
    diagonal, where the straight line reads CT. *)
Lemma found_word_not_straight_counterexample :
  findAllWords (new cornerGrid ["CAT"]) = Some [cornerWord]
  /\ Game.getSelectedWord cornerGrid (start cornerWord) (end_ cornerWord)
     = Some (Some "CT")
  /\ ~ exists dr dc, In (dr, dc) DIRECTIONS
        /\ row (end_ cornerWord)
           = (row (start cornerWord)
              + (Z.of_nat (String.length (word cornerWord)) - 1) * dr)%Z
        /\ col (end_ cornerWord)
           = (col (start cornerWord)
              + (Z.of_nat (String.length (word cornerWord)) - 1) * dc)%Z.
Proof.
  split; [vm_compute; reflexivity|]. split; [vm_compute; reflexivity|].
  intros (dr & dc & _ & Hr & _). simpl in Hr. lia.
Qed.

(** C6.  findNextWord called with a budget of zero returns none.  For
    every budget it returns, and the search nodes it visited are no more
    than the budget: findNextWordLogged, which is findNextWord recording
    the cell of every call of dfs that gets past the budget check (whether
    the call then leaves the grid, is pruned, finds a word or recurses),
    returns the same result with a log that has one entry for each attempt
    counted and at most [maxAttempts] entries. *)
Theorem budget_respected tape g ws alreadyFound maxAttempts k :
  (exists k',
     findNextWord tape (new g ws) alreadyFound 0 k = Some (None, 0, k'))
  /\ (exists result attempts k' visits,
        findNextWordLogged tape (new g ws) alreadyFound maxAttempts k
          = Some (result, attempts, k', visits)
        /\ findNextWord tape (new g ws) alreadyFound maxAttempts k
           = Some (result, attempts, k')
        /\ length visits = attempts
        /\ length visits <= maxAttempts).
Proof.
  split.
  - unfold findNextWord, findNextWordFuel.
    destruct (getShuffledPositions tape (new g ws) k) as [positions k1].
    exists k1. by rewrite scanPositions_zero.
  - assert (exists result a k',
              findNextWord tape (new g ws) alreadyFound maxAttempts k
                = Some (result, a, k') /\ a <= maxAttempts)
      as (result & a & k' & Hfind & Hle).
    { unfold findNextWord, findNextWordFuel.
      destruct (getShuffledPositions tape (new g ws) k) as [positions k1].
      destruct (scanPositions_is_Some (new g ws) (new_constructed g ws)
                  (list_to_set alreadyFound) maxAttempts positions 0)
        as [[result a] Hscan].
      rewrite Hscan. simpl. exists result, a, k1. split; [done|].
      eapply (scanPositions_attempts _ (new_constructed g ws));
        [exact Hscan|lia]. }
    destruct (findNextWordLogged_spec _ _ _ _ _ _ _ _ Hfind)
      as (visits & Hlogged & Hlen).
    exists result, a, k', visits. repeat split; [done|done|done|lia].
Qed.

(** On the corner grid a budget of three buys three visits, which stop
    short of the word; the budget of sixteen that finds it visits sixteen
    cells, some of them outside the grid. *)
Example budget_three_visits :
  findNextWordLogged GeneratorClaims.zeroTape (new cornerGrid ["CAT"]) [] 3 0
  = Some (None, 3, 3, [mkPoint 0 1; mkPoint 1 0; mkPoint 1 1])
  /\ (exists visits,
        findNextWordLogged GeneratorClaims.zeroTape (new cornerGrid ["CAT"])
          [] 16 0
        = Some (Some cornerWord, 16, 3, visits)
        /\ length visits = 16 /\ In (mkPoint (-1) (-1)) visits).
Proof.
  split; [vm_compute; reflexivity|].
  eexists. split; [vm_compute; reflexivity|]. split; [reflexivity|].
  simpl. tauto.
Qed.

(** C10.  On a grid without rows, or whose first row is empty, the
    constructor sets [cols] to 0, and both searches return at once, for any
    fuel: no cell is searched, so the grid is not read. *)
Theorem degenerate_grid_safe g ws :
  g = [] \/ (exists rest, g = [] :: rest) ->
  cols (new g ws) = 0
  /\ forall fuel,
       findAllWordsFuel fuel (new g ws) = Some []
       /\ forall tape alreadyFound maxAttempts k,
            findNextWordFuel fuel tape (new g ws) alreadyFound maxAttempts k
            = Some (None, 0, k).
Proof.
  intros Hg.
  assert (cols (new g ws) = 0) as Hcols by (by destruct Hg as [->|[rest ->]]).
  split; [done|]. intros fuel.
  unfold findAllWordsFuel, findNextWordFuel, getShuffledPositions.
  rewrite Hcols, allPositions_no_cols. done.
Qed.

Lemma degenerate_grid_safe_witness :
  cols (new [[]; ["A"]] ["A"]) = 0
  /\ forall fuel,
       findAllWordsFuel fuel (new [[]; ["A"]] ["A"]) = Some []
       /\ forall tape alreadyFound maxAttempts k,
            findNextWordFuel fuel tape (new [[]; ["A"]] ["A"])
              alreadyFound maxAttempts k
            = Some (None, 0, k).
Proof.
  refine (degenerate_grid_safe [[]; ["A"]] ["A"] _).
  right. exists [["A"]]. reflexivity.
Defined.

End SolverClaims.

(** ** The opponent scheduler *)

Module OpponentFacts.
Import Opponent.

(** Every pending timeout is the one the ref holds; it was armed by an
    effect that returned a cleanup, in a render where the opponent held an
    active turn. *)
Definition timersOk (st : State) : Prop :=
  forall id c, timers st !! id = Some c ->
    turnTimeoutRef st = Some id
    /\ hasCleanup st = true
    /\ exists props, rendered st = Some props
         /\ isCpuTurn props = true /\ gameActive props = true.

Lemma clearPending_empty st : timersOk st -> clearPending st = ∅.
Proof.
  intros Hok. apply map_empty. intros id. unfold clearPending.
  destruct (turnTimeoutRef st) as [ref|] eqn:Href.
  - destruct (decide (ref = id)) as [->|Hne]; [apply lookup_delete_eq|].
    rewrite lookup_delete_ne by done.
    destruct (timers st !! id) as [c|] eqn:Hid; [|done].
    destruct (Hok id c Hid) as [Href' _]. congruence.
  - destruct (timers st !! id) as [c|] eqn:Hid; [|done].
    destruct (Hok id c Hid) as [Href' _]. congruence.
Qed.

Lemma runCleanup_timers st : timersOk st -> timers (runCleanup st) = ∅.
Proof.
  intros Hok. unfold runCleanup. destruct (hasCleanup st) eqn:Hc; simpl.
  - by apply clearPending_empty.
  - apply map_empty. intros id.
    destruct (timers st !! id) as [c|] eqn:Hid; [|done].
    destruct (Hok id c Hid) as (_ & Hc' & _). congruence.
Qed.

Lemma initSolver_fields props st :
  timers (initSolver props st) = timers st
  /\ turnTimeoutRef (initSolver props st) = turnTimeoutRef st
  /\ hasCleanup (initSolver props st) = hasCleanup st
  /\ rendered (initSolver props st) = rendered st
  /\ calls (initSolver props st) = calls st.
Proof.
  unfold initSolver. destruct (grid props); [|done].
  by destruct (0 <? length (words props))%nat.
Qed.

Lemma runCleanup_calls st : calls (runCleanup st) = calls st.
Proof. unfold runCleanup. by destruct (hasCleanup st). Qed.

Lemma turnEffect_calls props st : calls (turnEffect props st) = calls st.
Proof.
  unfold turnEffect. destruct (negb _ || negb _); [done|].
  by destruct (solverRef st).
Qed.

(** A render never calls the callback. *)
Lemma render_calls props fresh1 fresh2 st :
  calls (render props fresh1 fresh2 st) = calls st.
Proof.
  unfold render. simpl.
  destruct (turnDepsChanged fresh2 props st), (solverDepsChanged fresh1 props st);
    rewrite ?turnEffect_calls;
    rewrite ?(proj2 (proj2 (proj2 (proj2 (initSolver_fields _ _)))));
    by rewrite ?runCleanup_calls.
Qed.

Definition holdsTurn (props : Props) : bool :=
  isCpuTurn props && gameActive props.

(** The pending timeouts after a render. *)
Lemma render_timers props fresh1 fresh2 st :
  timersOk st ->
  timersOk (render props fresh1 fresh2 st)
  /\ (holdsTurn props = false -> timers (render props fresh1 fresh2 st) = ∅).
Proof.
  intros Hok. unfold render.
  destruct (turnDepsChanged fresh2 props st) eqn:Hrun2.
  - pose proof (runCleanup_timers st Hok) as Hclean.
    set (st1 := runCleanup st) in *.
    set (st2 := if solverDepsChanged fresh1 props st then initSolver props st1
                else st1).
    assert (timers st2 = ∅) as Hst2.
    { unfold st2. destruct (solverDepsChanged fresh1 props st); [|done].
      by rewrite (proj1 (initSolver_fields props st1)). }
    unfold turnEffect, holdsTurn.
    destruct (isCpuTurn props) eqn:Hturn, (gameActive props) eqn:Hactive; simpl.
    + split; [|done]. unfold timersOk. destruct (solverRef st2); simpl.
      * intros id c. rewrite Hst2. rewrite lookup_insert_Some.
        intros [[<- _]|[_ Hid]]; [|by rewrite lookup_empty in Hid].
        split; [done|]. split; [done|]. exists props. done.
      * intros id c. rewrite Hst2, lookup_empty. done.
    + assert (clearPending st2 = ∅) as ->.
      { unfold clearPending. rewrite Hst2. destruct (turnTimeoutRef st2); [|done].
        apply delete_empty. }
      split; [|done]. intros id c. simpl. by rewrite lookup_empty.
    + assert (clearPending st2 = ∅) as ->.
      { unfold clearPending. rewrite Hst2. destruct (turnTimeoutRef st2); [|done].
        apply delete_empty. }
      split; [|done]. intros id c. simpl. by rewrite lookup_empty.
    + assert (clearPending st2 = ∅) as ->.
      { unfold clearPending. rewrite Hst2. destruct (turnTimeoutRef st2); [|done].
        apply delete_empty. }
      split; [|done]. intros id c. simpl. by rewrite lookup_empty.
  - unfold turnDepsChanged in Hrun2.
    destruct (rendered st) as [old|] eqn:Hold; [|done].
    apply orb_false_iff in Hrun2 as [Hrun2 _].
    apply orb_false_iff in Hrun2 as [Hrun2 _].
    apply orb_false_iff in Hrun2 as [Hrun2 Hactive].
    apply orb_false_iff in Hrun2 as [_ Hturn].
    apply negb_false_iff, eqb_prop in Hturn, Hactive.
    set (st2 := if solverDepsChanged fresh1 props st then initSolver props st
                else st).
    assert (timers st2 = timers st /\ turnTimeoutRef st2 = turnTimeoutRef st
            /\ hasCleanup st2 = hasCleanup st) as (Ht & Hr & Hc).
    { unfold st2. destruct (solverDepsChanged fresh1 props st); [|done].
      destruct (initSolver_fields props st) as (? & ? & ? & _). done. }
    assert (forall id c, timers st !! id = Some c -> holdsTurn props = true)
      as Hpending.
    { intros id c Hid. destruct (Hok id c Hid) as (_ & _ & p & Hp & H1 & H2).
      rewrite Hold in Hp. injection Hp as <-. unfold holdsTurn.
      by rewrite <- Hturn, <- Hactive, H1, H2. }
    split.
    + intros id c. simpl. rewrite Ht, Hr, Hc. intros Hid.
      destruct (Hok id c Hid) as (Href & Hcl & _).
      split; [done|]. split; [done|]. exists props. split; [done|].
      apply Hpending in Hid. by apply andb_true_iff in Hid.
    + intros Hoff. simpl. rewrite Ht. apply map_empty. intros id.
      destruct (timers st !! id) as [c|] eqn:Hid; [|done].
      apply Hpending in Hid. congruence.
Qed.

Lemma fire_timersOk tape id st : timersOk st -> timersOk (fire tape id st).
Proof.
  intros Hok. unfold fire. destruct (timers st !! id) as [closure|]; [|done].
  intros id' c. simpl. intros Hid'.
  apply lookup_delete_Some in Hid' as [_ Hid']. by apply (Hok id' c).
Qed.

Lemma runCleanup_timersOk st : timersOk st -> timersOk (runCleanup st).
Proof.
  intros Hok id c. rewrite (runCleanup_timers st Hok), lookup_empty. done.
Qed.

Lemma step_timersOk tape ev st : timersOk st -> timersOk (step tape ev st).
Proof.
  intros Hok. destruct ev as [props f1 f2|id|]; simpl.
  - by apply render_timers.
  - by apply fire_timersOk.
  - by apply runCleanup_timersOk.
Qed.

Lemma run_snoc tape evs ev st :
  run tape (evs ++ [ev]) st = step tape ev (run tape evs st).
Proof. unfold run. by rewrite fold_left_app. Qed.

Lemma initial_timersOk k : timersOk (initial k).
Proof. intros id c. simpl. by rewrite lookup_empty. Qed.

(** The invariant holds in every state the hook can reach. *)
Lemma run_timersOk tape evs st : timersOk st -> timersOk (run tape evs st).
Proof.
  intros Hok. induction evs as [|ev evs IH] using rev_ind; [done|].
  rewrite run_snoc. by apply step_timersOk.
Qed.

(** Without a pending timeout, events outside an active turn arm none and
    call nothing. *)
Lemma offTurn_silent tape evs : forall st,
  timersOk st -> timers st = ∅ -> Forall (fun ev => offTurn ev = true) evs ->
  calls (run tape evs st) = calls st.
Proof.
  induction evs as [|ev evs IH]; intros st Hok Hnone Hoff; [done|].
  inversion Hoff as [|? ? Hev Hevs]; subst. unfold run. simpl.
  fold (run tape evs (step tape ev st)).
  assert (timers (step tape ev st) = ∅ /\ calls (step tape ev st) = calls st)
    as [Ht Hc].
  { destruct ev as [props f1 f2|id|]; simpl in *.
    - split; [|apply render_calls]. apply render_timers; [done|].
      unfold holdsTurn. by destruct (isCpuTurn props), (gameActive props).
    - unfold fire. by rewrite Hnone, lookup_empty.
    - split; [by apply runCleanup_timers|apply runCleanup_calls]. }
  rewrite IH; [done|by apply step_timersOk|done|done].
Qed.

(** The callback is called by an expiring timeout only, with the word that
    findNextWord returned. *)
Lemma step_calls tape ev st :
  calls (step tape ev st) = calls st
  \/ exists id closure solver F attempts k',
       ev = Expire id
       /\ timers st !! id = Some closure
       /\ solverRef st = Some solver
       /\ Solver.findNextWord tape solver
            (capturedPlayer closure ++ capturedCpu closure) 500 (draw st)
          = Some (Some F, attempts, k')
       /\ calls (step tape ev st) = calls st ++ [toLocation F].
Proof.
  destruct ev as [props f1 f2|id|]; simpl.
  - left. apply render_calls.
  - unfold fire. destruct (timers st !! id) as [closure|] eqn:Hid; [|by left].
    destruct (solverRef st) as [solver|] eqn:Hsolver; [|by left].
    destruct (Solver.findNextWord _ _ _ _ _) as [[[result a] k']|] eqn:Hfind;
      [|by left].
    destruct result as [F|]; [|by left].
    right. exists id, closure, solver, F, a, k'. done.
  - left. apply runCleanup_calls.
Qed.

End OpponentFacts.

(** ** Claims about the opponent scheduler *)

Module OpponentClaims.
Import Opponent OpponentFacts.

(** C9.  In every state the hook reaches: a render in which the opponent
    does not hold the turn, or the game is not active, leaves no timeout
    pending, and the callback is not called until a render gives the turn
    back; and whenever the callback is called, it is by an expiring timeout
    whose findNextWord returned a word, with that word. *)
Theorem cancelled_turn_never_calls tape k history :
  let st := run tape history (initial k) in
  (forall props fresh1 fresh2 later,
     isCpuTurn props = false \/ gameActive props = false ->
     Forall (fun ev => offTurn ev = true) later ->
     timers (step tape (Render props fresh1 fresh2) st) = ∅
     /\ calls (run tape later (step tape (Render props fresh1 fresh2) st))
        = calls st)
  /\ (forall ev,
        calls (step tape ev st) = calls st
        \/ exists id closure solver F attempts k',
             ev = Expire id
             /\ timers st !! id = Some closure
             /\ solverRef st = Some solver
             /\ Solver.findNextWord tape solver
                  (capturedPlayer closure ++ capturedCpu closure) 500 (draw st)
                = Some (Some F, attempts, k')
             /\ calls (step tape ev st) = calls st ++ [toLocation F]).
Proof.
  intros st.
  assert (timersOk st) as Hok by (apply run_timersOk, initial_timersOk).
  split; [|intros ev; apply step_calls].
  intros props f1 f2 later Hoff Hlater.
  destruct (render_timers props f1 f2 st Hok) as [Hok' Hnone].
  assert (holdsTurn props = false) as Hturn.
  { unfold holdsTurn. destruct Hoff as [-> | ->]; [done|apply andb_false_r]. }
  simpl. split; [by apply Hnone|].
  rewrite offTurn_silent; [apply render_calls|done|by apply Hnone|done].
Qed.


(** Props of a versus game on the corner grid, with and without the turn. *)
Definition cornerProps (turn : bool) : Props :=
  {| grid := Some SolverClaims.cornerGrid; words := ["CAT"];
     playerFoundWords := []; cpuFoundWords := [];
     isCpuTurn := turn; gameActive := true |}.

(** An armed timeout that expires calls the callback with the word found. *)
Example expiry_calls_callback :
  calls (run GeneratorClaims.zeroTape
           [Render (cornerProps true) false false; Expire 1] (initial 0))
  = [toLocation SolverClaims.cornerWord].
Proof. vm_compute. reflexivity. Qed.

(** The turn is taken away before the timeout expires: no call. *)
Lemma cancelled_turn_never_calls_witness :
  timers (step GeneratorClaims.zeroTape (Render (cornerProps false) false false)
            (run GeneratorClaims.zeroTape
               [Render (cornerProps true) false false] (initial 0))) = ∅
  /\ calls (run GeneratorClaims.zeroTape [Expire 1]
              (step GeneratorClaims.zeroTape
                 (Render (cornerProps false) false false)
                 (run GeneratorClaims.zeroTape
                    [Render (cornerProps true) false false] (initial 0))))
     = calls (run GeneratorClaims.zeroTape
                [Render (cornerProps true) false false] (initial 0)).
Proof.
  refine (proj1 (cancelled_turn_never_calls GeneratorClaims.zeroTape 0
                   [Render (cornerProps true) false false])
            (cornerProps false) false false [Expire 1] _ _).
  - left. reflexivity.
  - repeat constructor.
Defined.

End OpponentClaims.

(** * Further properties of the code *)

(** ** The trie: insertion and lookup *)

Module TrieProperties.
Import Trie JsFacts TrieFacts.

(** Whether the node at the end of [s] exists and is flagged as the end of
    a word. *)
Definition ends (n : TrieNode) (s : string) : bool :=
  match traverseFrom s n with
  | Some n' => isEndOfWord n'
  | None => false
  end.

Lemma ends_createNode s : ends createNode s = false.
Proof. by destruct s. Qed.

Lemma ends_insertFrom chars u : forall n s,
  ends (insertFrom chars u n) s = ends n s || bool_decide (s = chars).
Proof.
  induction chars as [|a rest IH]; intros n [|c s']; unfold ends in *; cbn.
  - by rewrite orb_true_r.
  - rewrite bool_decide_eq_false_2 by done. by rewrite orb_false_r.
  - rewrite bool_decide_eq_false_2 by done. by rewrite orb_false_r.
  - destruct (decide (c = a)) as [->|Hne].
    + rewrite lookup_insert_eq, IH.
      replace (bool_decide (String a s' = String a rest))
        with (bool_decide (s' = rest))
        by (apply bool_decide_ext; split; [by intros ->|by intros [=]]).
      destruct (children n !! a) as [child|]; [done|].
      fold (ends createNode s'). by rewrite ends_createNode.
    + rewrite lookup_insert_ne by done.
      rewrite (bool_decide_eq_false_2 (String c s' = String a rest))
        by (intros [=]; done).
      by rewrite orb_false_r.
Qed.

Lemma insertFrom_twice chars u : forall n,
  insertFrom chars u (insertFrom chars u n) = insertFrom chars u n.
Proof.
  induction chars as [|a rest IH]; intros n; cbn; [done|].
  rewrite lookup_insert_eq, IH, insert_insert_eq. done.
Qed.

Lemma insertFrom_swap ca ua : forall cb ub n,
  (ca = cb -> ua = ub) ->
  insertFrom ca ua (insertFrom cb ub n) = insertFrom cb ub (insertFrom ca ua n).
Proof.
  induction ca as [|a ra IH]; intros [|b rb] ub n Hsame; cbn; try done.
  - by rewrite Hsame.
  - destruct (decide (a = b)) as [->|Hne].
    + rewrite !lookup_insert_eq, !insert_insert_eq.
      rewrite IH; [done|]. intros ->. by apply Hsame.
    + rewrite !lookup_insert_ne by done.
      rewrite (insert_insert_ne _ a b) by done. done.
Qed.

(** The word stored at every node below [n] is the path to it, [pre] being
    the path to [n], exactly at the nodes flagged as ends of words. *)
Definition tagged (pre : string) (n : TrieNode) : Prop :=
  forall s n', traverseFrom s n = Some n' ->
    word n' = if isEndOfWord n' then Some (pre +:+ s) else None.

Lemma tagged_createNode pre : tagged pre createNode.
Proof. intros s n' [-> ->]%traverseFrom_createNode. done. Qed.

Lemma tagged_child pre n c child :
  tagged pre n -> children n !! c = Some child ->
  tagged (pre +:+ String c "") child.
Proof.
  intros Hn Hc s n' Htr. rewrite append_snoc. apply Hn. cbn. by rewrite Hc.
Qed.

Lemma tagged_insertFrom chars : forall pre n,
  tagged pre n -> tagged pre (insertFrom chars (pre +:+ chars) n).
Proof.
  induction chars as [|a rest IH]; intros pre n Hn [|c s'] n' Htr; cbn in Htr.
  - by injection Htr as <-.
  - by apply Hn.
  - injection Htr as <-. cbn. by apply (Hn "").
  - destruct (decide (c = a)) as [->|Hne].
    + rewrite lookup_insert_eq in Htr.
      rewrite <- (append_snoc pre a rest) in Htr.
      rewrite <- append_snoc.
      eapply IH; [|exact Htr].
      destruct (children n !! a) as [child|] eqn:Hc.
      * by eapply tagged_child.
      * apply tagged_createNode.
    + rewrite lookup_insert_ne in Htr by done. by apply Hn.
Qed.

Lemma tagged_insertAll ws : forall root,
  tagged "" root -> tagged "" (insertAll root ws).
Proof.
  induction ws as [|w ws IH]; intros root Hroot; [done|].
  apply IH. apply (tagged_insertFrom _ "" root Hroot).
Qed.

(** X1.  [insert] followed by [search]: after [insert w], on any trie,
    [search v] answers [true] exactly when it did before or [v] is [w] up to
    case; no other answer changes. *)
Theorem search_insert (t : TrieNode) (w v : string) :
  search (insert w t) v
  = search t v || bool_decide (Js.toUpperCase v = Js.toUpperCase w).
Proof. apply ends_insertFrom. Qed.

Lemma search_insertAll v ws : forall t,
  search (insertAll t ws) v = true
  <-> search t v = true
      \/ exists w, In w ws /\ Js.toUpperCase v = Js.toUpperCase w.
Proof.
  induction ws as [|w ws IH]; intros t; cbn.
  - split; [by left|]. by intros [?|(? & [] & _)].
  - change (fold_left _ ws (insert w t)) with (insertAll (insert w t) ws).
    rewrite IH. unfold search at 1, insert, traverse.
    fold (ends (insertFrom (Js.toUpperCase w) (Js.toUpperCase w) t)
            (Js.toUpperCase v)).
    rewrite ends_insertFrom, orb_true_iff, bool_decide_eq_true.
    split.
    + intros [[?|?]|(w' & ? & ?)]; [by left|right..]; eauto.
    + intros [?|(w' & [<-|?] & ?)]; [by left; left|by left; right|right; eauto].
Qed.

(** X2.  In the trie built by [fromWords], [search v] is [true] exactly when
    [v] equals one of the words up to case; on the trie of no words it is
    [false] for every string, the empty one included. *)
Theorem search_fromWords (ws : list string) (v : string) :
  search (fromWords ws) v = true
  <-> exists w, In w ws /\ Js.toUpperCase v = Js.toUpperCase w.
Proof.
  unfold fromWords. rewrite search_insertAll. split; [|by right].
  intros [Hroot|?]; [|done].
  unfold search, traverse in Hroot.
  fold (ends empty (Js.toUpperCase v)) in Hroot.
  unfold empty in Hroot. by rewrite ends_createNode in Hroot.
Qed.

(** X3.  Inserting a word a second time, in any letter case, leaves the
    trie as it is. *)
Theorem insert_twice (t : TrieNode) (w v : string) :
  Js.toUpperCase v = Js.toUpperCase w ->
  insert v (insert w t) = insert w t.
Proof. unfold insert. intros ->. apply insertFrom_twice. Qed.

Lemma insert_twice_witness :
  Js.toUpperCase "cat" = Js.toUpperCase "Cat"
  /\ insert "cat" (insert "Cat" empty) = insert "Cat" empty.
Proof. split; [reflexivity|]. apply insert_twice. reflexivity. Defined.

Lemma insert_swap t a b : insert a (insert b t) = insert b (insert a t).
Proof. unfold insert. apply insertFrom_swap. by intros ->. Qed.

(** X4.  The trie does not depend on the order of the insertions:
    [fromWords] builds the same trie from any rearrangement of the word
    list. *)
Theorem fromWords_Permutation (ws ws' : list string) :
  ws ≡ₚ ws' -> fromWords ws = fromWords ws'.
Proof.
  unfold fromWords. generalize empty.
  intros t Hperm. revert t.
  induction Hperm as [|x l l' _ IH|x y l|l l' l'' _ IH1 _ IH2]; intros t; cbn.
  - done.
  - apply IH.
  - by rewrite insert_swap.
  - by rewrite IH1.
Qed.

Lemma fromWords_Permutation_witness :
  ["dog"; "cat"] ≡ₚ ["cat"; "dog"]
  /\ fromWords ["dog"; "cat"] = fromWords ["cat"; "dog"].
Proof.
  assert (["dog"; "cat"] ≡ₚ ["cat"; "dog"]) as Hperm by apply perm_swap.
  split; [exact Hperm|]. apply (fromWords_Permutation _ _ Hperm).
Defined.

(** X5.  In the trie built by [fromWords], a node reached by [getNode p]
    stores a word exactly when it is flagged as the end of a word, and the
    word it stores is [p] in upper case. *)
Theorem getNode_word (ws : list string) (p : string) (n : TrieNode) :
  getNode (fromWords ws) p = Some n ->
  word n = if isEndOfWord n then Some (Js.toUpperCase p) else None.
Proof.
  intros Hn.
  apply (tagged_insertAll ws empty (tagged_createNode "") _ _ Hn).
Qed.

Lemma getNode_word_witness :
  exists n, getNode (fromWords ["cat"]) "Cat" = Some n
    /\ word n = if isEndOfWord n then Some (Js.toUpperCase "Cat") else None.
Proof.
  destruct (getNode (fromWords ["cat"]) "Cat") as [n|] eqn:Hn.
  - exists n. split; [reflexivity|]. exact (getNode_word ["cat"] "Cat" n Hn).
  - vm_compute in Hn. discriminate Hn.
Defined.

End TrieProperties.

(** ** The generator: placeWord, fillEmptyCells and the order of the words *)

Module GeneratorProperties.
Import Generator GridFacts GeneratorFacts.

(** The draws of placeWord, and the cells a successful attempt leaves
    alone. *)
Lemma placeAttempts_frame tape rows cols w todo : forall g k g' placed k',
  wellShaped rows cols g ->
  placeAttempts tape rows cols g w todo k = Some (g', placed, k') ->
  match placed with
  | None => k' = k + 3 * todo
  | Some L =>
      k < k' <= k + 3 * todo
      /\ exists d, In d DIRECTIONS
           /\ forall r c,
                (forall j, j < String.length w ->
                   cellOn d (start L) (Z.of_nat j) <> (r, c)) ->
                lookupCell g' r c = lookupCell g r c
  end.
Proof.
  induction todo as [|todo IH]; intros g k g' placed k' Hg;
    cbn [placeAttempts].
  - intros [= <- <- <-]. lia.
  - assert (Random.floorRandom tape k 4 < 4) as Hd by (apply floorRandom_lt; lia).
    destruct (lookup_lt_is_Some_2 DIRECTIONS (Random.floorRandom tape k 4))
      as [d Hdir]; [done|].
    change (length DIRECTIONS) with 4. rewrite Hdir. cbn [mbind option_bind].
    set (r := Z.of_nat (Random.floorRandom tape (k + 1) rows)).
    set (c := Z.of_nat (Random.floorRandom tape (k + 2) cols)).
    pose proof (drawn_floorRandom tape (k + 1) rows) as Hr.
    pose proof (drawn_floorRandom tape (k + 2) cols) as Hc.
    fold r in Hr. fold c in Hc.
    destruct (canPlaceWord_is_Some rows cols g w r c d Hg Hr Hc) as [ok Hok].
    rewrite Hok. cbn [mbind option_bind]. destruct ok.
    + apply canPlaceWord_true in Hok as [Hend Hfree].
      assert (inRange rows cols r c) as Hstart.
      { destruct Hend as [He1 He2], Hr as [? [->|?]], Hc as [? [->|?]];
          unfold inRange; simpl in *; lia. }
      unfold insertWord.
      destruct (writeLetters_spec rows cols w r c d (String.length w) 0 g
                  (mkPoint r c) Hg)
        as (g1 & endPoint & -> & _ & _ & Hrest & _); [done| |].
      { intros j Hj.
        apply (offset_between rows cols d r c (Z.of_nat (String.length w) - 1));
          [done|done|lia]. }
      cbn [mbind option_bind]. intros [= <- <- <-]. split; [lia|].
      exists d. split; [destruct d; simpl; tauto|].
      intros r' c' Hoff. apply Hrest. intros j Hj. apply Hoff. lia.
    + intros Hrec. specialize (IH g (k + 3) g' placed k' Hg Hrec).
      destruct placed as [L|]; [|lia].
      destruct IH as [Hk Hd']. split; [lia|done].
Qed.

(** X6.  placeWord on a grid of the generator's size returns.  When it
    gives up, it has made its 100 attempts of three draws each and the grid
    is the one it was given.  When it places the word, it has made at most
    100 attempts, no letter already on the grid has changed, and the cells
    off the line of the word are as they were. *)
Theorem placeWord_frame tape rows cols g w k :
  wellShaped rows cols g ->
  exists g' placed k',
    placeWord tape rows cols g w k = Some (g', placed, k')
    /\ wellShaped rows cols g'
    /\ match placed with
       | None => g' = g /\ k' = k + 300
       | Some L =>
           word L = w /\ k < k' <= k + 300
           /\ (forall r c v, lookupCell g r c = Some v -> v <> "" ->
                 lookupCell g' r c = Some v)
           /\ exists d, In d DIRECTIONS
                /\ forall r c,
                     (forall j, j < String.length w ->
                        cellOn d (start L) (Z.of_nat j) <> (r, c)) ->
                     lookupCell g' r c = lookupCell g r c
       end.
Proof.
  intros Hg. unfold placeWord.
  destruct (placeAttempts_spec tape rows cols w 100 g k Hg)
    as (g' & placed & k' & Hrun & Hg' & Hext & _ & Hplaced).
  pose proof (placeAttempts_frame _ _ _ _ _ _ _ _ _ _ Hg Hrun) as Hframe.
  exists g', placed, k'. split; [done|]. split; [done|].
  destruct placed as [L|].
  - destruct Hplaced as [Hw _], Hframe as [Hk Hd].
    split; [done|]. split; [lia|]. split; [exact Hext|exact Hd].
  - split; [done|lia].
Qed.

Lemma placeWord_frame_witness :
  exists g' placed k',
    placeWord GeneratorClaims.zeroTape 2 2 (emptyGrid 2 2) "AB" 0
      = Some (g', placed, k')
    /\ wellShaped 2 2 g'
    /\ match placed with
       | None => g' = emptyGrid 2 2 /\ k' = 0 + 300
       | Some L =>
           word L = "AB" /\ 0 < k' <= 0 + 300
           /\ (forall r c v, lookupCell (emptyGrid 2 2) r c = Some v ->
                 v <> "" -> lookupCell g' r c = Some v)
           /\ exists d, In d DIRECTIONS
                /\ forall r c,
                     (forall j, j < String.length "AB" ->
                        cellOn d (start L) (Z.of_nat j) <> (r, c)) ->
                     lookupCell g' r c = lookupCell (emptyGrid 2 2) r c
       end.
Proof.
  apply (placeWord_frame GeneratorClaims.zeroTape 2 2 (emptyGrid 2 2) "AB" 0).
  split; [reflexivity|]. repeat constructor.
Defined.

(** X7.  fillEmptyCells on a grid of the generator's size returns; it
    leaves every non-empty cell as it was and puts one letter of A to Z in
    every empty cell. *)
Theorem fillEmptyCells_fills tape rows cols g k :
  wellShaped rows cols g ->
  exists g' k',
    fillEmptyCells tape rows cols g k = Some (g', k')
    /\ wellShaped rows cols g'
    /\ forall r c v, lookupCell g r c = Some v ->
         if decide (v = "")
         then exists ch, upperLetter ch /\ lookupCell g' r c = Some (String ch "")
         else lookupCell g' r c = Some v.
Proof.
  intros Hg. unfold fillEmptyCells.
  destruct (fillRows_spec tape rows cols rows 0 g k Hg)
    as (g' & k' & Hrun & Hg' & Hfills & Hfull); [lia|].
  exists g', k'. split; [done|]. split; [done|].
  intros r c v Hv. destruct (decide (v = "")) as [->|Hne].
  - destruct (Hfills r c) as [Hsame|[_ Hfilled]]; [|done].
    exfalso. destruct (lookupCell_inRange _ _ _ _ _ _ Hg Hv) as [Hr Hc].
    apply (Hfull (Z.to_nat r) (Z.to_nat c)); [lia|lia|].
    rewrite !Z2Nat.id by lia. congruence.
  - by apply (fills_extends _ _ Hfills).
Qed.

Lemma fillEmptyCells_fills_witness :
  exists g' k',
    fillEmptyCells GeneratorClaims.zeroTape 1 2 [["Q"; ""]] 0 = Some (g', k')
    /\ wellShaped 1 2 g'
    /\ forall r c v, lookupCell [["Q"; ""]] r c = Some v ->
         if decide (v = "")
         then exists ch, upperLetter ch /\ lookupCell g' r c = Some (String ch "")
         else lookupCell g' r c = Some v.
Proof.
  apply (fillEmptyCells_fills GeneratorClaims.zeroTape 1 2 [["Q"; ""]] 0).
  split; [reflexivity|]. repeat constructor.
Defined.

(** No word of the list is longer than one before it. *)
Fixpoint descending (l : list string) : Prop :=
  match l with
  | [] => True
  | a :: rest =>
      Forall (fun b => String.length b <= String.length a) rest
      /\ descending rest
  end.

Lemma insertByLength_descending w l :
  descending l -> descending (insertByLength w l).
Proof.
  induction l as [|v rest IH]; intros Hl; simpl.
  - by split.
  - destruct Hl as [Hv Hrest].
    destruct (Nat.leb_spec (String.length v) (String.length w)) as [Hle|Hlt].
    + split; [|by split]. constructor; [done|].
      eapply Forall_impl; [exact Hv|]. simpl. intros b Hb. lia.
    + split; [|by apply IH].
      rewrite (Forall_Permutation _ _ (fun _ => reflexivity _)
                 _ _ (insertByLength_Permutation w rest)).
      constructor; [lia|done].
Qed.

Lemma sortByLength_descending l : descending (sortByLength l).
Proof.
  induction l as [|w rest IH]; [done|].
  by apply insertByLength_descending.
Qed.

Lemma descending_sublist sub l :
  sublist sub l -> descending l -> descending sub.
Proof.
  induction 1 as [|x l1 l2 Hsub IH|x l1 l2 Hsub IH]; intros Hl.
  - done.
  - destruct Hl as [Hx Hl]. split; [|by apply IH].
    apply Forall_forall. intros b Hb.
    rewrite Forall_forall in Hx. apply Hx.
    by eapply elem_of_sublist.
  - destruct Hl as [_ Hl]. by apply IH.
Qed.

Lemma descending_lookup l : forall i j a b,
  descending l -> i < j -> l !! i = Some a -> l !! j = Some b ->
  String.length b <= String.length a.
Proof.
  induction l as [|x rest IH]; intros i j a b Hl Hij Ha Hb; [done|].
  destruct Hl as [Hx Hl]. destruct j as [|j]; [lia|].
  destruct i as [|i]; simpl in *.
  - injection Ha as <-. by apply (Forall_lookup_1 _ _ _ _ Hx Hb).
  - apply (IH i j); [done|lia|done|done].
Qed.

Lemma unique_length ws : forall seen, length (unique seen ws) <= length ws.
Proof.
  induction ws as [|w ws IH]; intros seen; simpl; [done|].
  destruct (bool_decide (w ∈ seen)); simpl;
    [specialize (IH seen)|specialize (IH ({[w]} ∪ seen))]; lia.
Qed.

(** X8.  The words returned by generate are in the order of the attempts,
    longest input word first: they are the uppercase forms, in order, of
    input words of which none is longer than one before it, and there are
    no more of them than input words.  For a list of ASCII words, whose
    uppercase forms have the lengths of the words, no returned word is
    longer than one returned before it. *)
Theorem generate_longest_first tape rows cols ws k gs k' :
  generate tape rows cols ws k = Some (gs, k') ->
  length (words gs) <= length ws
  /\ (exists sources,
        map word (words gs) = map Js.toUpperCase sources
        /\ (forall w, In w sources -> In w ws)
        /\ forall i j wi wj,
             i < j -> sources !! i = Some wi -> sources !! j = Some wj ->
             String.length wj <= String.length wi)
  /\ ((forall w, In w ws -> JsFacts.isAscii w = true) ->
      forall i j Li Lj,
        i < j -> words gs !! i = Some Li -> words gs !! j = Some Lj ->
        String.length (word Lj) <= String.length (word Li)).
Proof.
  intros Hgen.
  destruct (generate_spec tape rows cols ws k)
    as (gs0 & k0 & Hgen0 & _ & _ & (sub & Hsub & Hmap) & _).
  rewrite Hgen in Hgen0. injection Hgen0 as <- <-.
  assert (length (words gs) = length sub) as Hlen.
  { rewrite <- (length_map word), Hmap. apply length_map. }
  assert (descending sub) as Hdesc.
  { eapply descending_sublist; [exact Hsub|]. apply sortByLength_descending. }
  split; [|split].
  - rewrite Hlen, (sublist_length _ _ Hsub).
    rewrite (Permutation_length (sortByLength_Permutation _)).
    apply unique_length.
  - exists sub. split; [done|]. split.
    + intros w Hw. apply attempted_In, list_elem_of_In.
      eapply elem_of_sublist; [|exact Hsub]. by apply list_elem_of_In.
    + intros i j wi wj. by apply descending_lookup.
  - intros _ i j Li Lj Hij Hi Hj.
    assert (forall n L, words gs !! n = Some L ->
              exists a, sub !! n = Some a /\ word L = Js.toUpperCase a) as Hat.
    { intros n L Hn.
      apply (list_lookup_fmap_Some_2 word) in Hn.
      change (word <$> words gs) with (map word (words gs)) in Hn.
      rewrite Hmap in Hn. apply list_lookup_fmap_Some_1 in Hn as (a & ? & ?).
      by exists a. }
    destruct (Hat i Li Hi) as (a & Ha & ->).
    destruct (Hat j Lj Hj) as (b & Hb & ->).
    rewrite !JsFacts.toUpperCase_length.
    by apply (descending_lookup sub i j).
Qed.

Lemma generate_longest_first_witness :
  exists gs k',
    generate GeneratorClaims.zeroTape 3 3 ["at"; "cat"] 0 = Some (gs, k')
    /\ length (words gs) <= length ["at"; "cat"]
    /\ (exists sources,
          map word (words gs) = map Js.toUpperCase sources
          /\ (forall w, In w sources -> In w ["at"; "cat"])
          /\ forall i j wi wj,
               i < j -> sources !! i = Some wi -> sources !! j = Some wj ->
               String.length wj <= String.length wi)
    /\ forall i j Li Lj,
         i < j -> words gs !! i = Some Li -> words gs !! j = Some Lj ->
         String.length (word Lj) <= String.length (word Li).
Proof.
  destruct (generate GeneratorClaims.zeroTape 3 3 ["at"; "cat"] 0)
    as [[gs k']|] eqn:Hgen.
  - exists gs, k'. split; [reflexivity|].
    destruct (generate_longest_first _ _ _ _ _ _ _ Hgen)
      as (Hcount & Hsources & Hascii).
    split; [exact Hcount|]. split; [exact Hsources|]. apply Hascii.
    intros w [<-|[<-|[]]]; reflexivity.
  - vm_compute in Hgen. discriminate Hgen.
Defined.

End GeneratorProperties.

(** ** The solver: termination, completeness and the budget *)

Module SolverProperties.
Import Solver GridFacts SolverFacts.

(** *** The early-exit loop, call by call *)

Section EarlyExit.
Context {A S : Type} (body : A -> S -> option (bool * S)).
Context (R : S -> S -> Prop) (Hrefl : forall st, R st st)
  (Htrans : forall a b c, R a b -> R b c -> R a c).

(** With [R] relating the states before and after every call that answers
    [false]: a loop that answers [true] ends in such a call of its body,
    and one that answers [false] has called its body on every element. *)
Lemma tryEach_calls xs :
  (forall x sa sb, In x xs -> body x sa = Some (false, sb) -> R sa sb) ->
  forall st hit st',
    tryEach body xs st = Some (hit, st') ->
    if hit
    then exists x sa, In x xs /\ R st sa /\ body x sa = Some (true, st')
    else R st st'
         /\ forall x, In x xs ->
              exists sa sb, R st sa /\ body x sa = Some (false, sb) /\ R sb st'.
Proof.
  induction xs as [|x xs IH]; intros Hbody st hit st'; simpl.
  - intros [= <- <-]. split; [apply Hrefl|]. by intros x [].
  - destruct (body x st) as [[h1 st1]|] eqn:Hx; [|done]. simpl.
    destruct h1.
    + intros [= <- <-]. exists x, st. split; [by left|]. split; [apply Hrefl|done].
    + intros Hrest.
      assert (R st st1) as Hstep by (apply (Hbody x); [by left|done]).
      specialize (IH (fun y sa sb Hy => Hbody y sa sb (or_intror Hy))
                    st1 hit st' Hrest).
      destruct hit.
      * destruct IH as (y & sa & Hy & Hsa & Hcall).
        exists y, sa. split; [by right|]. split; [|done]. by eapply Htrans.
      * destruct IH as [Hend Hall]. split; [by eapply Htrans|].
        intros y [<-|Hy].
        -- exists st, st1. split; [apply Hrefl|]. by split.
        -- destruct (Hall y Hy) as (sa & sb & ? & ? & ?).
           exists sa, sb. split; [by eapply Htrans|]. by split.
Qed.

End EarlyExit.

(** A transposition rearranges the array. *)
Lemma insert_Permutation {A} (t : list A) : forall j y h,
  t !! j = Some y -> y :: <[j := h]> t ≡ₚ h :: t.
Proof.
  induction t as [|z t IH]; intros [|j] y h Hj; simpl in *; try done.
  - injection Hj as ->. apply perm_swap.
  - rewrite perm_swap, (IH j y h Hj). apply perm_swap.
Qed.

Lemma swap_Permutation {A} (a : list A) : forall i j, swap a i j ≡ₚ a.
Proof.
  unfold swap. induction a as [|h t IH]; intros i j; [by destruct i|].
  destruct ((h :: t) !! i) as [x|] eqn:Hi; [|done].
  destruct ((h :: t) !! j) as [y|] eqn:Hj; [|done].
  destruct i as [|i], j as [|j]; simpl in *.
  - by injection Hi as ->.
  - injection Hi as ->. by apply insert_Permutation.
  - injection Hj as ->. by apply insert_Permutation.
  - specialize (IH i j). rewrite Hi, Hj in IH. by rewrite IH.
Qed.

Lemma shuffle_spec tape : forall i positions k,
  (shuffle tape positions i k).1 ≡ₚ positions
  /\ (shuffle tape positions i k).2 = k + i.
Proof.
  induction i as [|i IH]; intros positions k; cbn [shuffle].
  - split; [done|simpl; lia].
  - destruct (IH (swap positions (S i) (Random.floorRandom tape k (S i + 1)))
                (k + 1)) as [Hperm Hk].
    split; [|lia]. rewrite Hperm. apply swap_Permutation.
Qed.

(** X9.  getShuffledPositions returns every cell of the grid exactly once,
    in some order, after one draw per cell but the first. *)
Theorem getShuffledPositions_Permutation tape s k :
  (getShuffledPositions tape s k).1 ≡ₚ allPositions (rows s) (cols s)
  /\ (getShuffledPositions tape s k).2 = k + (rows s * cols s - 1).
Proof.
  unfold getShuffledPositions. rewrite length_allPositions.
  apply shuffle_spec.
Qed.

Section Budgets.
Context (s : WordSearchSolver) (Hs : constructed s).

Ltac search_guards Hb Hv n Hn :=
  destruct (outOfBounds s _ _) eqn:Hb;
    [|apply outOfBounds_false in Hb;
      match goal with
      | |- context [bool_decide (?k ∈ ?visited)] =>
          destruct (bool_decide_reflect (k ∈ visited)) as [Hv|Hv]
      end;
        [|rewrite (readCell_inBounds s Hs _ _ Hb); cbn [mbind option_bind];
          destruct (Trie.getNode _ _) as [n|] eqn:Hn]].

(** The recorded words are pairwise different. *)
Definition distinct (st : SearchState) : Prop :=
  linked st /\ NoDup (map word (solutions st)).

Lemma dfs_distinct fuel : forall r c cur path visited st st',
  dfs fuel s r c cur path visited st = Some st' -> distinct st -> distinct st'.
Proof.
  induction fuel as [|fuel IH]; intros r c cur path visited st st'; [done|].
  cbn [dfs].
  search_guards Hb Hv n Hn;
    [by intros [= <-]|by intros [= <-]| |by intros [= <-]].
  intros Hloop Hst.
  eapply (forEach_invariant _ distinct); [|exact Hloop|].
  - intros [dr dc] sa sb _ Hbody. eapply IH. exact Hbody.
  - destruct (completes n (foundWords st)) as [w|] eqn:Hw; [|done].
    apply completes_Some in Hw as (_ & _ & _ & Hfresh).
    destruct Hst as [Hl Hnd]. split.
    + intros u. simpl. rewrite elem_of_union, elem_of_singleton, (Hl u).
      setoid_rewrite in_app_iff. simpl. naive_solver.
    + simpl. rewrite map_app. simpl. apply NoDup_app.
      split; [done|]. split; [|apply NoDup_singleton].
      intros u Hu Hu'. apply list_elem_of_singleton in Hu' as ->.
      apply Hfresh, Hl. apply list_elem_of_In, in_map_iff in Hu as (F & ? & ?).
      eauto.
Qed.

(** The relation between the states around a call of the budgeted search
    that answers [false]. *)
Definition quiet (sa sb : CellSearch) : Prop :=
  attempts sa <= attempts sb /\ found sb = found sa.

Lemma quiet_refl st : quiet st st.
Proof. by split. Qed.

Lemma quiet_trans a b c : quiet a b -> quiet b c -> quiet a c.
Proof. intros [? ?] [? ?]. split; [lia|congruence]. Qed.

(** A call that answers [true] was entered below the budget and has stored
    a word that is not excluded; one that answers [false] has stored
    nothing. *)
Lemma searchDfs_outcome excl budget fuel :
  forall r c cur path visited st hit st',
    searchDfs fuel s excl budget r c cur path visited st = Some (hit, st') ->
    attempts st <= attempts st'
    /\ if hit
       then attempts st < budget
            /\ exists f, found st' = Some f /\ word f ∉ excl
       else found st' = found st.
Proof.
  induction fuel as [|fuel IH]; intros r c cur path visited st hit st'; [done|].
  cbn [searchDfs]. destruct (Nat.leb_spec budget (attempts st));
    [by intros [= <- <-]|].
  search_guards Hb Hv n Hn;
    [intros [= <- <-]; simpl; split; [lia|done]
    |intros [= <- <-]; simpl; split; [lia|done]
    |
    |intros [= <- <-]; simpl; split; [lia|done]].
  destruct (completes n excl) as [w|] eqn:Hw.
  - apply completes_Some in Hw as (_ & _ & _ & Hfresh).
    intros [= <- <-]. simpl. split; [lia|]. split; [done|]. eauto.
  - intros Hloop.
    apply (tryEach_calls _ quiet quiet_refl quiet_trans) in Hloop.
    + destruct hit.
      * destruct Hloop as ([dr dc] & sa & _ & [Hsa _] & Hcall).
        apply IH in Hcall as [Hle [_ Hf]]. simpl in Hsa.
        split; [lia|]. by split.
      * destruct Hloop as [[Hle Hf] _]. simpl in Hle, Hf. split; [lia|done].
    + intros [dr dc] sa sb _ Hcall. apply IH in Hcall as [? ?]. by split.
Qed.

(** *** A larger budget *)

Lemma tryEach_budget_mono
    (f f' : Z * Z -> CellSearch -> option (bool * CellSearch)) budget xs :
  (forall x sa h sb, f x sa = Some (h, sb) ->
     attempts sa <= attempts sb /\ (h = true -> attempts sa < budget)) ->
  (forall x sa h sb, f x sa = Some (h, sb) ->
     h = true \/ attempts sb < budget -> f' x sa = Some (h, sb)) ->
  forall st hit st',
    tryEach f xs st = Some (hit, st') ->
    hit = true \/ attempts st' < budget ->
    tryEach f' xs st = Some (hit, st').
Proof.
  intros Hf Hf'.
  assert (forall ys st hit st', tryEach f ys st = Some (hit, st') ->
            attempts st <= attempts st'
            /\ (hit = true -> attempts st < budget)) as Hentry.
  { induction ys as [|y ys IH]; intros st hit st'; simpl.
    - intros [= <- <-]. by split.
    - destruct (f y st) as [[h1 st1]|] eqn:Hy; [|done]. simpl.
      destruct (Hf _ _ _ _ Hy) as [Hle Hlt]. destruct h1.
      + intros [= <- <-]. auto.
      + intros Hrest. destruct (IH _ _ _ Hrest) as [Hle' Hlt'].
        split; [lia|]. intros Hhit. specialize (Hlt' Hhit). lia. }
  induction xs as [|x xs IH]; intros st hit st'; simpl; [done|].
  destruct (f x st) as [[h1 st1]|] eqn:Hx; [|done]. simpl. destruct h1.
  - intros [= <- <-] _. rewrite (Hf' _ _ _ _ Hx); [done|by left].
  - intros Hrest Hfinal. destruct (Hentry _ _ _ _ Hrest) as [Hle Hlt].
    rewrite (Hf' _ _ _ _ Hx); [simpl; by apply IH|].
    right. destruct Hfinal as [Hhit|?]; [by apply Hlt|lia].
Qed.

(** A call of the budgeted search that found a word, or ended below its
    budget, goes the same way under any larger budget. *)
Lemma searchDfs_budget_mono excl budget budget' fuel :
  budget <= budget' ->
  forall r c cur path visited st hit st',
    searchDfs fuel s excl budget r c cur path visited st = Some (hit, st') ->
    hit = true \/ attempts st' < budget ->
    searchDfs fuel s excl budget' r c cur path visited st = Some (hit, st').
Proof.
  intros Hle.
  induction fuel as [|fuel IH]; intros r c cur path visited st hit st'; [done|].
  cbn [searchDfs]. destruct (Nat.leb_spec budget (attempts st)) as [Hout|Hin].
  - intros [= <- <-] [?|?]; [done|lia].
  - rewrite (proj2 (Nat.leb_gt budget' (attempts st))) by lia.
    search_guards Hb Hv n Hn; [done|done| |done].
    destruct (completes n excl); [done|].
    apply tryEach_budget_mono.
    + intros [dr dc] sa h sb Hcall.
      apply searchDfs_outcome in Hcall as [? Hh]. split; [done|].
      intros ->. tauto.
    + intros [dr dc] sa h sb. apply IH.
Qed.

(** *** A search that ends below its budget has missed nothing *)

Lemma searchDfs_exhaustive excl budget w rest :
  forall fuel r c cur path visited st st',
    searchDfs fuel s excl budget r c cur path visited st = Some (false, st') ->
    attempts st' < budget ->
    NoDup (mkPoint r c :: rest) ->
    (forall p, In p (mkPoint r c :: rest) ->
       inBounds s (row p) (col p) /\ key p ∉ visited) ->
    (forall i p q, (mkPoint r c :: rest) !! i = Some p ->
       (mkPoint r c :: rest) !! S i = Some q -> adjacent p q) ->
    (exists n,
       Trie.getNode (trie s) (extend (grid s) cur (mkPoint r c :: rest)) = Some n
       /\ Trie.isEndOfWord n = true /\ Trie.word n = Some w) ->
    w <> "" ->
    w ∈ excl.
Proof.
  induction rest as [|q rest IH];
    intros fuel r c cur path visited st st' Hdfs Hbelow Hnd Hcells Hadj
      (n & Hn & He & Hw) Hne;
    (destruct fuel as [|fuel]; [done|]); cbn [searchDfs] in Hdfs;
    (destruct (Nat.leb_spec budget (attempts st)) as [Hout|Hin];
       [injection Hdfs as <-; lia|]);
    destruct (Hcells (mkPoint r c)) as [Hb Hv]; try (by left);
    cbn [row col key] in Hb, Hv;
    rewrite (proj2 (outOfBounds_false s r c) Hb) in Hdfs;
    rewrite (bool_decide_eq_false_2 _ Hv) in Hdfs;
    rewrite (readCell_inBounds s Hs _ _ Hb) in Hdfs;
    cbn [mbind option_bind] in Hdfs; rewrite extend_cons in Hn;
    unfold cellText in Hn; cbn [row col] in Hn.
  - cbn [extend fold_left] in Hn. rewrite Hn in Hdfs.
    destruct (completes n excl) as [u|] eqn:Hu; [done|].
    destruct (decide (w ∈ excl)) as [Hin'|Hout]; [done|].
    assert (completes n excl = Some w) as Hsome by (by apply completes_Some).
    congruence.
  - rewrite extend_append in Hn.
    destruct (getNode_prefix _ _ _ _ Hn) as [n0 Hn0]. rewrite Hn0 in Hdfs.
    destruct (completes n0 excl); [done|].
    pose proof (Hadj 0 (mkPoint r c) q eq_refl eq_refl) as Hq.
    unfold adjacent in Hq. cbn [row col] in Hq.
    apply (tryEach_calls _ quiet quiet_refl quiet_trans) in Hdfs;
      [|intros [dr dc] sa sb _ Hcall;
        apply searchDfs_outcome in Hcall as [? ?]; by split].
    destruct Hdfs as [_ Hall].
    destruct (Hall _ Hq) as (sa & sb & _ & Hcall & [Hsb _]).
    cbn beta iota in Hcall.
    replace (r + (row q - r))%Z with (row q) in Hcall by lia.
    replace (c + (col q - c))%Z with (col q) in Hcall by lia.
    destruct q as [qr qc]. cbn [row col] in *.
    eapply (IH _ _ _ _ _ _ _ _ Hcall); [lia|by inversion Hnd| | | |done].
    + intros p Hp. destruct (Hcells p) as [Hpb Hpv]; [by right|].
      split; [done|]. rewrite not_elem_of_union, not_elem_of_singleton.
      split; [done|]. intros Hkey. inversion Hnd as [|? ? Hfresh _]; subst.
      apply Hfresh. apply list_elem_of_In.
      destruct p as [pr pc]. unfold key in Hkey. simpl in Hkey.
      by injection Hkey as -> ->.
    + intros i p p' Hp Hp'. by apply (Hadj (S i)).
    + exists n. rewrite extend_append. done.
Qed.

(** *** The scan of findNextWord *)

Lemma scanPositions_counts fuel foundSet budget positions :
  forall a result a',
    scanPositions fuel s foundSet budget positions a = Some (result, a') ->
    a <= a' /\ (is_Some result -> a < budget).
Proof.
  induction positions as [|p positions IH]; intros a result a'; simpl.
  - intros [= <- <-]. split; [done|]. by intros [? [=]].
  - destruct (Nat.leb_spec budget a).
    { intros [= <- <-]. split; [done|]. by intros [? [=]]. }
    destruct (searchFromCell _ _ _ _ _ _) as [cell|]; [|done]. simpl.
    assert (forall result a',
              scanPositions fuel s foundSet budget positions
                (a + attempts cell) = Some (result, a') ->
              a <= a' /\ (is_Some result -> a < budget)) as Hrest.
    { intros res b Hscan. apply IH in Hscan as [? ?]. split; [lia|done]. }
    destruct (found cell); [|apply Hrest].
    destruct (negb _); [|apply Hrest].
    intros [= <- <-]. split; [lia|done].
Qed.

Lemma scanPositions_budget_mono fuel foundSet budget budget' positions :
  budget <= budget' ->
  forall a F a',
    scanPositions fuel s foundSet budget positions a = Some (Some F, a') ->
    scanPositions fuel s foundSet budget' positions a = Some (Some F, a').
Proof.
  intros Hle. induction positions as [|p positions IH]; intros a F a'; simpl;
    [done|].
  destruct (Nat.leb_spec budget a); [done|].
  rewrite (proj2 (Nat.leb_gt budget' a)) by lia.
  unfold searchFromCell.
  destruct (searchDfs fuel s foundSet (budget - a) _ _ _ _ _ _)
    as [[hit st]|] eqn:Hdfs; [|done].
  cbn [mbind option_bind]. intros Hscan.
  pose proof (searchDfs_outcome _ _ _ _ _ _ _ _ _ _ _ Hdfs) as [_ Hout].
  assert (hit = true \/ attempts st < budget - a) as Hfinal.
  { destruct hit; [by left|right]. simpl in Hout. rewrite Hout in Hscan.
    simpl in Hscan. apply scanPositions_counts in Hscan as [_ Hlt].
    specialize (Hlt ltac:(eauto)). lia. }
  rewrite (searchDfs_budget_mono foundSet (budget - a) (budget' - a) fuel
             ltac:(lia) _ _ _ _ _ _ _ _ Hdfs Hfinal).
  cbn [mbind option_bind]. cbn [mbind option_bind] in Hscan.
  destruct (found st); [|by apply IH].
  destruct (negb _); [done|by apply IH].
Qed.

Lemma scanPositions_exhaustive fuel foundSet budget positions :
  forall a a',
    scanPositions fuel s foundSet budget positions a = Some (None, a') ->
    a' < budget ->
    forall p rest w,
      In p positions ->
      NoDup (p :: rest) ->
      (forall q, In q (p :: rest) -> inBounds s (row q) (col q)) ->
      (forall i x y, (p :: rest) !! i = Some x -> (p :: rest) !! S i = Some y ->
         adjacent x y) ->
      (exists n, Trie.getNode (trie s) (spell (grid s) (p :: rest)) = Some n
         /\ Trie.isEndOfWord n = true /\ Trie.word n = Some w) ->
      w <> "" ->
      w ∈ foundSet.
Proof.
  induction positions as [|p0 positions IH]; intros a a' Hscan Hbelow
    p rest w Hp Hnd Hin Hadj Hn Hne; [done|].
  simpl in Hscan. destruct (Nat.leb_spec budget a).
  { injection Hscan as <-. lia. }
  unfold searchFromCell in Hscan.
  destruct (searchDfs fuel s foundSet (budget - a) _ _ _ _ _ _)
    as [[hit st]|] eqn:Hdfs; [|done].
  cbn [mbind option_bind] in Hscan.
  pose proof (searchDfs_outcome _ _ _ _ _ _ _ _ _ _ _ Hdfs) as [_ Hout].
  destruct hit.
  - destruct Hout as [_ (f & Hf & Hfresh)]. rewrite Hf in Hscan.
    rewrite (bool_decide_eq_false_2 _ Hfresh) in Hscan. done.
  - simpl in Hout. rewrite Hout in Hscan. simpl in Hscan.
    pose proof (scanPositions_counts _ _ _ _ _ _ _ Hscan) as [Hcount _].
    destruct Hp as [->|Hp]; [|by eapply (IH _ _ Hscan Hbelow p rest)].
    destruct p as [r c]. cbn [row col] in Hdfs.
    eapply (searchDfs_exhaustive _ _ w rest _ _ _ _ _ _ _ _ Hdfs);
      [lia|done| |done|done|done].
    intros q Hq. split; [by apply Hin|set_solver].
Qed.

End Budgets.

(** The path of a well-formed word meets the conditions of recall. *)
Lemma wellFormed_path s F :
  wellFormed s F ->
  exists p rest,
    path F = p :: rest
    /\ NoDup (p :: rest)
    /\ (forall q, In q (p :: rest) -> inBounds s (row q) (col q))
    /\ (forall i x y, (p :: rest) !! i = Some x -> (p :: rest) !! S i = Some y ->
          adjacent x y)
    /\ (exists n, Trie.getNode (trie s) (spell (grid s) (p :: rest)) = Some n
          /\ Trie.isEndOfWord n = true /\ Trie.word n = Some (word F))
    /\ word F <> "".
Proof.
  intros (Hhead & _ & [Hin Hnd Hadj] & Hne & Hn).
  destruct (path F) as [|p rest] eqn:Hpath; [done|].
  exists p, rest. done.
Qed.

(** X10.  findAllWords returns on every grid, ragged ones included, and for
    every word list; the depth of its recursion never exceeds the number of
    cells plus one. *)
Theorem findAllWords_total (g : Grid) (ws : list string) :
  exists res,
    findAllWords (new g ws) = Some res
    /\ forall fuel, S (rows (new g ws) * cols (new g ws)) <= fuel ->
         findAllWordsFuel fuel (new g ws) = Some res.
Proof.
  destruct (findAllWords_is_Some (new g ws) (new_constructed g ws)) as [res Hres].
  exists res. split; [done|]. intros fuel Hfuel. rewrite <- Hres.
  by apply findAllWordsFuel_enough; [apply new_constructed|].
Qed.

(** X11.  findAllWords finds an ASCII word wherever a path spells it: if
    the cells of a path that stays inside the grid, never repeats a cell and
    moves to one of the eight neighbours at every step hold ASCII text that
    spells a non-empty ASCII word of the list, up to case, then the result
    has that word.  (On ASCII text the pieces the search hands to the trie
    cell by cell are the pieces the trie steps through.) *)
Theorem findAllWords_complete (g : Grid) (ws : list string) res w p rest :
  findAllWords (new g ws) = Some res ->
  In w ws -> w <> "" -> JsFacts.isAscii w = true ->
  JsFacts.isAscii (spell g (p :: rest)) = true ->
  NoDup (p :: rest) ->
  (forall q, In q (p :: rest) -> inBounds (new g ws) (row q) (col q)) ->
  (forall i a b, (p :: rest) !! i = Some a -> (p :: rest) !! S i = Some b ->
     adjacent a b) ->
  Js.toUpperCase (spell g (p :: rest)) = Js.toUpperCase w ->
  exists F, In F res /\ word F = Js.toUpperCase w.
Proof.
  intros Hres Hw Hne _ _ Hnd Hin Hadj Hspell.
  apply (findAllWords_recall (new g ws) (new_constructed g ws) res
           (Js.toUpperCase w) p rest); [done..| |by destruct w].
  destruct (TrieFacts.fromWords_terminal ws w Hw) as (n & Hn & He & Hword).
  exists n. unfold Trie.getNode. cbn [grid trie new]. by rewrite Hspell.
Qed.

Lemma findAllWords_complete_witness :
  exists F, In F [SolverClaims.cornerWord] /\ word F = Js.toUpperCase "cat".
Proof.
  apply (findAllWords_complete SolverClaims.cornerGrid ["cat"]
           [SolverClaims.cornerWord] "cat"
           (mkPoint 0 0) [mkPoint 0 1; mkPoint 1 1]).
  - vm_compute. reflexivity.
  - left. reflexivity.
  - discriminate.
  - reflexivity.
  - vm_compute. reflexivity.
  - apply (bool_decide_unpack _). reflexivity.
  - intros q [<-|[<-|[<-|[]]]]; unfold inBounds; cbn [rows cols new row col];
      simpl; lia.
  - intros i a b Ha Hb. destruct i as [|[|[|i]]]; cbn in Ha, Hb;
      try discriminate; injection Ha as <-; injection Hb as <-;
      vm_compute; tauto.
  - vm_compute. reflexivity.
Defined.

(** X12.  findAllWords reports every word once: no two entries of its
    result have the same word. *)
Theorem findAllWords_distinct (g : Grid) (ws : list string) res :
  findAllWords (new g ws) = Some res -> NoDup (map word res).
Proof.
  unfold findAllWords, findAllWordsFuel.
  destruct (forEach _ _ _) as [st|] eqn:Hloop; [|done]. simpl. intros [= <-].
  eapply (forEach_invariant _ distinct); [|exact Hloop|].
  - intros q sa sb _ Hbody.
    eapply (dfs_distinct _ (new_constructed g ws)). exact Hbody.
  - split; [|constructor].
    intros u. simpl. split; [set_solver|]. by intros (F & [] & _).
Qed.

Lemma findAllWords_distinct_witness :
  findAllWords (new SolverClaims.cornerGrid ["CAT"])
  = Some [SolverClaims.cornerWord]
  /\ NoDup (map word [SolverClaims.cornerWord]).
Proof.
  split; [vm_compute; reflexivity|].
  apply (findAllWords_distinct SolverClaims.cornerGrid ["CAT"]).
  vm_compute. reflexivity.
Defined.

(** What findNextWord returns is well formed and was not excluded. *)
Lemma findNextWord_result tape (g : Grid) (ws : list string)
    alreadyFound maxAttempts k F attempts k' :
  findNextWord tape (new g ws) alreadyFound maxAttempts k
    = Some (Some F, attempts, k') ->
  wellFormed (new g ws) F /\ ~ In (word F) alreadyFound.
Proof.
  unfold findNextWord, findNextWordFuel.
  destruct (getShuffledPositions _ _ _) as [positions k1].
  destruct (scanPositions _ _ _ _ _ _) as [[result a]|] eqn:Hscan; [|done].
  simpl. intros [= -> -> ->].
  apply (scanPositions_wellFormed _ (new_constructed g ws)) in Hscan
    as [HF Hfresh].
  split; [done|].
  intros Hin. apply Hfresh, elem_of_list_to_set. by apply list_elem_of_In.
Qed.

(** X13.  The word returned by findNextWord is not one of [alreadyFound],
    and it is a word of the list in upper case. *)
Theorem findNextWord_excludes tape (g : Grid) (ws : list string)
    alreadyFound maxAttempts k F attempts k' :
  findNextWord tape (new g ws) alreadyFound maxAttempts k
    = Some (Some F, attempts, k') ->
  ~ In (word F) alreadyFound
  /\ exists w, In w ws /\ word F = Js.toUpperCase w.
Proof.
  intros [HF Hfresh]%findNextWord_result. split; [done|].
  by destruct (SolverClaims.wellFormed_word _ _ _ HF).
Qed.

Lemma findNextWord_excludes_witness :
  findNextWord GeneratorClaims.zeroTape
    (new SolverClaims.cornerGrid ["CAT"; "AT"]) ["AT"] 500 0
  = Some (Some SolverClaims.cornerWord, 32, 3)
  /\ ~ In (word SolverClaims.cornerWord) ["AT"]
  /\ exists w, In w ["CAT"; "AT"]
       /\ word SolverClaims.cornerWord = Js.toUpperCase w.
Proof.
  split; [vm_compute; reflexivity|].
  apply (findNextWord_excludes GeneratorClaims.zeroTape
           SolverClaims.cornerGrid ["CAT"; "AT"] ["AT"] 500 0
           SolverClaims.cornerWord 32 3).
  vm_compute. reflexivity.
Defined.

(** X14.  Whatever findNextWord returns, findAllWords reports too: the two
    searches agree on which words the grid holds. *)
Theorem findNextWord_in_findAllWords tape (g : Grid) (ws : list string)
    alreadyFound maxAttempts k F attempts k' :
  findNextWord tape (new g ws) alreadyFound maxAttempts k
    = Some (Some F, attempts, k') ->
  exists res F',
    findAllWords (new g ws) = Some res /\ In F' res /\ word F' = word F.
Proof.
  intros [HF _]%findNextWord_result.
  destruct (findAllWords_is_Some (new g ws) (new_constructed g ws)) as [res Hres].
  destruct (wellFormed_path _ _ HF)
    as (p & rest & _ & Hnd & Hin & Hadj & Hn & Hne).
  destruct (findAllWords_recall (new g ws) (new_constructed g ws) res
              (word F) p rest Hres Hnd Hin Hadj Hn Hne) as (F' & ? & ?).
  by exists res, F'.
Qed.

Lemma findNextWord_in_findAllWords_witness :
  exists res F',
    findAllWords (new SolverClaims.cornerGrid ["CAT"; "AT"]) = Some res
    /\ In F' res /\ word F' = word SolverClaims.cornerWord.
Proof.
  apply (findNextWord_in_findAllWords GeneratorClaims.zeroTape
           SolverClaims.cornerGrid ["CAT"; "AT"] ["AT"] 500 0
           SolverClaims.cornerWord 32 3).
  vm_compute. reflexivity.
Defined.

(** X15.  With the same random draws, raising the budget keeps a find:
    if findNextWord returns a word within [maxAttempts], it returns the same
    word, after the same number of attempts, within any larger budget. *)
Theorem findNextWord_budget_mono tape (g : Grid) (ws : list string)
    alreadyFound maxAttempts larger k F attempts k' :
  findNextWord tape (new g ws) alreadyFound maxAttempts k
    = Some (Some F, attempts, k') ->
  maxAttempts <= larger ->
  findNextWord tape (new g ws) alreadyFound larger k
    = Some (Some F, attempts, k').
Proof.
  unfold findNextWord, findNextWordFuel.
  destruct (getShuffledPositions _ _ _) as [positions k1].
  destruct (scanPositions _ _ _ maxAttempts _ _) as [[result a]|] eqn:Hscan;
    [|done].
  simpl. intros [= -> -> ->] Hle.
  by rewrite (scanPositions_budget_mono _ (new_constructed g ws)
                _ _ _ _ _ Hle _ _ _ Hscan).
Qed.

Lemma findNextWord_budget_mono_witness :
  findNextWord GeneratorClaims.zeroTape (new SolverClaims.cornerGrid ["CAT"])
    [] 500 0
  = Some (Some SolverClaims.cornerWord, 16, 3).
Proof.
  apply (findNextWord_budget_mono GeneratorClaims.zeroTape
           SolverClaims.cornerGrid ["CAT"] [] 16 500 0).
  - vm_compute. reflexivity.
  - lia.
Defined.

(** X16.  When findNextWord returns [null] without having used up its
    budget, no word is left: every word that findAllWords reports is in
    [alreadyFound]. *)
Theorem findNextWord_exhaustive tape (g : Grid) (ws : list string)
    alreadyFound maxAttempts k attempts k' res F :
  findNextWord tape (new g ws) alreadyFound maxAttempts k
    = Some (None, attempts, k') ->
  attempts < maxAttempts ->
  findAllWords (new g ws) = Some res -> In F res ->
  In (word F) alreadyFound.
Proof.
  unfold findNextWord, findNextWordFuel.
  pose proof (getShuffledPositions_Permutation tape (new g ws) k) as [Hperm _].
  destruct (getShuffledPositions _ _ _) as [positions k1]. simpl in Hperm.
  destruct (scanPositions _ _ _ _ _ _) as [[result a]|] eqn:Hscan; [|done].
  simpl. intros [= -> -> ->] Hbelow Hres HF.
  pose proof (findAllWords_wellFormed _ (new_constructed g ws) _ Hres) as Hall.
  rewrite Forall_forall in Hall.
  specialize (Hall F ltac:(by apply list_elem_of_In)).
  destruct (wellFormed_path _ _ Hall)
    as (p & rest & _ & Hnd & Hin & Hadj & Hn & Hne).
  apply list_elem_of_In, (elem_of_list_to_set (C := gset string)).
  eapply (scanPositions_exhaustive _ (new_constructed g ws)
            _ _ _ _ _ _ Hscan Hbelow p rest); [|done..].
  apply list_elem_of_In. rewrite Hperm. apply list_elem_of_In.
  apply in_allPositions. apply (Hin p). by left.
Qed.

Lemma findNextWord_exhaustive_witness :
  findNextWord GeneratorClaims.zeroTape (new SolverClaims.cornerGrid ["CAT"])
    ["CAT"] 500 0
  = Some (None, 28, 3)
  /\ In (word SolverClaims.cornerWord) ["CAT"].
Proof.
  split; [vm_compute; reflexivity|].
  apply (findNextWord_exhaustive GeneratorClaims.zeroTape
           SolverClaims.cornerGrid ["CAT"] ["CAT"] 500 0 28 3
           [SolverClaims.cornerWord] SolverClaims.cornerWord).
  - vm_compute. reflexivity.
  - lia.
  - vm_compute. reflexivity.
  - left. reflexivity.
Defined.

(** *** What a find costs *)

Section Costs.
Context (s : WordSearchSolver) (Hs : constructed s).

(** Every cell on the way to the word found was counted. *)
Lemma searchDfs_cost excl budget fuel :
  forall r c cur path visited st st',
    searchDfs fuel s excl budget r c cur path visited st = Some (true, st') ->
    exists f, found st' = Some f
      /\ attempts st + length (Solver.path f) <= attempts st' + length path.
Proof.
  induction fuel as [|fuel IH]; intros r c cur path visited st st'; [done|].
  cbn [searchDfs]. destruct (budget <=? attempts st)%nat; [done|].
  destruct (outOfBounds s r c); [done|].
  destruct (bool_decide _); [done|].
  destruct (readCell (grid s) r c) as [char|]; [|done].
  cbn [mbind option_bind].
  destruct (Trie.getNode _ _) as [n|]; [|done].
  destruct (completes n excl) as [w|].
  - intros [= <-]. eexists. split; [done|].
    cbn [Solver.path attempts]. rewrite length_app. simpl. lia.
  - intros Hloop.
    apply (tryEach_calls _ (fun sa sb => attempts sa <= attempts sb)) in Hloop;
      [|lia|intros; lia|].
    + destruct Hloop as ([dr dc] & sa & _ & Hsa & Hcall).
      apply IH in Hcall as (f & Hf & Hcost). exists f. split; [done|].
      rewrite length_app in Hcost. simpl in Hcost, Hsa. lia.
    + intros [dr dc] sa sb _ Hcall.
      by apply (searchDfs_outcome s Hs) in Hcall as [? _].
Qed.

Lemma scanPositions_cost fuel foundSet budget positions :
  forall a F a',
    scanPositions fuel s foundSet budget positions a = Some (Some F, a') ->
    a + length (Solver.path F) <= a'.
Proof.
  induction positions as [|p positions IH]; intros a F a'; simpl; [done|].
  destruct (budget <=? a)%nat; [done|].
  unfold searchFromCell.
  destruct (searchDfs _ _ _ _ _ _ _ _ _ _) as [[hit st]|] eqn:Hdfs; [|done].
  cbn [mbind option_bind].
  assert (forall F a',
            scanPositions fuel s foundSet budget positions (a + attempts st)
              = Some (Some F, a') ->
            a + length (Solver.path F) <= a') as Hrest.
  { intros F0 a0 Hscan. apply IH in Hscan. lia. }
  destruct (found st) as [f|] eqn:Hf; [|apply Hrest].
  destruct (negb _); [|apply Hrest]. intros [= <- <-].
  destruct hit.
  - apply searchDfs_cost in Hdfs as (f' & Hf' & Hcost).
    rewrite Hf in Hf'. injection Hf' as <-. simpl in Hcost. lia.
  - apply (searchDfs_outcome s Hs) in Hdfs as [_ Hnone].
    simpl in Hnone. congruence.
Qed.

End Costs.

(** X17.  A find costs at least one attempt per cell of its path: the
    number of attempts findNextWord has spent when it returns a word is at
    least the length of the path of that word, so a budget below the length
    of a word cannot find it. *)
Theorem findNextWord_cost tape (g : Grid) (ws : list string)
    alreadyFound maxAttempts k F attempts k' :
  findNextWord tape (new g ws) alreadyFound maxAttempts k
    = Some (Some F, attempts, k') ->
  length (path F) <= attempts.
Proof.
  unfold findNextWord, findNextWordFuel.
  destruct (getShuffledPositions _ _ _) as [positions k1].
  destruct (scanPositions _ _ _ _ _ _) as [[result a]|] eqn:Hscan; [|done].
  simpl. intros [= -> -> ->].
  by apply (scanPositions_cost _ (new_constructed g ws)) in Hscan.
Qed.

Lemma findNextWord_cost_witness :
  findNextWord GeneratorClaims.zeroTape (new SolverClaims.cornerGrid ["CAT"])
    [] 500 0
  = Some (Some SolverClaims.cornerWord, 16, 3)
  /\ length (path SolverClaims.cornerWord) <= 16.
Proof.
  split; [vm_compute; reflexivity|].
  apply (findNextWord_cost GeneratorClaims.zeroTape
           SolverClaims.cornerGrid ["CAT"] [] 500 0
           SolverClaims.cornerWord 16 3).
  vm_compute. reflexivity.
Defined.

(** *** On a generated board *)

(** X18.  On a board made by generate from a list of ASCII words, with the
    solver built over the same word list: as long as a placed, non-empty
    word is not in [alreadyFound], findNextWord returns [null] only when it
    has used up its whole budget. *)
Theorem findNextWord_null_on_board gen rows cols ws k0 gs k1 L
    tape alreadyFound maxAttempts k attempts k' :
  (forall w, In w ws -> JsFacts.isAscii w = true) ->
  Generator.generate gen rows cols ws k0 = Some (gs, k1) ->
  In L (Generator.words gs) -> Generator.word L <> "" ->
  ~ In (Generator.word L) alreadyFound ->
  findNextWord tape (new (Generator.grid gs) ws) alreadyFound maxAttempts k
    = Some (None, attempts, k') ->
  attempts = maxAttempts.
Proof.
  intros _ Hgen HL Hne Hleft.
  set (s := new (Generator.grid gs) ws).
  assert (constructed s) as Hs by apply new_constructed.
  unfold findNextWord, findNextWordFuel.
  pose proof (getShuffledPositions_Permutation tape s k) as [Hperm _].
  destruct (getShuffledPositions _ _ _) as [positions k2]. simpl in Hperm.
  destruct (scanPositions _ _ _ _ _ _) as [[result a]|] eqn:Hscan; [|done].
  simpl. intros [= -> -> ->].
  pose proof (scanPositions_attempts s Hs _ _ _ _ _ _ _ Hscan ltac:(lia)) as Hle.
  destruct (decide (attempts < maxAttempts)) as [Hbelow|]; [exfalso|lia].
  destruct (GeneratorFacts.generate_spec gen rows cols ws k0)
    as (gs0 & k3 & Hgen0 & Hshape & Hall & (sub & Hsub & Hmap) & _).
  rewrite Hgen in Hgen0. injection Hgen0 as <- <-.
  rewrite Forall_forall in Hall.
  destruct (Hall L) as (d & _ & Hplaced); [by apply list_elem_of_In|].
  assert (In (Generator.word L) (map Js.toUpperCase sub)) as Hin.
  { rewrite <- Hmap. by apply in_map. }
  apply in_map_iff in Hin as (w & HwL & Hw).
  destruct (findAllWords_is_Some s Hs) as [res Hres].
  destruct (SolverClaims.placed_word_found rows cols _ ws L d w res
              Hshape Hplaced Hne) as (F & HF & HFL); [|done|done|].
  { apply GeneratorFacts.attempted_In, list_elem_of_In.
    eapply elem_of_sublist; [|exact Hsub]. by apply list_elem_of_In. }
  pose proof (findAllWords_wellFormed s Hs _ Hres) as Hwf.
  rewrite Forall_forall in Hwf.
  specialize (Hwf F ltac:(by apply list_elem_of_In)).
  destruct (wellFormed_path _ _ Hwf)
    as (p & rest & _ & Hnd & Hin & Hadj & Hn & HneF).
  apply Hleft. rewrite <- HFL.
  apply list_elem_of_In, (elem_of_list_to_set (C := gset string)).
  eapply (scanPositions_exhaustive s Hs _ _ _ _ _ _ Hscan Hbelow p rest);
    [|done..].
  apply list_elem_of_In. rewrite Hperm. apply list_elem_of_In.
  apply in_allPositions. apply (Hin p). by left.
Qed.

Lemma findNextWord_null_on_board_witness :
  findNextWord GeneratorClaims.zeroTape
    (new (Generator.grid SolverClaims.catState) ["cat"]) [] 2 0
  = Some (None, 2, 8)
  /\ 2 = 2.
Proof.
  split; [vm_compute; reflexivity|].
  apply (findNextWord_null_on_board GeneratorClaims.zeroTape 3 3 ["cat"] 0
           SolverClaims.catState 9
           {| Generator.word := "CAT"; Generator.start := mkPoint 0 0;
              Generator.end_ := mkPoint 0 2 |}
           GeneratorClaims.zeroTape [] 2 0 2 8).
  - intros w [<-|[]]. reflexivity.
  - vm_compute. reflexivity.
  - left. reflexivity.
  - discriminate.
  - intros [].
  - vm_compute. reflexivity.
Defined.

End SolverProperties.

(** ** The game: reading a line and matching a selection *)

Module GameProperties.
Import Generator GridFacts GeneratorFacts LineFacts.

(** The first [n] cells of the line from [start] in the direction
    [(dr, dc)]. *)
Definition lineFrom (start : Point) (dr dc : Z) (n : nat) : list Point :=
  map (fun j => mkPoint (row start + Z.of_nat j * dr)
                        (col start + Z.of_nat j * dc))
      (seq 0 n).

Lemma walk_line dr dc :
  (dr <> 0 \/ dc <> 0)%Z ->
  forall todo m r c,
    Game.walk (mkPoint (r + Z.of_nat m * dr) (c + Z.of_nat m * dc))
      dr dc r c todo
    = lineFrom (mkPoint r c) dr dc (Nat.min (S m) todo).
Proof.
  intros Hd. unfold lineFrom.
  induction todo as [|todo IH]; intros m r c.
  - by rewrite Nat.min_0_r.
  - cbn [Game.walk row col]. rewrite <- Nat.succ_min_distr. cbn [seq map].
    f_equal; [f_equal; lia|].
    destruct m as [|m].
    + rewrite Nat.min_0_l. cbn [seq map].
      replace (r + Z.of_nat 0 * dr)%Z with r by lia.
      replace (c + Z.of_nat 0 * dc)%Z with c by lia.
      by rewrite !Z.eqb_refl.
    + destruct (_ && _) eqn:Heq.
      * apply andb_true_iff in Heq as [H1 H2].
        apply Z.eqb_eq in H1, H2. exfalso.
        assert (Z.of_nat (S m) * dr = 0)%Z as H1' by lia.
        assert (Z.of_nat (S m) * dc = 0)%Z as H2' by lia.
        apply Z.mul_eq_0 in H1', H2'. lia.
      * replace (r + Z.of_nat (S m) * dr)%Z
          with ((r + dr) + Z.of_nat m * dr)%Z by lia.
        replace (c + Z.of_nat (S m) * dc)%Z
          with ((c + dc) + Z.of_nat m * dc)%Z by lia.
        rewrite IH. cbn [row col]. rewrite <- seq_shift, map_map.
        apply map_ext. intros j. f_equal; lia.
Qed.

Lemma sgn_scale m d :
  (0 < m)%Z -> (-1 <= d <= 1)%Z -> Z.sgn (m * d) = d.
Proof.
  intros Hm Hd.
  assert (d = -1 \/ d = 0 \/ d = 1)%Z as Hcases by lia.
  destruct Hcases as [->|Hcases]; [lia|]. destruct Hcases as [->| ->]; lia.
Qed.

(** getPointsOnLine between two cells [m] steps apart in a direction. *)
Lemma getPointsOnLine_between a b dr dc m :
  (-1 <= dr <= 1)%Z -> (-1 <= dc <= 1)%Z -> m = 0 \/ (dr <> 0 \/ dc <> 0)%Z ->
  row b = (row a + Z.of_nat m * dr)%Z ->
  col b = (col a + Z.of_nat m * dc)%Z ->
  Game.getPointsOnLine a b = Some (lineFrom a dr dc (Nat.min (S m) 101)).
Proof.
  intros Hr Hc Hd Hrow Hcol. destruct a as [ar ac], b as [br bc].
  cbn [row col] in Hrow, Hcol. subst br bc.
  unfold Game.getPointsOnLine, Js.sign. cbn [row col].
  replace (ar + Z.of_nat m * dr - ar)%Z with (Z.of_nat m * dr)%Z by lia.
  replace (ac + Z.of_nat m * dc - ac)%Z with (Z.of_nat m * dc)%Z by lia.
  destruct m as [|m].
  - change (Z.of_nat 0) with 0%Z. rewrite !Z.mul_0_l.
    change (Z.sgn 0) with 0%Z. rewrite Z.eqb_refl. cbn [andb].
    change (Nat.min 1 101) with 1. unfold lineFrom. cbn [seq map row col].
    do 2 f_equal. f_equal; lia.
  - destruct Hd as [|Hd]; [done|].
    rewrite !sgn_scale by lia.
    rewrite <- (walk_line dr dc Hd 101 (S m) ar ac).
    destruct (Z.eqb_spec dr 0) as [Hdr|Hdr], (Z.eqb_spec dc 0) as [Hdc|Hdc];
      cbn [andb negb]; [lia|reflexivity|reflexivity|].
    assert (Z.abs (Z.of_nat (S m) * dr) = Z.abs (Z.of_nat (S m) * dc)) as Habs.
    { assert (dr = -1 \/ dr = 1)%Z as [-> | ->] by lia;
        assert (dc = -1 \/ dc = 1)%Z as [-> | ->] by lia; lia. }
    rewrite (proj2 (Z.eqb_eq _ _) Habs). reflexivity.
Qed.

(** X19.  getPointsOnLine along a row, a column or a diagonal returns the
    cells from the start to the end, one step apart and in order; past 101
    cells the safety break stops it short of the end. *)
Theorem getPointsOnLine_line (start : Point) (dr dc : Z) (m : nat) :
  (-1 <= dr <= 1)%Z -> (-1 <= dc <= 1)%Z -> (dr <> 0 \/ dc <> 0)%Z ->
  Game.getPointsOnLine start
    (mkPoint (row start + Z.of_nat m * dr) (col start + Z.of_nat m * dc))
  = Some (map (fun j => mkPoint (row start + Z.of_nat j * dr)
                                (col start + Z.of_nat j * dc))
              (seq 0 (Nat.min (S m) 101))).
Proof.
  intros Hr Hc Hd.
  by apply (getPointsOnLine_between start _ dr dc m); [| |right|..].
Qed.

Lemma getPointsOnLine_line_witness :
  Game.getPointsOnLine (mkPoint 2 0)
    (mkPoint (2 + Z.of_nat 2 * (-1)) (0 + Z.of_nat 2 * 1))
  = Some (map (fun j => mkPoint (2 + Z.of_nat j * (-1)) (0 + Z.of_nat j * 1))
              (seq 0 (Nat.min (S 2) 101))).
Proof.
  apply (getPointsOnLine_line (mkPoint 2 0) (-1) 1 2); lia.
Defined.

Lemma rev_seq m : rev (seq 0 (S m)) = map (fun j => m - j) (seq 0 (S m)).
Proof.
  induction m as [|m IH]; [done|].
  replace (rev (seq 0 (S (S m)))) with (S m :: rev (seq 0 (S m)))
    by (by rewrite (seq_S (S m) 0), rev_app_distr).
  rewrite IH. change (seq 0 (S (S m))) with (0 :: seq 1 (S m)).
  rewrite <- seq_shift, map_cons, map_map. done.
Qed.

Lemma rev_lineFrom a dr dc m :
  rev (lineFrom a dr dc (S m))
  = lineFrom (mkPoint (row a + Z.of_nat m * dr) (col a + Z.of_nat m * dc))
      (- dr) (- dc) (S m).
Proof.
  unfold lineFrom. rewrite <- map_rev, rev_seq, map_map.
  apply map_ext_in. intros j Hj. apply in_seq in Hj. cbn [row col].
  f_equal; rewrite Nat2Z.inj_sub by lia; ring.
Qed.

(** Two cells between which getPointsOnLine answers are some steps apart
    in a direction. *)
Lemma straight_steps a b :
  Game.getPointsOnLine a b <> None ->
  exists dr dc m,
    (-1 <= dr <= 1)%Z /\ (-1 <= dc <= 1)%Z
    /\ (m = 0 \/ (dr <> 0 \/ dc <> 0)%Z)
    /\ row b = (row a + Z.of_nat m * dr)%Z
    /\ col b = (col a + Z.of_nat m * dc)%Z
    /\ Z.of_nat m = Z.max (Z.abs (row b - row a)) (Z.abs (col b - col a)).
Proof.
  unfold Game.getPointsOnLine, Js.sign.
  set (x := (row b - row a)%Z). set (y := (col b - col a)%Z).
  intros Hsome.
  assert (x = 0 \/ y = 0 \/ Z.abs x = Z.abs y)%Z as Hline.
  { destruct (Z.eqb_spec (Z.sgn x) 0), (Z.eqb_spec (Z.sgn y) 0),
      (Z.eqb_spec (Z.abs x) (Z.abs y)); cbn [andb negb] in Hsome;
      try done; lia. }
  exists (Z.sgn x), (Z.sgn y), (Z.to_nat (Z.max (Z.abs x) (Z.abs y))).
  rewrite Z2Nat.id by lia.
  split; [lia|]. split; [lia|]. split; [lia|].
  destruct (Z.sgn_spec x) as [[? ->]|[[? ->]|[? ->]]],
    (Z.sgn_spec y) as [[? ->]|[[? ->]|[? ->]]]; lia.
Qed.

Lemma getPointsOnLine_rev a b pts :
  Game.getPointsOnLine a b = Some pts ->
  (Z.abs (row b - row a) <= 100)%Z -> (Z.abs (col b - col a) <= 100)%Z ->
  Game.getPointsOnLine b a = Some (rev pts).
Proof.
  intros Hpts Hrows Hcols.
  destruct (straight_steps a b) as (dr & dc & m & Hr & Hc & Hd & Hrow & Hcol & Hm);
    [by rewrite Hpts|].
  rewrite (getPointsOnLine_between a b dr dc m Hr Hc Hd Hrow Hcol) in Hpts.
  rewrite (Nat.min_l (S m) 101) in Hpts by lia. injection Hpts as <-.
  rewrite (getPointsOnLine_between b a (- dr) (- dc) m) by lia.
  rewrite (Nat.min_l (S m) 101) by lia. rewrite rev_lineFrom.
  do 2 f_equal. destruct b as [br bc]. cbn [row col] in *. by subst.
Qed.

(** X20.  Dragging the other way visits the same cells backwards: when the
    two cells are at most 100 steps apart, getPointsOnLine from the end to
    the start returns the reversed list. *)
Theorem getPointsOnLine_reverse (a b : Point) (pts : list Point) :
  Game.getPointsOnLine a b = Some pts ->
  (Z.abs (row b - row a) <= 100)%Z -> (Z.abs (col b - col a) <= 100)%Z ->
  Game.getPointsOnLine b a = Some (rev pts).
Proof. apply getPointsOnLine_rev. Qed.

Lemma getPointsOnLine_reverse_witness :
  Game.getPointsOnLine (mkPoint 0 2) (mkPoint 0 0)
  = Some (rev [mkPoint 0 0; mkPoint 0 1; mkPoint 0 2]).
Proof.
  apply (getPointsOnLine_reverse (mkPoint 0 0) (mkPoint 0 2)).
  - vm_compute. reflexivity.
  - simpl. lia.
  - simpl. lia.
Defined.

Lemma isSameLine_true a b c d :
  Game.isSameLine a b c d = true <-> (a = c /\ b = d) \/ (a = d /\ b = c).
Proof.
  unfold Game.isSameLine. rewrite orb_true_iff, !andb_true_iff, !Z.eqb_eq.
  destruct a as [ar ac], b as [br bc], c as [cr cc], d as [dr dc].
  cbn [row col]. split.
  - intros [(((-> & ->) & ->) & ->)|(((-> & ->) & ->) & ->)]; auto.
  - intros [[[= -> ->] [= -> ->]]|[[= -> ->] [= -> ->]]]; auto.
Qed.

(** A string read from its last character to its first. *)
Fixpoint reverse (s : string) : string :=
  match s with
  | EmptyString => EmptyString
  | String c rest => reverse rest +:+ String c EmptyString
  end.

Lemma join_app l1 l2 : Game.join (l1 ++ l2) = Game.join l1 +:+ Game.join l2.
Proof.
  induction l1 as [|[t|] l1 IH]; cbn [app Game.join].
  - by rewrite JsFacts.append_nil_l.
  - by rewrite IH, JsFacts.append_assoc.
  - done.
Qed.

Lemma join_charAt_rev w :
  Game.join (rev (map (Js.charAt w) (seq 0 (String.length w)))) = reverse w.
Proof.
  induction w as [|c w IH]; [done|].
  cbn [String.length seq map rev reverse]. rewrite charAt_cons_0, join_app.
  rewrite <- seq_shift, map_map.
  rewrite (map_ext _ (Js.charAt w)) by (intros j; apply charAt_cons_S).
  rewrite IH. cbn [Game.join]. by rewrite JsFacts.append_nil_r.
Qed.

(** Read from its end to its start, a placed word comes out reversed. *)
Lemma getSelectedWord_backwards rows cols g L d :
  placedAt rows cols g L d -> 1 <= String.length (word L) <= 101 ->
  Game.getSelectedWord g (end_ L) (start L) = Some (Some (reverse (word L))).
Proof.
  intros (_ & _ & Hcells & Hend) Hlen. unfold Game.getSelectedWord.
  rewrite Hend. destruct (Nat.eqb_spec (String.length (word L)) 0); [lia|].
  destruct (start L) as [r c] eqn:Hstart. unfold cellOn in *. cbn [row col] in *.
  rewrite (getPointsOnLine_rev (mkPoint r c) _ _
             (getPointsOnLine_offset d r c _ Hlen));
    [|unfold pointOf; destruct d; cbn [offset row col fst snd]; lia..].
  rewrite (mapM_map _ (fun p => Some (default "" (lookupCell g (row p) (col p))))).
  - cbn [mbind option_bind]. rewrite map_rev, map_map. do 2 f_equal.
    rewrite <- join_charAt_rev. do 2 f_equal.
    apply map_ext_in. intros j Hj. apply in_seq in Hj.
    destruct (Hcells j ltac:(lia)) as [_ Hcell]. unfold lookupCellP in Hcell.
    unfold pointOf. cbn [row col]. rewrite Hcell.
    destruct (charAt_is_Some (word L) j ltac:(lia)) as [v ->]. done.
  - intros p Hp. apply in_rev, in_map_iff in Hp as (j & <- & Hj).
    apply in_seq in Hj.
    destruct (Hcells j ltac:(lia)) as [_ Hcell]. unfold lookupCellP in Hcell.
    unfold pointOf. cbn [row col].
    destruct (charAt_is_Some (word L) j ltac:(lia)) as [v Hv].
    rewrite Hv in Hcell. rewrite Hcell. simpl. by apply lookupCell_readCell.
Qed.

(** In a generated state on a grid of at most 101 rows and columns, every
    location with a non-empty word lies on a line that getSelectedWord
    reads in full. *)
Lemma generated_placed tape rows cols ws k gs k' L :
  generate tape rows cols ws k = Some (gs, k') ->
  rows <= 101 -> cols <= 101 ->
  In L (words gs) -> word L <> "" ->
  exists d, placedAt rows cols (grid gs) L d
    /\ 1 <= String.length (word L) <= 101.
Proof.
  intros Hgen Hrows Hcols HL Hne.
  destruct (generate_spec tape rows cols ws k)
    as (gs0 & k0 & Hgen0 & _ & Hplaced & _).
  rewrite Hgen in Hgen0. injection Hgen0 as <- <-.
  rewrite Forall_forall in Hplaced.
  destruct (Hplaced L) as (d & _ & Hd); [by apply list_elem_of_In|].
  exists d. split; [done|].
  destruct (GeneratorClaims.placedAt_fits _ _ _ _ _ Hd) as (_ & _ & Hfits).
  destruct (word L); [done|]. simpl in *. lia.
Qed.

(** X21.  On a grid of at most 101 rows and columns, dragging from the
    start of a placed, non-empty word to its end is matched by
    handleMouseUp: the lookup returns a location with that word and those
    end points. *)
Theorem findMatch_placed tape rows cols ws k gs k' L :
  generate tape rows cols ws k = Some (gs, k') ->
  rows <= 101 -> cols <= 101 ->
  In L (words gs) -> word L <> "" ->
  exists L',
    Game.findMatch gs (start L) (end_ L) = Some (Some L')
    /\ In L' (words gs) /\ word L' = word L
    /\ Game.isSameLine (start L') (end_ L') (start L) (end_ L) = true.
Proof.
  intros Hgen Hrows Hcols HL Hne.
  destruct (generated_placed _ _ _ _ _ _ _ _ Hgen Hrows Hcols HL Hne)
    as (d & Hd & Hlen).
  unfold Game.findMatch.
  rewrite (getSelectedWord_placedAt _ _ _ _ _ Hd Hlen).
  cbn [mbind option_bind].
  replace (Js.truthy (Some (word L))) with true by (by destruct (word L)).
  destruct (find _ (words gs)) as [L'|] eqn:Hfind.
  - apply find_some in Hfind as [HL' Htest].
    apply andb_true_iff in Htest as [Hword Hline].
    apply bool_decide_eq_true in Hword. exists L'.
    split; [done|]. split; [done|]. split; [congruence|done].
  - apply (find_none _ _ Hfind) in HL.
    rewrite bool_decide_eq_true_2 in HL by done.
    rewrite (proj2 (isSameLine_true _ _ _ _)) in HL; [done|by left].
Qed.

Lemma findMatch_placed_witness :
  exists L',
    Game.findMatch SolverClaims.catState (mkPoint 0 0) (mkPoint 0 2)
      = Some (Some L')
    /\ In L' (words SolverClaims.catState) /\ word L' = "CAT"
    /\ Game.isSameLine (start L') (end_ L') (mkPoint 0 0) (mkPoint 0 2) = true.
Proof.
  apply (findMatch_placed GeneratorClaims.zeroTape 3 3 ["cat"] 0
           SolverClaims.catState 9
           {| word := "CAT"; start := mkPoint 0 0; end_ := mkPoint 0 2 |}).
  - vm_compute. reflexivity.
  - lia.
  - lia.
  - left. reflexivity.
  - discriminate.
Defined.

(** X22.  What handleMouseUp matches, on a grid of at most 101 rows and
    columns: the matched location has a non-empty word, which is the text
    read along the drag, and either the drag went from its start to its
    end, or it went from its end to its start and the word reads the same
    in both directions.  A placed word that is not a palindrome is never
    matched by a drag from its end to its start. *)
Theorem findMatch_sound tape rows cols ws k gs k' a b L :
  generate tape rows cols ws k = Some (gs, k') ->
  rows <= 101 -> cols <= 101 ->
  Game.findMatch gs a b = Some (Some L) ->
  In L (words gs) /\ word L <> ""
  /\ Game.getSelectedWord (grid gs) a b = Some (Some (word L))
  /\ ((start L = a /\ end_ L = b)
      \/ (start L = b /\ end_ L = a /\ reverse (word L) = word L)).
Proof.
  intros Hgen Hrows Hcols. unfold Game.findMatch.
  destruct (Game.getSelectedWord (grid gs) a b) as [sel|] eqn:Hsel; [|done].
  cbn [mbind option_bind]. destruct (Js.truthy sel) eqn:Htruthy; [|done].
  intros [= Hfind]. apply find_some in Hfind as [HL Htest].
  apply andb_true_iff in Htest as [Hword Hline].
  apply bool_decide_eq_true in Hword. subst sel.
  apply isSameLine_true in Hline.
  assert (word L <> "") as Hne by (intros Hw; by rewrite Hw in Htruthy).
  split; [done|]. split; [done|]. split; [done|].
  destruct Hline as [[<- <-]|[<- <-]]; [by left|right].
  split; [done|]. split; [done|].
  destruct (generated_placed _ _ _ _ _ _ _ _ Hgen Hrows Hcols HL Hne)
    as (d & Hd & Hlen).
  rewrite (getSelectedWord_backwards _ _ _ _ _ Hd Hlen) in Hsel.
  by injection Hsel.
Qed.

Lemma findMatch_sound_witness :
  In {| word := "CAT"; start := mkPoint 0 0; end_ := mkPoint 0 2 |}
     (words SolverClaims.catState)
  /\ "CAT" <> ""
  /\ Game.getSelectedWord (grid SolverClaims.catState)
       (mkPoint 0 0) (mkPoint 0 2) = Some (Some "CAT")
  /\ ((mkPoint 0 0 = mkPoint 0 0 /\ mkPoint 0 2 = mkPoint 0 2)
      \/ (mkPoint 0 0 = mkPoint 0 2 /\ mkPoint 0 2 = mkPoint 0 0
          /\ reverse "CAT" = "CAT")).
Proof.
  apply (findMatch_sound GeneratorClaims.zeroTape 3 3 ["cat"] 0
           SolverClaims.catState 9 (mkPoint 0 0) (mkPoint 0 2)
           {| word := "CAT"; start := mkPoint 0 0; end_ := mkPoint 0 2 |}).
  - vm_compute. reflexivity.
  - lia.
  - lia.
  - vm_compute. reflexivity.
Defined.

End GameProperties.

(** ** The opponent scheduler: timeouts, solver and calls *)

Module OpponentProperties.
Import Opponent OpponentFacts.

Lemma run_app tape evs later st :
  run tape (evs ++ later) st = run tape later (run tape evs st).
Proof. unfold run. by rewrite fold_left_app. Qed.

Lemma timersOk_size st : timersOk st -> size (timers st) <= 1.
Proof.
  intros Hok.
  pose proof (clearPending_empty st Hok) as Hclear. unfold clearPending in Hclear.
  destruct (turnTimeoutRef st) as [ref|]; [|rewrite Hclear, map_size_empty; lia].
  destruct (timers st !! ref) as [c|] eqn:Href.
  - rewrite <- (insert_delete_id (timers st) ref c Href), Hclear.
    rewrite insert_empty, map_size_singleton. lia.
  - rewrite delete_id in Hclear by done. rewrite Hclear, map_size_empty. lia.
Qed.

(** X23.  The hook never has two timeouts pending: in every state it
    reaches at most one is, and it is the one [turnTimeoutRef] holds. *)
Theorem at_most_one_timeout tape k history :
  let st := run tape history (initial k) in
  size (timers st) <= 1
  /\ forall id closure, timers st !! id = Some closure ->
       turnTimeoutRef st = Some id.
Proof.
  intros st.
  assert (timersOk st) as Hok by (apply run_timersOk, initial_timersOk).
  split; [by apply timersOk_size|].
  intros id c Hid. by destruct (Hok id c Hid).
Qed.

(** Renders that bring no grid, or no words. *)
Definition noBoard (ev : Event) : Prop :=
  match ev with
  | Render props _ _ => grid props = None \/ words props = []
  | _ => True
  end.

(** X24.  As long as no render has brought both a grid and a non-empty word
    list, there is no solver, no timeout is armed, even on the opponent's
    turn, and the callback is not called. *)
Theorem no_board_no_call tape k history :
  Forall noBoard history ->
  let st := run tape history (initial k) in
  solverRef st = None /\ timers st = ∅ /\ calls st = [].
Proof.
  intros Hall. induction history as [|ev evs IH] using rev_ind; [done|].
  apply Forall_app in Hall as [Hevs Hev]. rewrite Forall_singleton in Hev.
  specialize (IH Hevs). cbn zeta in *. rewrite run_snoc.
  destruct IH as (Hsolver & Htimers & Hcalls).
  set (st := run tape evs (initial k)) in *.
  destruct ev as [props f1 f2|id|]; cbn [step].
  - rewrite render_calls. split; [|split; [|done]].
    + unfold render. cbn [solverRef setRendered].
      assert (forall st0, solverRef st0 = None ->
                solverRef (initSolver props st0) = None) as Hinit.
      { intros st0 H0. unfold initSolver. simpl in Hev.
        destruct Hev as [-> | ->]; [done|]. by destruct (grid props). }
      assert (forall st0, solverRef (turnEffect props st0) = solverRef st0)
        as Hturn.
      { intros st0. unfold turnEffect. destruct (_ || _); [done|].
        by destruct (solverRef st0). }
      assert (solverRef (runCleanup st) = None) as Hclean.
      { unfold runCleanup. by destruct (hasCleanup st). }
      destruct (turnDepsChanged f2 props st), (solverDepsChanged f1 props st);
        rewrite ?Hturn; auto.
    + assert (forall st0, timers st0 = ∅ -> clearPending st0 = ∅) as Hclear.
      { intros st0 H0. unfold clearPending. rewrite H0.
        destruct (turnTimeoutRef st0); [apply delete_empty|done]. }
      assert (forall st0, timers st0 = ∅ -> solverRef st0 = None ->
                timers (turnEffect props st0) = ∅) as Hturn.
      { intros st0 H0 Hs0. unfold turnEffect. rewrite Hs0.
        destruct (_ || _); simpl; auto. }
      assert (forall st0, timers st0 = ∅ -> solverRef st0 = None ->
                timers (initSolver props st0) = ∅
                /\ solverRef (initSolver props st0) = None) as Hinit.
      { intros st0 H0 Hs0. unfold initSolver. simpl in Hev.
        destruct Hev as [-> | ->]; [done|]. by destruct (grid props). }
      assert (timers (runCleanup st) = ∅ /\ solverRef (runCleanup st) = None)
        as [Hc1 Hc2].
      { unfold runCleanup. destruct (hasCleanup st); simpl; auto. }
      unfold render. cbn [timers setRendered].
      destruct (turnDepsChanged f2 props st), (solverDepsChanged f1 props st);
        try done.
      * apply Hturn; by apply Hinit.
      * by apply Hturn.
      * by apply Hinit.
  - unfold fire. by rewrite Htimers, lookup_empty.
  - rewrite runCleanup_calls. unfold runCleanup.
    destruct (hasCleanup st); simpl; [|done].
    split; [done|]. split; [|done].
    unfold clearPending. rewrite Htimers.
    destruct (turnTimeoutRef st); [apply delete_empty|done].
Qed.

Lemma no_board_no_call_witness :
  let st := run GeneratorClaims.zeroTape
              [Render {| grid := Some SolverClaims.cornerGrid; words := [];
                         playerFoundWords := []; cpuFoundWords := [];
                         isCpuTurn := true; gameActive := true |} false false;
               Expire 1]
              (initial 0) in
  solverRef st = None /\ timers st = ∅ /\ calls st = [].
Proof.
  apply (no_board_no_call GeneratorClaims.zeroTape 0).
  constructor; [right; reflexivity|]. constructor; [exact I|]. constructor.
Defined.

(** X25.  The unmount cancels the pending timeout: after it nothing is
    pending, and timeouts that expire later do not call the callback. *)
Theorem unmount_cancels tape k history later :
  Forall (fun ev => exists id, ev = Expire id) later ->
  timers (run tape (history ++ [Unmount]) (initial k)) = ∅
  /\ calls (run tape (history ++ Unmount :: later) (initial k))
     = calls (run tape history (initial k)).
Proof.
  intros Hlater.
  assert (timersOk (run tape history (initial k))) as Hok
    by (apply run_timersOk, initial_timersOk).
  rewrite run_snoc. cbn [step]. split; [by apply runCleanup_timers|].
  rewrite (run_app tape history (Unmount :: later)).
  change (run tape (Unmount :: later) ?st)
    with (run tape later (step tape Unmount st)). cbn [step].
  rewrite offTurn_silent.
  - apply runCleanup_calls.
  - by apply runCleanup_timersOk.
  - by apply runCleanup_timers.
  - eapply Forall_impl; [exact Hlater|]. by intros ev [id ->].
Qed.

Lemma unmount_cancels_witness :
  timers (run GeneratorClaims.zeroTape
            ([Render (OpponentClaims.cornerProps true) false false] ++ [Unmount])
            (initial 0)) = ∅
  /\ calls (run GeneratorClaims.zeroTape
              ([Render (OpponentClaims.cornerProps true) false false]
                 ++ Unmount :: [Expire 1])
              (initial 0))
     = calls (run GeneratorClaims.zeroTape
                [Render (OpponentClaims.cornerProps true) false false]
                (initial 0)).
Proof.
  apply (unmount_cancels GeneratorClaims.zeroTape 0
           [Render (OpponentClaims.cornerProps true) false false] [Expire 1]).
  repeat constructor. by exists 1.
Defined.

(** *** Where the solver and the calls come from *)

(** The solver was built from the grid and the words of a render. *)
Definition built (evs : list Event) (s : Solver.WordSearchSolver) : Prop :=
  exists props f1 f2 g,
    In (Render props f1 f2) evs /\ grid props = Some g
    /\ s = Solver.new g (words props).

(** The location carries a word of the list of a render that also gave a
    grid, in upper case. *)
Definition listed (evs : list Event) (L : Generator.WordLocation) : Prop :=
  exists props f1 f2 w,
    In (Render props f1 f2) evs /\ is_Some (grid props)
    /\ In w (words props) /\ Generator.word L = Js.toUpperCase w.

Definition traced (evs : list Event) (st : State) : Prop :=
  (forall s, solverRef st = Some s -> built evs s)
  /\ Forall (listed evs) (calls st).

(** The solver after a render is the one before it, or was built by it. *)
Lemma render_solver props f1 f2 st s :
  solverRef (render props f1 f2 st) = Some s ->
  solverRef st = Some s
  \/ exists g, grid props = Some g /\ s = Solver.new g (words props).
Proof.
  unfold render. cbn [solverRef setRendered].
  assert (forall st0, solverRef (turnEffect props st0) = solverRef st0)
    as Hturn.
  { intros st0. unfold turnEffect. destruct (_ || _); [done|].
    by destruct (solverRef st0). }
  assert (solverRef (runCleanup st) = solverRef st) as Hclean.
  { unfold runCleanup. by destruct (hasCleanup st). }
  assert (forall st0, solverRef (initSolver props st0) = Some s ->
            solverRef st0 = Some s
            \/ exists g, grid props = Some g /\ s = Solver.new g (words props))
    as Hinit.
  { intros st0. unfold initSolver. destruct (grid props) as [g|]; [|by left].
    destruct (0 <? length (words props))%nat; [|by left].
    simpl. intros [= <-]. right. by exists g. }
  destruct (turnDepsChanged f2 props st), (solverDepsChanged f1 props st);
    rewrite ?Hturn; intros Hs.
  - apply Hinit in Hs as [Hs|Hs]; [left|by right]. by rewrite <- Hclean.
  - left. by rewrite <- Hclean.
  - by apply Hinit.
  - by left.
Qed.

Lemma traced_mono evs ev st : traced evs st -> traced (evs ++ [ev]) st.
Proof.
  intros (Hs & Hc). split.
  - intros s Hsolver. destruct (Hs s Hsolver) as (p & f1 & f2 & g & ? & ? & ?).
    exists p, f1, f2, g. rewrite in_app_iff. auto.
  - eapply Forall_impl; [exact Hc|]. intros L (p & f1 & f2 & w & ? & ?).
    exists p, f1, f2, w. rewrite in_app_iff. auto.
Qed.

Lemma run_traced tape k evs : traced evs (run tape evs (initial k)).
Proof.
  induction evs as [|ev evs IH] using rev_ind.
  - split; [done|constructor].
  - rewrite run_snoc. set (st := run tape evs (initial k)) in *.
    pose proof (traced_mono evs ev st IH) as (Hs & Hc).
    destruct ev as [props f1 f2|id|]; cbn [step].
    + split.
      * intros s [Hold|(g & Hg & ->)]%render_solver; [by apply Hs|].
        exists props, f1, f2, g. rewrite in_app_iff. simpl. auto.
      * by rewrite render_calls.
    + split.
      * unfold fire. by destruct (timers st !! id).
      * destruct (step_calls tape (Expire id) st)
          as [Hsame|(id' & c & s & F & a & k' & _ & Hid & Hsolver & Hfind & Hcalls)];
          cbn [step] in *; [by rewrite Hsame|].
        rewrite Hcalls. apply Forall_app. split; [done|].
        apply Forall_singleton.
        destruct (Hs s Hsolver) as (p & f1 & f2 & g & Hp & Hg & ->).
        apply SolverProperties.findNextWord_result in Hfind as [HF _].
        destruct (SolverClaims.wellFormed_word _ _ _ HF) as [_ (w & Hw & HFw)].
        exists p, f1, f2, w. rewrite Hg. split; [done|]. split; [eauto|].
        by split.
    + split.
      * unfold runCleanup. by destruct (hasCleanup st).
      * by rewrite runCleanup_calls.
Qed.

(** X26.  Every location the hook passes to [onCpuFoundWord] carries a word
    of the list given by a render that also gave a grid, in upper case. *)
Theorem calls_are_listed_words tape k history L :
  In L (calls (run tape history (initial k))) ->
  exists props fresh1 fresh2 w,
    In (Render props fresh1 fresh2) history /\ is_Some (grid props)
    /\ In w (words props) /\ Generator.word L = Js.toUpperCase w.
Proof.
  intros HL. destruct (run_traced tape k history) as (_ & Hcalls).
  rewrite Forall_forall in Hcalls. apply Hcalls. by apply list_elem_of_In.
Qed.

Lemma calls_are_listed_words_witness :
  exists props fresh1 fresh2 w,
    In (Render props fresh1 fresh2)
       [Render (OpponentClaims.cornerProps true) false false; Expire 1]
    /\ is_Some (grid props)
    /\ In w (words props)
    /\ Generator.word (toLocation SolverClaims.cornerWord) = Js.toUpperCase w.
Proof.
  apply (calls_are_listed_words GeneratorClaims.zeroTape 0
           [Render (OpponentClaims.cornerProps true) false false; Expire 1]).
  vm_compute. left. reflexivity.
Defined.

(** *** The found words a timeout has captured *)

(** A pending timeout has captured the found words of the last render. *)
Definition current (st : State) : Prop :=
  forall id c, timers st !! id = Some c ->
    exists props,
      rendered st = Some props
      /\ capturedPlayer c = playerFoundWords props
      /\ capturedCpu c = cpuFoundWords props.

Lemma clearPending_lookup st id c :
  clearPending st !! id = Some c -> timers st !! id = Some c.
Proof.
  unfold clearPending. destruct (turnTimeoutRef st); [|done].
  by intros [_ ?]%lookup_delete_Some.
Qed.

Lemma render_current props f1 f2 st :
  timersOk st -> current st -> current (render props f1 f2 st).
Proof.
  intros Hok Hcur id c. unfold render. cbn [timers rendered setRendered].
  destruct (turnDepsChanged f2 props st) eqn:Hrun2.
  - pose proof (runCleanup_timers st Hok) as Hclean.
    set (st1 := runCleanup st) in *.
    set (st2 := if solverDepsChanged f1 props st then initSolver props st1
                else st1).
    assert (timers st2 = ∅) as Hst2.
    { unfold st2. destruct (solverDepsChanged f1 props st); [|done].
      by rewrite (proj1 (initSolver_fields props st1)). }
    unfold turnEffect. destruct (_ || _); cbn [timers].
    + intros Hid%clearPending_lookup. by rewrite Hst2, lookup_empty in Hid.
    + destruct (solverRef st2); cbn [timers]; rewrite Hst2.
      * intros [[_ <-]|[_ Hid]]%lookup_insert_Some;
          [|by rewrite lookup_empty in Hid].
        by exists props.
      * by rewrite lookup_empty.
  - unfold turnDepsChanged in Hrun2.
    destruct (rendered st) as [old|] eqn:Hold; [|done].
    apply orb_false_iff in Hrun2 as [Hrun2 Hcpu].
    apply orb_false_iff in Hrun2 as [_ Hplayer].
    apply bool_decide_eq_false in Hcpu, Hplayer.
    apply dec_stable in Hcpu, Hplayer.
    assert (timers (if solverDepsChanged f1 props st then initSolver props st
                    else st) = timers st) as ->.
    { destruct (solverDepsChanged f1 props st); [|done].
      apply initSolver_fields. }
    intros Hid. destruct (Hcur id c Hid) as (p & Hp & H1 & H2).
    rewrite Hold in Hp. injection Hp as <-. exists props.
    split; [done|]. split; congruence.
Qed.

Lemma run_current tape k evs : current (run tape evs (initial k)).
Proof.
  induction evs as [|ev evs IH] using rev_ind.
  - intros id c. simpl. by rewrite lookup_empty.
  - rewrite run_snoc.
    assert (timersOk (run tape evs (initial k))) as Hok
      by (apply run_timersOk, initial_timersOk).
    set (st := run tape evs (initial k)) in *.
    destruct ev as [props f1 f2|id|]; cbn [step].
    + by apply render_current.
    + unfold fire. destruct (timers st !! id) as [c0|]; [|done].
      intros id' c. cbn [timers rendered].
      intros [_ Hold]%lookup_delete_Some. by apply (IH id' c).
    + intros id c. by rewrite (runCleanup_timers st Hok), lookup_empty.
Qed.

(** X27.  When an expiring timeout calls [onCpuFoundWord], the last render
    was one in which the opponent held an active turn, and the word reported
    is not among the words that render listed as found by the player or by
    the opponent. *)
Theorem expiry_reports_unfound_word tape k history id L :
  let st := run tape history (initial k) in
  calls (step tape (Expire id) st) = calls st ++ [L] ->
  exists props,
    rendered st = Some props
    /\ isCpuTurn props = true /\ gameActive props = true
    /\ ~ In (Generator.word L)
          (playerFoundWords props ++ cpuFoundWords props).
Proof.
  intros st Hcall.
  destruct (step_calls tape (Expire id) st)
    as [Hsame|(id' & c & s & F & a & k' & _ & Hid & Hsolver & Hfind & Hcalls)].
  { rewrite Hsame in Hcall. apply (f_equal length) in Hcall.
    rewrite length_app in Hcall. simpl in Hcall. lia. }
  rewrite Hcalls in Hcall. apply app_inj_tail in Hcall as [_ <-].
  destruct (run_timersOk tape history (initial k) (initial_timersOk k) id' c Hid)
    as (_ & _ & props & Hprops & Hturn & Hactive).
  destruct (run_current tape k history id' c Hid) as (p & Hp & Hcp & Hcc).
  rewrite Hprops in Hp. injection Hp as <-.
  destruct (run_traced tape k history) as (Hbuilt & _).
  destruct (Hbuilt s Hsolver) as (q & f1 & f2 & g & _ & _ & ->).
  apply SolverProperties.findNextWord_result in Hfind as [_ Hfresh].
  exists props. split; [done|]. split; [done|]. split; [done|].
  cbn [toLocation Generator.word]. by rewrite <- Hcp, <- Hcc.
Qed.

Lemma expiry_reports_unfound_word_witness :
  exists props,
    rendered (run GeneratorClaims.zeroTape
                [Render (OpponentClaims.cornerProps true) false false]
                (initial 0)) = Some props
    /\ isCpuTurn props = true /\ gameActive props = true
    /\ ~ In (Generator.word (toLocation SolverClaims.cornerWord))
          (playerFoundWords props ++ cpuFoundWords props).
Proof.
  apply (expiry_reports_unfound_word GeneratorClaims.zeroTape 0
           [Render (OpponentClaims.cornerProps true) false false] 1
           (toLocation SolverClaims.cornerWord)).
  vm_compute. reflexivity.
Defined.

(** *** How often the callback is called *)

Definition givesTurn (ev : Event) : bool :=
  match ev with
  | Render props _ _ => holdsTurn props
  | _ => false
  end.

(** The renders in which the opponent holds an active turn. *)
Definition turnsGiven (evs : list Event) : nat :=
  length (List.filter givesTurn evs).

Lemma calls_and_timers tape k evs :
  length (calls (run tape evs (initial k)))
  + size (timers (run tape evs (initial k))) <= turnsGiven evs.
Proof.
  induction evs as [|ev evs IH] using rev_ind.
  - simpl. rewrite map_size_empty. unfold turnsGiven. simpl. lia.
  - rewrite run_snoc. unfold turnsGiven in *.
    rewrite List.filter_app, length_app.
    assert (timersOk (run tape evs (initial k))) as Hok
      by (apply run_timersOk, initial_timersOk).
    set (st := run tape evs (initial k)) in *.
    destruct ev as [props f1 f2|id|]; cbn [step List.filter givesTurn].
    + rewrite render_calls.
      destruct (render_timers props f1 f2 st Hok) as [Hok' Hnone].
      pose proof (timersOk_size _ Hok') as Hsize.
      destruct (holdsTurn props); cbn [length].
      * lia.
      * rewrite Hnone by done. rewrite map_size_empty. lia.
    + simpl. unfold fire. destruct (timers st !! id) as [c|] eqn:Hid; [|lia].
      cbn [calls timers]. rewrite map_size_delete, Hid.
      assert (0 < size (timers st)).
      { destruct (size (timers st)) eqn:Hsize; [|lia].
        apply map_size_empty_inv in Hsize. by rewrite Hsize, lookup_empty in Hid. }
      destruct (fst _); rewrite ?length_app; simpl; lia.
    + rewrite runCleanup_calls, (runCleanup_timers st Hok), map_size_empty.
      simpl. lia.
Qed.

(** X28.  The callback is called at most once for every render in which
    the opponent holds an active turn. *)
Theorem calls_bounded_by_turns tape k history :
  length (calls (run tape history (initial k))) <= turnsGiven history.
Proof. pose proof (calls_and_timers tape k history). lia. Qed.

(** *** Taking the turn *)

(** Once a render has brought a grid and words, the solver exists. *)
Definition solverReady (st : State) : Prop :=
  forall props g,
    rendered st = Some props -> grid props = Some g -> words props <> [] ->
    is_Some (solverRef st).

Lemma initSolver_ready props st g :
  grid props = Some g -> words props <> [] ->
  is_Some (solverRef (initSolver props st)).
Proof.
  intros Hg Hw. unfold initSolver. rewrite Hg.
  destruct (words props); [done|]. simpl. eauto.
Qed.

Lemma turnEffect_solver props st :
  solverRef (turnEffect props st) = solverRef st.
Proof.
  unfold turnEffect. destruct (_ || _); [done|]. by destruct (solverRef st).
Qed.

Lemma runCleanup_solver st : solverRef (runCleanup st) = solverRef st.
Proof. unfold runCleanup. by destruct (hasCleanup st). Qed.

(** The solver that the turn effect of a render finds. *)
Lemma render_ready props f1 f2 st g :
  solverReady st -> grid props = Some g -> words props <> [] ->
  is_Some (solverRef
             (if solverDepsChanged f1 props st
              then initSolver props
                     (if turnDepsChanged f2 props st then runCleanup st else st)
              else if turnDepsChanged f2 props st then runCleanup st else st)).
Proof.
  intros Hready Hg Hw.
  destruct (solverDepsChanged f1 props st) eqn:Hrun1;
    [by eapply initSolver_ready|].
  unfold solverDepsChanged in Hrun1.
  destruct (rendered st) as [old|] eqn:Hold; [|done].
  apply orb_false_iff in Hrun1 as [Hrun1 Hwords].
  apply orb_false_iff in Hrun1 as [_ Hgrid].
  apply bool_decide_eq_false in Hwords, Hgrid.
  apply dec_stable in Hwords, Hgrid.
  assert (is_Some (solverRef st)) as Hsome.
  { apply (Hready old g); [done|congruence|congruence]. }
  destruct (turnDepsChanged f2 props st); [|done].
  by rewrite runCleanup_solver.
Qed.

Lemma run_solverReady tape k evs : solverReady (run tape evs (initial k)).
Proof.
  induction evs as [|ev evs IH] using rev_ind; [done|].
  rewrite run_snoc. set (st := run tape evs (initial k)) in *.
  destruct ev as [props f1 f2|id|]; cbn [step].
  - intros p g. unfold render. cbn [rendered solverRef setRendered].
    intros [= <-] Hg Hw.
    pose proof (render_ready props f1 f2 st g IH Hg Hw) as Hsome.
    destruct (turnDepsChanged f2 props st); [|done].
    by rewrite turnEffect_solver.
  - unfold fire. destruct (timers st !! id); [|done]. exact IH.
  - unfold runCleanup. destruct (hasCleanup st); [|done]. exact IH.
Qed.

(** X29.  Taking the turn arms the timeout: in every state the hook
    reaches, a render with a grid and words in which the opponent holds an
    active turn, and whose turn effect runs, leaves exactly one timeout
    pending, a new one, which has captured the found words of that
    render. *)
Theorem turn_arms_timeout tape k history props fresh1 fresh2 g :
  let st := run tape history (initial k) in
  grid props = Some g -> words props <> [] ->
  isCpuTurn props = true -> gameActive props = true ->
  turnDepsChanged fresh2 props st = true ->
  timers (render props fresh1 fresh2 st)
  = {[ nextTimer st := {| capturedPlayer := playerFoundWords props;
                          capturedCpu := cpuFoundWords props |} ]}
  /\ turnTimeoutRef (render props fresh1 fresh2 st) = Some (nextTimer st).
Proof.
  intros st Hg Hw Hturn Hactive Hrun2.
  assert (timersOk st) as Hok by (apply run_timersOk, initial_timersOk).
  pose proof (render_ready props fresh1 fresh2 st g
                (run_solverReady tape k history) Hg Hw) as Hsome.
  unfold render. cbn [timers turnTimeoutRef setRendered].
  rewrite Hrun2 in *.
  set (st2 := if solverDepsChanged fresh1 props st
              then initSolver props (runCleanup st) else runCleanup st) in *.
  assert (timers st2 = ∅ /\ nextTimer st2 = nextTimer st) as [Ht Hn].
  { unfold st2. destruct (solverDepsChanged fresh1 props st).
    - unfold initSolver. rewrite Hg. destruct (0 <? _)%nat; simpl;
        (split; [by apply runCleanup_timers|]);
        unfold runCleanup; by destruct (hasCleanup st).
    - split; [by apply runCleanup_timers|].
      unfold runCleanup. by destruct (hasCleanup st). }
  unfold turnEffect. rewrite Hturn, Hactive. cbn [negb orb].
  destruct (solverRef st2) as [solver|]; [|by destruct Hsome].
  cbn [timers turnTimeoutRef]. rewrite Ht, Hn. by rewrite insert_empty.
Qed.

Lemma turn_arms_timeout_witness :
  timers (render (OpponentClaims.cornerProps true) false false (initial 0))
  = {[ 1 := {| capturedPlayer := []; capturedCpu := [] |} ]}
  /\ turnTimeoutRef
       (render (OpponentClaims.cornerProps true) false false (initial 0))
     = Some 1.
Proof.
  apply (turn_arms_timeout GeneratorClaims.zeroTape 0 []
           (OpponentClaims.cornerProps true) false false
           SolverClaims.cornerGrid); try reflexivity.
  discriminate.
Defined.

End OpponentProperties.
